(** * roaring-tags: the tag index and its query engine

    A shallow embedding of package [tagbox]: the tag index of tagbox.go,
    the query engine ([Query] to [QueryXor]) and the Redis loaders of
    redis.go.

    The Go code keeps every bitmap behind a [*roaring.Bitmap] pointer and
    mutates it in place, so the embedding keeps an explicit store of
    bitmaps: a [TagSystem] holds the store, the map from tag name to
    bitmap pointer and the pointer of [allObjects].  [Clone] and
    [NewBitmap] allocate, the other bitmap methods update the store at
    the receiver.  What a caller can observe of the index is read
    through the store ([index], [universe]).

    A method ends by returning its [error]; [RecoverFromRedis], the one
    method with a slice expression that can be out of range, may also
    end in a panic ([completion]).

    The reader/writer lock is not modelled: every method runs its
    critical section in one step.  The save trigger that mutators post on
    [config.SaveChan] and the fire-and-forget [redis.Del] of [RemoveTag]
    reach the background worker and the external store only; they never
    touch the in-memory index and are left out of the state. *)

From stdpp Require Import gmap strings list fin_maps.

Set Warnings "-clear-no-such-hyp".

(** ** The bitmap primitive *)

(** A roaring bitmap is a finite set of [uint32] object identifiers.
    Identifiers are carried as [N]; no operation of the package does
    arithmetic on them. *)
Abbreviation Bitmap := (gset N).

Module roaring.

(** The store of allocated bitmaps; a pointer is an index into it. *)
Abbreviation Store := (list (gset N)).

(** The set held by the bitmap at [p].  (A pointer outside the store
    reads as the empty set; Go pointers never dangle, and no pointer of a
    well-formed system does.) *)
Definition deref (h : Store) (p : nat) : Bitmap := default ∅ (h !! p).

(** [roaring.NewBitmap()] *)
Definition NewBitmap (h : Store) : nat * Store := (length h, h ++ [∅]).

(** [b.Clone()] *)
Definition Clone (b : nat) (h : Store) : nat * Store :=
  (length h, h ++ [deref h b]).

(** [b.Clone()] for a bitmap of the caller, which lives outside the
    store and is given by the set it holds. *)
Definition CloneOf (s : Bitmap) (h : Store) : nat * Store :=
  (length h, h ++ [s]).

(** [b.Add(x)] *)
Definition Add (b : nat) (x : N) (h : Store) : Store :=
  <[b := {[x]} ∪ deref h b]> h.

(** [b.Remove(x)] *)
Definition Remove (b : nat) (x : N) (h : Store) : Store :=
  <[b := deref h b ∖ {[x]}]> h.

(** [b.And(c)], [b.Or(c)], [b.AndNot(c)], [b.Xor(c)]: the receiver is
    overwritten with the result. *)
Definition And (b c : nat) (h : Store) : Store :=
  <[b := deref h b ∩ deref h c]> h.

Definition Or (b c : nat) (h : Store) : Store :=
  <[b := deref h b ∪ deref h c]> h.

Definition AndNot (b c : nat) (h : Store) : Store :=
  <[b := deref h b ∖ deref h c]> h.

Definition Xor (b c : nat) (h : Store) : Store :=
  <[b := (deref h b ∖ deref h c) ∪ (deref h c ∖ deref h b)]> h.

(** [b.Contains(x)] *)
Definition Contains (b : nat) (x : N) (h : Store) : bool :=
  bool_decide (x ∈ deref h b).

(** [b.GetCardinality()] *)
Definition GetCardinality (b : nat) (h : Store) : N :=
  N.of_nat (size (deref h b)).

End roaring.

(** ** Strings in JSON

    A Go string is a sequence of bytes.  [json.Marshal] writes a string
    coerced to valid UTF-8: it walks the string with
    [utf8.DecodeRuneInString] and writes U+FFFD for each byte at which
    the decoder answers [(RuneError, 1)]; every other rune is written so
    that [json.Unmarshal] reads back its bytes. *)

(** The tables [first] and [acceptRanges] of package [utf8]: for the
    first byte of an encoding of more than one byte, the size of the
    encoding and the range of its second byte; [None] for a byte above
    0x7F that starts no encoding. *)
Definition utf8_first (b : N) : option (nat * (N * N)) :=
  if (b <? 0xC2)%N then None
  else if (b <? 0xE0)%N then Some (2, (0x80, 0xBF)%N)
  else if (b =? 0xE0)%N then Some (3, (0xA0, 0xBF)%N)
  else if (b <? 0xED)%N then Some (3, (0x80, 0xBF)%N)
  else if (b =? 0xED)%N then Some (3, (0x80, 0x9F)%N)
  else if (b <? 0xF0)%N then Some (3, (0x80, 0xBF)%N)
  else if (b =? 0xF0)%N then Some (4, (0x90, 0xBF)%N)
  else if (b <? 0xF4)%N then Some (4, (0x80, 0xBF)%N)
  else if (b =? 0xF4)%N then Some (4, (0x80, 0x8F)%N)
  else None.

Definition utf8_between (lo hi : N) (b : Ascii.ascii) : bool :=
  ((lo <=? Ascii.N_of_ascii b) && (Ascii.N_of_ascii b <=? hi))%N.

(** [utf8.DecodeRuneInString(s)]: the size of the encoding that [s]
    starts with, or [None] where the decoder answers [(RuneError, 1)]
    (and for the empty string, which the caller never passes). *)
Definition utf8_DecodeRuneInString (s : string) : option nat :=
  match s with
  | EmptyString => None
  | String s0 s =>
      if (Ascii.N_of_ascii s0 <? 0x80)%N then Some 1
      else
        match utf8_first (Ascii.N_of_ascii s0), s with
        | None, _ | _, EmptyString => None
        | Some (sz, (lo, hi)), String s1 s =>
            if negb (utf8_between lo hi s1) then None
            else if sz <=? 2 then Some 2
            else
              match s with
              | EmptyString => None
              | String s2 s =>
                  if negb (utf8_between 0x80 0xBF s2) then None
                  else if sz <=? 3 then Some 3
                  else
                    match s with
                    | EmptyString => None
                    | String s3 _ =>
                        if negb (utf8_between 0x80 0xBF s3) then None
                        else Some 4
                    end
              end
        end
  end.

(** U+FFFD in UTF-8. *)
Definition RuneError : string :=
  String (Ascii.ascii_of_N 0xEF)
    (String (Ascii.ascii_of_N 0xBF) (String (Ascii.ascii_of_N 0xBD) EmptyString)).

(** The string that comes back from JSON; [pending] counts the bytes
    still to copy of a rune that has been decoded. *)
Fixpoint json_string_from (pending : nat) (s : string) : string :=
  match s with
  | EmptyString => EmptyString
  | String b rest =>
      match pending with
      | S pending => String b (json_string_from pending rest)
      | 0 =>
          match utf8_DecodeRuneInString s with
          | Some size => String b (json_string_from (size - 1) rest)
          | None => RuneError +:+ json_string_from 0 rest
          end
      end
  end.

Definition json_string (s : string) : string := json_string_from 0 s.

(** A string is valid UTF-8 when JSON leaves it as it is (a coerced
    byte makes the string longer). *)
Definition validUTF8 (s : string) : Prop := json_string s = s.

(** A map with its keys as they come back from JSON, and the maps of
    which no two keys come back as the same key. *)
Definition json_keys {V : Type} (m : gmap string V) : gmap string V :=
  list_to_map (prod_map json_string id <$> map_to_list m).

Definition keysApart {V : Type} (m : gmap string V) : Prop :=
  ∀ key1 key2,
    is_Some (m !! key1) → is_Some (m !! key2) →
    json_string key1 = json_string key2 → key1 = key2.

(** ** Serialization

    [bitmap.WriteTo] / [bitmap.ReadFrom] and [json.Marshal] /
    [json.Unmarshal] belong to external libraries.  They are taken as an
    interface with the laws the package relies on: a bitmap reads back
    as it was written; a [map[string][]byte] reads back from JSON with
    its keys coerced to valid UTF-8, as long as no two of its keys are
    coerced to the same key.  [WriteTo] into a [bytes.Buffer] and
    [json.Marshal] of a [map[string][]byte] cannot fail. *)
Class Serialization := {
  bytes : Type;
  WriteTo : gset N → bytes;
  ReadFrom : bytes → option (gset N);
  ReadFrom_WriteTo : ∀ b, ReadFrom (WriteTo b) = Some b;
  file : Type;
  json_Marshal : gmap string bytes → file;
  json_Unmarshal : file → option (gmap string bytes);
  json_Unmarshal_Marshal :
    ∀ data, keysApart data →
            json_Unmarshal (json_Marshal data) = Some (json_keys data)
}.

(** ** The tag system *)

(** A Go [error]: [None] is [nil]. *)
Definition error := option string.

(** How a call that may panic ends: it returns its [error], or it
    panics with a run-time error. *)
Inductive completion :=
  | returned (err : error)
  | panicked (msg : string).

(** Of [Config], the key prefix is the one field the modelled methods
    read. *)
Record Config := mkConfig { KeyPrefix : string }.

Definition DefaultConfig : Config := {| KeyPrefix := "tags:" |}.

(** [heap] is the store of bitmaps; [tags] and [allObjects] hold
    pointers into it, as the fields of the Go struct do. *)
Record TagSystem := mkTagSystem {
  heap : list (gset N);
  tags : gmap string nat;
  allObjects : nat;
  config : Config
}.

Definition set_heap (h : list (gset N)) (ts : TagSystem) : TagSystem :=
  {| heap := h; tags := tags ts; allObjects := allObjects ts;
     config := config ts |}.

Definition set_tags (m : gmap string nat) (ts : TagSystem) : TagSystem :=
  {| heap := heap ts; tags := m; allObjects := allObjects ts;
     config := config ts |}.

(** [New], once the Redis ping has succeeded: an empty tag map and a
    freshly allocated [allObjects]. *)
Definition New (cfg : Config) : TagSystem :=
  let '(all, h) := roaring.NewBitmap [] in
  {| heap := h; tags := ∅; allObjects := all; config := cfg |}.

(** *** Mutators (tagbox.go) *)

(** The prologue shared by [AddTag], [BatchAddTags] and
    [BatchAddObjectsToTag]:
    [bitmap, exists := ts.tags[tag]; if !exists { bitmap =
    roaring.NewBitmap(); ts.tags[tag] = bitmap }]. *)
Definition getOrCreate (tag : string) (ts : TagSystem) : nat * TagSystem :=
  match tags ts !! tag with
  | Some bitmap => (bitmap, ts)
  | None =>
      let '(bitmap, h) := roaring.NewBitmap (heap ts) in
      (bitmap, set_tags (<[tag := bitmap]> (tags ts)) (set_heap h ts))
  end.

Definition AddTag (objectID : N) (tag : string) (ts : TagSystem)
  : TagSystem * error :=
  let '(bitmap, ts) := getOrCreate tag ts in
  let ts := set_heap (roaring.Add bitmap objectID (heap ts)) ts in
  let ts := set_heap (roaring.Add (allObjects ts) objectID (heap ts)) ts in
  (ts, None).

Definition RemoveTag (objectID : N) (tag : string) (ts : TagSystem)
  : TagSystem * error :=
  match tags ts !! tag with
  | None => (ts, None)
  | Some bitmap =>
      let ts := set_heap (roaring.Remove bitmap objectID (heap ts)) ts in
      if (roaring.GetCardinality bitmap (heap ts) =? 0)%N
      then (set_tags (delete tag (tags ts)) ts, None)
      else (ts, None)
  end.

Fixpoint BatchAddTags_loop (objectID : N) (tagList : list string)
    (ts : TagSystem) : TagSystem :=
  match tagList with
  | [] => ts
  | tag :: tagList =>
      let '(bitmap, ts) := getOrCreate tag ts in
      let ts := set_heap (roaring.Add bitmap objectID (heap ts)) ts in
      BatchAddTags_loop objectID tagList ts
  end.

Definition BatchAddTags (objectID : N) (tagList : list string)
    (ts : TagSystem) : TagSystem * error :=
  let ts := BatchAddTags_loop objectID tagList ts in
  let ts := set_heap (roaring.Add (allObjects ts) objectID (heap ts)) ts in
  (ts, None).

Fixpoint BatchAddObjectsToTag_loop (bitmap : nat) (objectIDs : list N)
    (ts : TagSystem) : TagSystem :=
  match objectIDs with
  | [] => ts
  | objectID :: objectIDs =>
      let ts := set_heap (roaring.Add bitmap objectID (heap ts)) ts in
      let ts := set_heap (roaring.Add (allObjects ts) objectID (heap ts)) ts in
      BatchAddObjectsToTag_loop bitmap objectIDs ts
  end.

Definition BatchAddObjectsToTag (objectIDs : list N) (tag : string)
    (ts : TagSystem) : TagSystem * error :=
  let '(bitmap, ts) := getOrCreate tag ts in
  (BatchAddObjectsToTag_loop bitmap objectIDs ts, None).

(** *** Point lookups (tagbox.go) *)

Definition HasTag (objectID : N) (tag : string) (ts : TagSystem) : bool :=
  match tags ts !! tag with
  | None => false
  | Some bitmap => roaring.Contains bitmap objectID (heap ts)
  end.

Definition GetTagCount (tag : string) (ts : TagSystem) : N * error :=
  match tags ts !! tag with
  | None => (0%N, None)
  | Some bitmap => (roaring.GetCardinality bitmap (heap ts), None)
  end.

(** *** Query engine (query.go)

    A query returns a pointer to a bitmap it has allocated, together
    with the system whose store now holds that bitmap. *)

Record QueryOp := mkQueryOp { Type_ : string; Tags : list string }.

Definition Query (tag : string) (ts : TagSystem) : TagSystem * (nat * error) :=
  match tags ts !! tag with
  | None =>
      let '(r, h) := roaring.NewBitmap (heap ts) in (set_heap h ts, (r, None))
  | Some bitmap =>
      let '(r, h) := roaring.Clone bitmap (heap ts) in (set_heap h ts, (r, None))
  end.

(** [for _, tag := range tags[1:]]: intersects [result] with each tag in
    turn; [false] is the early exit taken when a tag does not exist. *)
Fixpoint QueryAnd_loop (result : nat) (rest : list string) (ts : TagSystem)
  : TagSystem * bool :=
  match rest with
  | [] => (ts, true)
  | tag :: rest =>
      match tags ts !! tag with
      | None => (ts, false)
      | Some bitmap =>
          QueryAnd_loop result rest
            (set_heap (roaring.And result bitmap (heap ts)) ts)
      end
  end.

Definition queryAndLocked (tagList : list string) (ts : TagSystem)
  : TagSystem * (nat * error) :=
  match tagList with
  | [] =>
      let '(r, h) := roaring.NewBitmap (heap ts) in (set_heap h ts, (r, None))
  | first :: rest =>
      match tags ts !! first with
      | None =>
          let '(r, h) := roaring.NewBitmap (heap ts) in
          (set_heap h ts, (r, None))
      | Some firstBitmap =>
          let '(result, h) := roaring.Clone firstBitmap (heap ts) in
          let ts := set_heap h ts in
          match QueryAnd_loop result rest ts with
          | (ts, false) =>
              let '(r, h) := roaring.NewBitmap (heap ts) in
              (set_heap h ts, (r, None))
          | (ts, true) => (ts, (result, None))
          end
      end
  end.

(** [QueryAnd] has the body of [queryAndLocked] and takes the read lock
    itself. *)
Definition QueryAnd (tagList : list string) (ts : TagSystem)
  : TagSystem * (nat * error) :=
  match tagList with
  | [] =>
      let '(r, h) := roaring.NewBitmap (heap ts) in (set_heap h ts, (r, None))
  | first :: rest =>
      match tags ts !! first with
      | None =>
          let '(r, h) := roaring.NewBitmap (heap ts) in
          (set_heap h ts, (r, None))
      | Some firstBitmap =>
          let '(result, h) := roaring.Clone firstBitmap (heap ts) in
          let ts := set_heap h ts in
          match QueryAnd_loop result rest ts with
          | (ts, false) =>
              let '(r, h) := roaring.NewBitmap (heap ts) in
              (set_heap h ts, (r, None))
          | (ts, true) => (ts, (result, None))
          end
      end
  end.

Fixpoint QueryOr_loop (result : nat) (tagList : list string) (ts : TagSystem)
  : TagSystem :=
  match tagList with
  | [] => ts
  | tag :: tagList =>
      match tags ts !! tag with
      | Some bitmap =>
          QueryOr_loop result tagList
            (set_heap (roaring.Or result bitmap (heap ts)) ts)
      | None => QueryOr_loop result tagList ts
      end
  end.

Definition queryOrLocked (tagList : list string) (ts : TagSystem)
  : TagSystem * (nat * error) :=
  let '(result, h) := roaring.NewBitmap (heap ts) in
  let ts := set_heap h ts in
  (QueryOr_loop result tagList ts, (result, None)).

Definition QueryOr (tagList : list string) (ts : TagSystem)
  : TagSystem * (nat * error) :=
  let '(result, h) := roaring.NewBitmap (heap ts) in
  let ts := set_heap h ts in
  (QueryOr_loop result tagList ts, (result, None)).

(** The universe of [QueryNot] is a bitmap of the caller, which the
    method only clones: it is passed as the set it holds, and the clone
    is allocated in the store. *)
Definition QueryNot (tag : string) (allObjects : gset N) (ts : TagSystem)
  : TagSystem * (nat * error) :=
  match tags ts !! tag with
  | None =>
      let '(r, h) := roaring.CloneOf allObjects (heap ts) in
      (set_heap h ts, (r, None))
  | Some bitmap =>
      let '(result, h) := roaring.CloneOf allObjects (heap ts) in
      let ts := set_heap h ts in
      (set_heap (roaring.AndNot result bitmap (heap ts)) ts, (result, None))
  end.

Definition QueryNotInSystem (tag : string) (ts : TagSystem)
  : TagSystem * (nat * error) :=
  let '(allObjectsClone, h) := roaring.Clone (allObjects ts) (heap ts) in
  QueryNot tag (roaring.deref h allObjectsClone) (set_heap h ts).

Definition queryNotLocked (tag : string) (ts : TagSystem) : TagSystem * nat :=
  match tags ts !! tag with
  | None =>
      let '(r, h) := roaring.Clone (allObjects ts) (heap ts) in
      (set_heap h ts, r)
  | Some bitmap =>
      let '(result, h) := roaring.Clone (allObjects ts) (heap ts) in
      let ts := set_heap h ts in
      (set_heap (roaring.AndNot result bitmap (heap ts)) ts, result)
  end.

(** The [switch op.Type] of [ComplexQuery]: [inl (partial, err)] when
    control reaches the statement after the switch, [inr msg] when the
    switch itself returns [nil, fmt.Errorf(msg)]. *)
Definition ComplexQuery_switch (op : QueryOp) (ts : TagSystem)
  : TagSystem * (nat * error + string) :=
  if decide (Type_ op = "AND") then
    let '(ts, r) := queryAndLocked (Tags op) ts in (ts, inl r)
  else if decide (Type_ op = "OR") then
    let '(ts, r) := queryOrLocked (Tags op) ts in (ts, inl r)
  else if decide (Type_ op = "NOT") then
    match Tags op with
    | [tag] => let '(ts, partial) := queryNotLocked tag ts in
               (ts, inl (partial, None))
    | _ => (ts, inr "NOT operation requires exactly one tag")
    end
  else (ts, inr ("unknown operation: " +:+ Type_ op)).

(** The iterations with [i > 0]: [result] was set by the first one. *)
Fixpoint ComplexQuery_loop (result : nat) (ops : list QueryOp) (ts : TagSystem)
  : TagSystem * (option nat * error) :=
  match ops with
  | [] => (ts, (Some result, None))
  | op :: ops =>
      match ComplexQuery_switch op ts with
      | (ts, inr msg) => (ts, (None, Some msg))
      | (ts, inl (_, Some err)) => (ts, (None, Some err))
      | (ts, inl (partial, None)) =>
          ComplexQuery_loop result ops
            (set_heap (roaring.And result partial (heap ts)) ts)
      end
  end.

(** The loop of [ComplexQuery] with its first iteration ([i == 0], where
    [result = partial]) written out. *)
Definition ComplexQuery (ops : list QueryOp) (ts : TagSystem)
  : TagSystem * (option nat * error) :=
  match ops with
  | [] =>
      let '(r, h) := roaring.NewBitmap (heap ts) in
      (set_heap h ts, (Some r, None))
  | op :: ops =>
      match ComplexQuery_switch op ts with
      | (ts, inr msg) => (ts, (None, Some msg))
      | (ts, inl (_, Some err)) => (ts, (None, Some err))
      | (ts, inl (partial, None)) => ComplexQuery_loop partial ops ts
      end
  end.

Definition QueryDifference (tag1 tag2 : string) (ts : TagSystem)
  : TagSystem * (nat * error) :=
  match tags ts !! tag1 with
  | None =>
      let '(r, h) := roaring.NewBitmap (heap ts) in (set_heap h ts, (r, None))
  | Some bitmap1 =>
      match tags ts !! tag2 with
      | None =>
          let '(r, h) := roaring.Clone bitmap1 (heap ts) in
          (set_heap h ts, (r, None))
      | Some bitmap2 =>
          let '(result, h) := roaring.Clone bitmap1 (heap ts) in
          let ts := set_heap h ts in
          (set_heap (roaring.AndNot result bitmap2 (heap ts)) ts,
           (result, None))
      end
  end.

Definition QueryXor (tag1 tag2 : string) (ts : TagSystem)
  : TagSystem * (nat * error) :=
  match tags ts !! tag1, tags ts !! tag2 with
  | None, None =>
      let '(r, h) := roaring.NewBitmap (heap ts) in (set_heap h ts, (r, None))
  | None, Some bitmap2 =>
      let '(r, h) := roaring.Clone bitmap2 (heap ts) in
      (set_heap h ts, (r, None))
  | Some bitmap1, None =>
      let '(r, h) := roaring.Clone bitmap1 (heap ts) in
      (set_heap h ts, (r, None))
  | Some bitmap1, Some bitmap2 =>
      let '(result, h) := roaring.Clone bitmap1 (heap ts) in
      let ts := set_heap h ts in
      (set_heap (roaring.Xor result bitmap2 (heap ts)) ts, (result, None))
  end.

(** *** Durability (tagbox.go, redis.go) *)

(** What the Redis client answers to one [Get(key).Bytes()]. *)
Inductive reply `{Serialization} :=
  | redis_Nil
  | redis_Err (msg : string)
  | redis_Bytes (data : bytes).

(** The external store as the package meets it: the keys (and the final
    [iter.Err()]) that a [Scan] with a pattern iterates over, and the
    answer to a [Get].  Nothing is assumed about either. *)
Record Redis `{Serialization} := mkRedis {
  Scan : string → list string * error;
  Get : string → reply
}.

(** [key[n:]]; [None] when [n > len(key)], where Go panics with
    "slice bounds out of range". *)
Fixpoint string_from (n : nat) (key : string) : option string :=
  match n, key with
  | 0, _ => Some key
  | S n, String _ key => string_from n key
  | S _, EmptyString => None
  end.

(** [for k, v := range m] visits every entry of a Go map once, in an
    order the language leaves open.  The operations that range over a
    map take the order as their first argument. *)
Definition go_range (range : ∀ V : Type, gmap string V → list (string * V))
  : Prop :=
  ∀ (V : Type) (m : gmap string V), range V m ≡ₚ map_to_list m.

(** The file system is a map from path to content.  [os.WriteFile] is
    an argument of the one method that calls it: it gives the file
    system after the call and the error of the call.  All that is known
    of it is that a call that returns no error has written the data. *)
Definition go_WriteFile `{Serialization}
    (WriteFile : string → file → gmap string file → gmap string file * error)
  : Prop :=
  ∀ name data os,
    (WriteFile name data os).2 = None →
    (WriteFile name data os).1 !! name = Some data.

Section durability.
Context `{Serialization}.
Variable range : ∀ V : Type, gmap string V → list (string * V).
Variable WriteFile :
  string → file → gmap string file → gmap string file * error.

Definition GetAllTags (ts : TagSystem) : list string :=
  (range _ (tags ts)).*1.

(** [bitmap.WriteTo(&buf); buf.Bytes()] *)
Definition roaring_WriteTo (b : nat) (h : list (gset N)) : bytes :=
  WriteTo (roaring.deref h b).

(** [bitmap.ReadFrom(bytes.NewReader(buf))] *)
Definition roaring_ReadFrom (b : nat) (buf : bytes) (h : list (gset N))
  : list (gset N) * error :=
  match ReadFrom buf with
  | Some s => (<[b := s]> h, None)
  | None => (h, Some "roaring: invalid serialized bitmap")
  end.

Fixpoint SaveSnapshot_loop (entries : list (string * nat))
    (data : gmap string bytes) (ts : TagSystem) : gmap string bytes :=
  match entries with
  | [] => data
  | (tag, bitmap) :: entries =>
      SaveSnapshot_loop entries
        (<[tag := roaring_WriteTo bitmap (heap ts)]> data) ts
  end.

Definition SaveSnapshot (filePath : string) (os : gmap string file)
    (ts : TagSystem) : gmap string file * error :=
  let data := SaveSnapshot_loop (range _ (tags ts)) ∅ ts in
  let jsonData := json_Marshal data in
  WriteFile filePath jsonData os.

(** [bitmap := roaring.NewBitmap(); bitmap.ReadFrom(buf);
    ts.tags[tag] = bitmap; ts.allObjects.Or(bitmap)], the body shared by
    [LoadSnapshot], [RecoverFromRedis] and [LoadTagFromRedis];
    on a read error the tag map and [allObjects] are left as they are. *)
Definition loadBitmap (tag : string) (buf : bytes) (ts : TagSystem)
  : TagSystem * error :=
  let '(bitmap, h) := roaring.NewBitmap (heap ts) in
  let ts := set_heap h ts in
  match roaring_ReadFrom bitmap buf (heap ts) with
  | (h, Some err) => (set_heap h ts, Some err)
  | (h, None) =>
      let ts := set_heap h ts in
      let ts := set_tags (<[tag := bitmap]> (tags ts)) ts in
      let ts :=
        set_heap (roaring.Or (allObjects ts) bitmap (heap ts)) ts in
      (ts, None)
  end.

Fixpoint LoadSnapshot_loop (entries : list (string * bytes))
    (ts : TagSystem) : TagSystem * error :=
  match entries with
  | [] => (ts, None)
  | (tag, buf) :: entries =>
      match loadBitmap tag buf ts with
      | (ts, Some err) =>
          (ts, Some ("load tag " +:+ tag +:+ " failed: " +:+ err))
      | (ts, None) => LoadSnapshot_loop entries ts
      end
  end.

Definition LoadSnapshot (filePath : string) (os : gmap string file)
    (ts : TagSystem) : TagSystem * error :=
  match os !! filePath with
  | None => (ts, Some "open: no such file or directory")
  | Some jsonData =>
      match json_Unmarshal jsonData with
      | None => (ts, Some "json: cannot unmarshal")
      | Some data => LoadSnapshot_loop (range _ data) ts
      end
  end.

(** The second loop of [RecoverFromRedis].  Each round starts with the
    slice [key[len(KeyPrefix):]]; on a key shorter than the prefix the
    method panics there, with the tags of the keys before it loaded.
    The result is the state, the errors collected, and the panic if
    there was one. *)
Fixpoint RecoverFromRedis_loop (rdb : Redis) (keys : list string)
    (errs : list string) (ts : TagSystem)
  : TagSystem * (list string * option string) :=
  match keys with
  | [] => (ts, (errs, None))
  | key :: keys =>
      match string_from (String.length (KeyPrefix (config ts))) key with
      | None => (ts, (errs, Some "runtime error: slice bounds out of range"))
      | Some tag =>
          match Get rdb key with
          | redis_Nil => RecoverFromRedis_loop rdb keys errs ts
          | redis_Err msg =>
              RecoverFromRedis_loop rdb keys
                (errs ++ ["tag " +:+ tag +:+ ": " +:+ msg]) ts
          | redis_Bytes data =>
              match loadBitmap tag data ts with
              | (ts, Some err) =>
                  RecoverFromRedis_loop rdb keys
                    (errs ++ ["tag " +:+ tag +:+ ": " +:+ err]) ts
              | (ts, None) => RecoverFromRedis_loop rdb keys errs ts
              end
          end
      end
  end.

Definition RecoverFromRedis (rdb : Redis) (ts : TagSystem)
  : TagSystem * completion :=
  let '(scanned, iterErr) := Scan rdb (KeyPrefix (config ts) +:+ "*") in
  let keys :=
    filter (λ key, key ≠ KeyPrefix (config ts) +:+ "_meta") scanned in
  match iterErr with
  | Some err => (ts, returned (Some ("redis scan failed: " +:+ err)))
  | None =>
      match RecoverFromRedis_loop rdb keys [] ts with
      | (ts, (errs, Some msg)) => (ts, panicked msg)
      | (ts, (errs, None)) =>
          if bool_decide (0 < length errs)
          then (ts, returned (Some "recover completed with errors"))
          else (ts, returned None)
      end
  end.

Definition LoadTagFromRedis (tag : string) (rdb : Redis) (ts : TagSystem)
  : TagSystem * error :=
  let key := KeyPrefix (config ts) +:+ tag in
  match Get rdb key with
  | redis_Nil => (ts, Some ("tag not found: " +:+ tag))
  | redis_Err msg => (ts, Some msg)
  | redis_Bytes data =>
      match loadBitmap tag data ts with
      | (ts, Some err) => (ts, Some ("deserialization failed: " +:+ err))
      | (ts, None) => (ts, None)
      end
  end.

(** *** The public surface

    Every exported method that can change the state of the model: the
    mutators and loaders change the index, the queries allocate their
    result.  ([HasTag], [GetTagCount], [GetAllTags], [SaveSnapshot] and
    [SaveToRedis] only read.)  A [RecoverFromRedis] that panics leaves
    the state it had reached, which is what a caller that recovers from
    the panic goes on with. *)
Inductive call :=
  | call_AddTag (objectID : N) (tag : string)
  | call_RemoveTag (objectID : N) (tag : string)
  | call_BatchAddTags (objectID : N) (tagList : list string)
  | call_BatchAddObjectsToTag (objectIDs : list N) (tag : string)
  | call_Query (tag : string)
  | call_QueryAnd (tagList : list string)
  | call_QueryOr (tagList : list string)
  | call_QueryNot (tag : string) (allObjects : gset N)
  | call_QueryNotInSystem (tag : string)
  | call_ComplexQuery (ops : list QueryOp)
  | call_QueryDifference (tag1 tag2 : string)
  | call_QueryXor (tag1 tag2 : string)
  | call_LoadSnapshot (filePath : string) (os : gmap string file)
  | call_RecoverFromRedis (rdb : Redis)
  | call_LoadTagFromRedis (tag : string) (rdb : Redis).

Definition exec (c : call) (ts : TagSystem) : TagSystem :=
  match c with
  | call_AddTag objectID tag => (AddTag objectID tag ts).1
  | call_RemoveTag objectID tag => (RemoveTag objectID tag ts).1
  | call_BatchAddTags objectID tagList => (BatchAddTags objectID tagList ts).1
  | call_BatchAddObjectsToTag objectIDs tag =>
      (BatchAddObjectsToTag objectIDs tag ts).1
  | call_Query tag => (Query tag ts).1
  | call_QueryAnd tagList => (QueryAnd tagList ts).1
  | call_QueryOr tagList => (QueryOr tagList ts).1
  | call_QueryNot tag all => (QueryNot tag all ts).1
  | call_QueryNotInSystem tag => (QueryNotInSystem tag ts).1
  | call_ComplexQuery ops => (ComplexQuery ops ts).1
  | call_QueryDifference tag1 tag2 => (QueryDifference tag1 tag2 ts).1
  | call_QueryXor tag1 tag2 => (QueryXor tag1 tag2 ts).1
  | call_LoadSnapshot filePath os => (LoadSnapshot filePath os ts).1
  | call_RecoverFromRedis rdb => (RecoverFromRedis rdb ts).1
  | call_LoadTagFromRedis tag rdb => (LoadTagFromRedis tag rdb ts).1
  end.

End durability.

(** A state is reachable when a sequence of public calls leads to it
    from [New]; each call may range over maps in an order of its own. *)
Inductive reachable `{Serialization} : TagSystem → Prop :=
  | reachable_New cfg : reachable (New cfg)
  | reachable_exec range c ts :
      go_range range → reachable ts → reachable (exec range c ts).

(** ** What the index holds *)

(** The observable index: each tag with the set its bitmap holds. *)
Definition index (ts : TagSystem) : gmap string (gset N) :=
  roaring.deref (heap ts) <$> tags ts.

(** The set held by [allObjects]. *)
Definition universe (ts : TagSystem) : gset N :=
  roaring.deref (heap ts) (allObjects ts).

(** The set a tag holds, empty when the tag does not exist. *)
Definition tagSet (ts : TagSystem) (tag : string) : gset N :=
  default ∅ (index ts !! tag).

(** Pointers are valid and no bitmap is shared: every tag and
    [allObjects] point into the store, two tags never share a bitmap,
    and no tag shares the bitmap of [allObjects]. *)
Record wf (ts : TagSystem) : Prop := mkWf {
  wf_tags : ∀ tag p, tags ts !! tag = Some p → p < length (heap ts);
  wf_allObjects : allObjects ts < length (heap ts);
  wf_inj : ∀ tag1 tag2 p,
    tags ts !! tag1 = Some p → tags ts !! tag2 = Some p → tag1 = tag2;
  wf_sep : ∀ tag, tags ts !! tag ≠ Some (allObjects ts)
}.

(** [ts'] is [ts] with more bitmaps allocated: same tag map, same
    [allObjects], and every bitmap of [ts] still holds what it held. *)
Record extends (ts ts' : TagSystem) : Prop := mkExtends {
  ext_tags : tags ts' = tags ts;
  ext_allObjects : allObjects ts' = allObjects ts;
  ext_config : config ts' = config ts;
  ext_heap : heap ts `prefix_of` heap ts'
}.

(** ** Vocabulary of the statements *)

(** The set held by the bitmap a query returned. *)
Definition resultSet (r : TagSystem * (nat * error)) : gset N :=
  roaring.deref (heap r.1) r.2.1.

(** The union of every tag's bitmap. *)
Definition unionOfTags (idx : gmap string (gset N)) : gset N :=
  ⋃ (map_to_list idx).*2.

(** Every tag's set lies within the universe. *)
Definition sound (ts : TagSystem) : Prop :=
  map_Forall (λ _ s, s ⊆ universe ts) (index ts).

(** No tag of the index holds the empty set. *)
Definition noEmptyTag (ts : TagSystem) : Prop :=
  map_Forall (λ _ s, s ≠ ∅) (index ts).

(** Intersection of a list of sets taken from the first one on; the
    empty list gives the empty set. *)
Definition intersectAll (sets : list (gset N)) : gset N :=
  match sets with
  | [] => ∅
  | s :: sets => foldl (∩) s sets
  end.

(** [r] is the outcome of a query on [ts] that returns, without error, a
    bitmap allocated by the query and holding [s], and that leaves every
    bitmap of [ts] as it was. *)
Definition returns (ts : TagSystem) (r : TagSystem * (nat * error))
    (s : gset N) : Prop :=
  extends ts r.1 ∧ r.2.2 = None ∧
  length (heap ts) ≤ r.2.1 < length (heap r.1) ∧
  roaring.deref (heap r.1) r.2.1 = s.

(** [BatchAddTags] seen on the index: the object is added to each
    listed tag in turn. *)
Definition addToTags (objectID : N) (idx : gmap string (gset N))
    (tagList : list string) : gmap string (gset N) :=
  foldl (λ idx tag, <[tag := {[objectID]} ∪ default ∅ (idx !! tag)]> idx)
    idx tagList.

(** An op that [ComplexQuery] evaluates: AND, OR, or NOT with exactly
    one tag. *)
Definition validOp (op : QueryOp) : Prop :=
  Type_ op = "AND" ∨ Type_ op = "OR" ∨
  (Type_ op = "NOT" ∧ length (Tags op) = 1).

(** An op that [ComplexQuery] rejects: NOT with other than one tag, or a
    type that is none of AND, OR, NOT. *)
Definition invalidOp (op : QueryOp) : Prop :=
  (Type_ op = "NOT" ∧ length (Tags op) ≠ 1) ∨
  (Type_ op ≠ "AND" ∧ Type_ op ≠ "OR" ∧ Type_ op ≠ "NOT").

(** The partial result of one op: its own tags combined by its type. *)
Definition partialOf (ts : TagSystem) (op : QueryOp) : gset N :=
  if decide (Type_ op = "AND") then intersectAll (tagSet ts <$> Tags op)
  else if decide (Type_ op = "OR") then ⋃ (tagSet ts <$> Tags op)
  else match Tags op with
       | [tag] => universe ts ∖ tagSet ts tag
       | _ => ∅
       end.

(** ** A reference serialization and sample states

    Used to run the model on concrete inputs.  A serialized bitmap is
    the set it encodes, or [None] for bytes that do not decode; a file
    is the map its JSON text encodes (so its keys are valid UTF-8), or
    [None] for a file that is not JSON. *)
#[global] Instance reference : Serialization := {|
  bytes := option (gset N);
  WriteTo := Some;
  ReadFrom := id;
  ReadFrom_WriteTo := λ _, eq_refl;
  file := option (gmap string (option (gset N)));
  json_Marshal := λ data, Some (json_keys data);
  json_Unmarshal := id;
  json_Unmarshal_Marshal := λ _ _, eq_refl
|}.

(** A file system on which every write succeeds, and one on which none
    does. *)
Definition writable `{Serialization} (name : string) (data : file)
    (os : gmap string file) : gmap string file * error :=
  (<[name := data]> os, None).

Definition readOnly `{Serialization} (name : string) (data : file)
    (os : gmap string file) : gmap string file * error :=
  (os, Some "open: permission denied").

(** The tag whose name is the one byte 0xFF, which is not valid UTF-8. *)
Definition tag_0xFF : string := String (Ascii.ascii_of_N 0xFF) EmptyString.

(** Ranging over a map in the order in which [map_to_list] lists it. *)
Definition mapOrder : ∀ V : Type, gmap string V → list (string * V) :=
  λ V, map_to_list.

(** Object 1 is {vip, male}, object 2 is {female, active}. *)
Definition sample : TagSystem :=
  foldl (λ ts c, exec mapOrder c ts) (New DefaultConfig)
    [call_AddTag 1 "vip"; call_AddTag 1 "male";
     call_AddTag 2 "female"; call_AddTag 2 "active"].

(** A system in which object 1 has the tag whose name is the byte
    0xFF. *)
Definition binary_sample : TagSystem :=
  foldl (λ ts c, exec mapOrder c ts) (New DefaultConfig)
    [call_AddTag 1 tag_0xFF].

(** The complex query of the specification's scenario. *)
Definition scenario : list QueryOp :=
  [ {| Type_ := "AND"; Tags := ["vip"; "male"] |};
    {| Type_ := "AND"; Tags := ["female"; "active"] |} ].

(** A list of ops whose second op is a NOT with two tags. *)
Definition malformed : list QueryOp :=
  [ {| Type_ := "AND"; Tags := ["vip"] |};
    {| Type_ := "NOT"; Tags := ["vip"; "male"] |} ].

(** An index where "vip" holds {1} and "male" holds {3}, and a file
    where "vip" holds {2}. *)
Definition before : TagSystem :=
  foldl (λ ts c, exec mapOrder c ts) (New DefaultConfig)
    [call_AddTag 1 "vip"; call_AddTag 3 "male"].

Definition snapshot : gmap string (gset N) := {[ "vip" := {[2%N]} ]}.

Definition disk : gmap string file :=
  {[ "snapshot.json" := json_Marshal (WriteTo <$> snapshot) ]}.

(** ** The rest of the package: tags of an object, statistics, and the
    replication to Redis *)

(** [Stats] of config.go; [TotalTags] is a Go [int], the other counters
    are [uint64]. *)
Record Stats := mkStats {
  TotalTags : Z;
  TotalObjects : N;
  UniqueObjects : N;
  MemoryUsage : N;
  LargestTag : string;
  LargestTagSize : N
}.

(** [a += b] on [uint64]. *)
Definition uint64_add (a b : N) : N := ((a + b) mod 2 ^ 64)%N.

Section reads.
Variable range : ∀ V : Type, gmap string V → list (string * V).

(** [for tag, bitmap := range ts.tags { if bitmap.Contains(objectID) {
    tags = append(tags, tag) } }] *)
Fixpoint GetObjectTags_loop (objectID : N) (entries : list (string * nat))
    (acc : list string) (ts : TagSystem) : list string :=
  match entries with
  | [] => acc
  | (tag, bitmap) :: entries =>
      if roaring.Contains bitmap objectID (heap ts)
      then GetObjectTags_loop objectID entries (acc ++ [tag]) ts
      else GetObjectTags_loop objectID entries acc ts
  end.

Definition GetObjectTags (objectID : N) (ts : TagSystem)
  : list string * error :=
  (GetObjectTags_loop objectID (range _ (tags ts)) [] ts, None).

(** [bitmap.GetSizeInBytes()] depends on the layout the library chose
    for the bitmap; it is taken as some number for each bitmap. *)
Variable GetSizeInBytes : nat → N.

(** The loop of [GetStats], with the local [maxCardinality]. *)
Fixpoint GetStats_loop (entries : list (string * nat)) (stats : Stats)
    (maxCardinality : N) (ts : TagSystem) : Stats :=
  match entries with
  | [] => stats
  | (tag, bitmap) :: entries =>
      let cardinality := roaring.GetCardinality bitmap (heap ts) in
      let stats :=
        {| TotalTags := TotalTags stats;
           TotalObjects := uint64_add (TotalObjects stats) cardinality;
           UniqueObjects := UniqueObjects stats;
           MemoryUsage :=
             uint64_add (MemoryUsage stats) (GetSizeInBytes bitmap);
           LargestTag := LargestTag stats;
           LargestTagSize := LargestTagSize stats |} in
      if (maxCardinality <? cardinality)%N
      then
        GetStats_loop entries
          {| TotalTags := TotalTags stats;
             TotalObjects := TotalObjects stats;
             UniqueObjects := UniqueObjects stats;
             MemoryUsage := MemoryUsage stats;
             LargestTag := tag;
             LargestTagSize := cardinality |} cardinality ts
      else GetStats_loop entries stats maxCardinality ts
  end.

Definition GetStats (ts : TagSystem) : Stats :=
  let stats :=
    {| TotalTags := Z.of_nat (size (tags ts));
       TotalObjects := 0;
       UniqueObjects := roaring.GetCardinality (allObjects ts) (heap ts);
       MemoryUsage := 0;
       LargestTag := "";
       LargestTagSize := 0 |} in
  GetStats_loop (range _ (tags ts)) stats 0%N ts.

End reads.

Section replication.
Context `{Serialization}.
Variable range : ∀ V : Type, gmap string V → list (string * V).

(** The writes to Redis.  The server holds [store]; [setErr key] is the
    error with which the call [Set(ctx, key, value, 0)] fails, if it
    does, and a call that fails is taken to write nothing. *)
Variable setErr : string → error.

Definition redis_Set (key : string) (value : bytes)
    (store : gmap string bytes) : gmap string bytes * error :=
  match setErr key with
  | Some err => (store, Some err)
  | None => (<[key := value]> store, None)
  end.

Definition saveTagToRedis (tag : string) (bitmap : nat)
    (store : gmap string bytes) (ts : TagSystem)
  : gmap string bytes * error :=
  let buf := roaring_WriteTo bitmap (heap ts) in
  let key := KeyPrefix (config ts) +:+ tag in
  redis_Set key buf store.

Fixpoint SaveToRedis_loop (entries : list (string * nat))
    (errs : list string) (store : gmap string bytes) (ts : TagSystem)
  : gmap string bytes * list string :=
  match entries with
  | [] => (store, errs)
  | (tag, bitmap) :: entries =>
      match saveTagToRedis tag bitmap store ts with
      | (store, Some err) =>
          SaveToRedis_loop entries (errs ++ ["tag " +:+ tag +:+ ": " +:+ err])
            store ts
      | (store, None) => SaveToRedis_loop entries errs store ts
      end
  end.

Definition SaveToRedis (store : gmap string bytes) (ts : TagSystem)
  : gmap string bytes * error :=
  let '(store, errs) := SaveToRedis_loop (range _ (tags ts)) [] store ts in
  if bool_decide (0 < length errs)
  then (store, Some "save completed with errors")
  else (store, None).

Definition SaveTagToRedis (tag : string) (store : gmap string bytes)
    (ts : TagSystem) : gmap string bytes * error :=
  match tags ts !! tag with
  | None => (store, Some ("tag not found: " +:+ tag))
  | Some bitmap => saveTagToRedis tag bitmap store ts
  end.

(** The client [rdb] reads from a server that holds [store] over a
    connection that does not fail: a scan for [prefix*] iterates over
    the keys of [store] that start with [prefix] (in any order, possibly
    more than once), and [Get] answers with the stored value or
    [redis.Nil].  This is what Redis does for a prefix without glob
    characters, such as the default "tags:". *)
Definition answers (store : gmap string bytes) (prefix : string)
    (rdb : Redis) : Prop :=
  (∃ keys,
     Scan rdb (prefix +:+ "*") = (keys, None) ∧
     ∀ key, key ∈ keys ↔
       is_Some (store !! key) ∧ ∃ suffix, key = prefix +:+ suffix) ∧
  ∀ key,
    Get rdb key = match store !! key with
                  | Some value => redis_Bytes value
                  | None => redis_Nil
                  end.

(** A client that reads [store] in this way. *)
Definition serve (prefix : string) (store : gmap string bytes) : Redis :=
  {| Scan := λ _,
       (filter (λ key, String.prefix prefix key = true)
          (range _ store).*1, None);
     Get := λ key,
       match store !! key with
       | Some value => redis_Bytes value
       | None => redis_Nil
       end |}.

End replication.

(** What one key of a recovery gives. *)
Definition recovered `{Serialization} (rdb : Redis) (key : string)
  : option (gset N) :=
  match Get rdb key with
  | redis_Bytes data => ReadFrom data
  | _ => None
  end.



(** The calls that only query. *)
Definition is_query `{Serialization} (c : call) : Prop :=
  match c with
  | call_Query _ | call_QueryAnd _ | call_QueryOr _ | call_QueryNot _ _
  | call_QueryNotInSystem _ | call_ComplexQuery _ | call_QueryDifference _ _
  | call_QueryXor _ _ => True
  | _ => False
  end.

(** [ts'] has every tag of [ts] and a universe at least as large. *)
Definition keeps (ts ts' : TagSystem) : Prop :=
  universe ts ⊆ universe ts' ∧
  ∀ tag, is_Some (index ts !! tag) → is_Some (index ts' !! tag).

(** A file in which the bitmap of "bad" does not read back. *)
Definition corrupt_disk : gmap string file :=
  {[ "snapshot.json" :=
       json_Marshal ({[ "male" := WriteTo {[7%N]}; "bad" := None ]}) ]}.

(** A key prefix with a glob character, and a server on which the scan
    for "a*b*" finds the key "ab" after the key "a*b:vip". *)
Definition glob_config : Config := {| KeyPrefix := "a*b:" |}.

Definition glob_server : Redis :=
  {| Scan := λ _, (["a*b:vip"; "ab"], None);
     Get := λ key,
       if decide (key = "a*b:vip") then redis_Bytes (WriteTo {[5%N]})
       else redis_Nil |}.

(** The set held by the bitmap [ComplexQuery] returned; empty when it
    returned none. *)
Definition complexSet (r : TagSystem * (option nat * error)) : gset N :=
  match r.2.1 with
  | Some result => roaring.deref (heap r.1) result
  | None => ∅
  end.

(** ** The store *)

Section store.
Implicit Types (h k : list (gset N)) (p q : nat) (s : gset N).

Lemma deref_insert_eq h p s : p < length h → roaring.deref (<[p := s]> h) p = s.
Proof. intros Hp. unfold roaring.deref. by rewrite list_lookup_insert_eq. Qed.

Lemma deref_insert_ne h p q s :
  p ≠ q → roaring.deref (<[p := s]> h) q = roaring.deref h q.
Proof. intros Hp. unfold roaring.deref. by rewrite list_lookup_insert_ne. Qed.

Lemma deref_app_l h k p : p < length h → roaring.deref (h ++ k) p = roaring.deref h p.
Proof. intros Hp. unfold roaring.deref. by rewrite lookup_app_l. Qed.

Lemma deref_app_new h s : roaring.deref (h ++ [s]) (length h) = s.
Proof.
  unfold roaring.deref. rewrite lookup_app_r by lia.
  by rewrite Nat.sub_diag.
Qed.

Lemma deref_prefix h k p :
  h `prefix_of` k → p < length h → roaring.deref k p = roaring.deref h p.
Proof. intros [k' ->] Hp. by apply deref_app_l. Qed.

Lemma prefix_insert_fresh h k p s :
  h `prefix_of` k → length h ≤ p → h `prefix_of` <[p := s]> k.
Proof.
  intros [k' ->] Hp. rewrite insert_app_r_alt by done. by eexists.
Qed.

Lemma prefix_alloc h k s : h `prefix_of` k → h `prefix_of` k ++ [s].
Proof. intros Hp. by apply prefix_app_r. Qed.

End store.

(** ** Reading the index through the store *)

Lemma index_lookup ts tag :
  index ts !! tag = roaring.deref (heap ts) <$> tags ts !! tag.
Proof. unfold index. by rewrite lookup_fmap. Qed.

Lemma index_lookup_Some ts tag p :
  tags ts !! tag = Some p → index ts !! tag = Some (roaring.deref (heap ts) p).
Proof. intros Hp. by rewrite index_lookup, Hp. Qed.

Lemma index_lookup_None ts tag :
  tags ts !! tag = None ↔ index ts !! tag = None.
Proof. rewrite index_lookup. by destruct (tags ts !! tag). Qed.

Lemma tagSet_Some ts tag p :
  tags ts !! tag = Some p → tagSet ts tag = roaring.deref (heap ts) p.
Proof. intros Hp. unfold tagSet. by rewrite (index_lookup_Some _ _ p). Qed.

Lemma tagSet_None ts tag : tags ts !! tag = None → tagSet ts tag = ∅.
Proof. intros Hp. unfold tagSet. by rewrite index_lookup, Hp. Qed.

Lemma extends_refl ts : extends ts ts.
Proof. by split. Qed.

Lemma extends_trans ts1 ts2 ts3 :
  extends ts1 ts2 → extends ts2 ts3 → extends ts1 ts3.
Proof.
  intros [] []. split; try congruence. by etrans.
Qed.

Lemma extends_length ts ts' :
  extends ts ts' → length (heap ts) ≤ length (heap ts').
Proof. intros []. by apply prefix_length. Qed.

Lemma extends_alloc ts0 ts s :
  extends ts0 ts → extends ts0 (set_heap (heap ts ++ [s]) ts).
Proof. intros []. split; simpl; try done. by apply prefix_alloc. Qed.

Lemma extends_write_fresh ts0 ts p s :
  extends ts0 ts → length (heap ts0) ≤ p →
  extends ts0 (set_heap (<[p := s]> (heap ts)) ts).
Proof. intros [] Hp. split; simpl; try done. by apply prefix_insert_fresh. Qed.

Lemma extends_deref ts ts' p :
  extends ts ts' → p < length (heap ts) →
  roaring.deref (heap ts') p = roaring.deref (heap ts) p.
Proof. intros [] Hp. by apply deref_prefix. Qed.

Lemma extends_wf ts ts' : wf ts → extends ts ts' → wf ts'.
Proof.
  intros [Ht Ha Hi Hs] Hext. pose proof (extends_length _ _ Hext) as Hlen.
  destruct Hext as [Et Ea _ _]. split.
  - intros tag p. rewrite Et. intros Hp%Ht. lia.
  - rewrite Ea. lia.
  - intros tag1 tag2 p. rewrite Et. apply Hi.
  - intros tag. rewrite Et, Ea. apply Hs.
Qed.

Lemma extends_index ts ts' : wf ts → extends ts ts' → index ts' = index ts.
Proof.
  intros Hwf Hext. apply map_eq. intros tag. rewrite !index_lookup.
  rewrite (ext_tags _ _ Hext). destruct (tags ts !! tag) as [p|] eqn:Hp; [|done].
  simpl. f_equal. apply extends_deref; [done|]. by eapply wf_tags.
Qed.

Lemma extends_universe ts ts' :
  wf ts → extends ts ts' → universe ts' = universe ts.
Proof.
  intros Hwf Hext. unfold universe. rewrite (ext_allObjects _ _ Hext).
  apply extends_deref; [done|]. by apply wf_allObjects.
Qed.

Lemma extends_tagSet ts ts' tag :
  wf ts → extends ts ts' → tagSet ts' tag = tagSet ts tag.
Proof. intros Hwf Hext. unfold tagSet. by rewrite (extends_index ts ts'). Qed.

(** Writing through the pointer of a tag changes that tag and nothing
    else. *)
Lemma write_tag ts tag p s :
  wf ts → tags ts !! tag = Some p →
  let ts' := set_heap (<[p := s]> (heap ts)) ts in
  wf ts' ∧ index ts' = <[tag := s]> (index ts) ∧ universe ts' = universe ts.
Proof.
  intros [Ht Ha Hi Hs] Hp ts'. split; [|split].
  - split; simpl; try done.
    + intros tag' p' Hp'%Ht. by rewrite length_insert.
    + by rewrite length_insert.
  - apply map_eq. intros tag'. rewrite index_lookup. simpl.
    destruct (decide (tag' = tag)) as [->|Hne].
    + rewrite Hp, lookup_insert_eq. simpl. f_equal.
      apply deref_insert_eq. by eapply Ht.
    + rewrite lookup_insert_ne, index_lookup by done.
      destruct (tags ts !! tag') as [p'|] eqn:Hp'; [|done]. simpl. f_equal.
      apply deref_insert_ne. intros ->. apply Hne. by eapply Hi.
  - unfold universe. simpl. apply deref_insert_ne.
    intros ->. by eapply Hs.
Qed.

(** Writing through [allObjects] changes the universe and no tag. *)
Lemma write_allObjects ts s :
  wf ts →
  let ts' := set_heap (<[allObjects ts := s]> (heap ts)) ts in
  wf ts' ∧ index ts' = index ts ∧ universe ts' = s.
Proof.
  intros [Ht Ha Hi Hs] ts'. split; [|split].
  - split; simpl; try done.
    + intros tag' p' Hp'%Ht. by rewrite length_insert.
    + by rewrite length_insert.
  - apply map_eq. intros tag. rewrite !index_lookup. simpl.
    destruct (tags ts !! tag) as [p|] eqn:Hp; [|done]. simpl. f_equal.
    apply deref_insert_ne. intros <-. by eapply Hs.
  - unfold universe. simpl. by apply deref_insert_eq.
Qed.

(** Pointing a tag at a freshly allocated bitmap. *)
Lemma bind_fresh ts tag s :
  wf ts →
  let ts' := set_tags (<[tag := length (heap ts)]> (tags ts))
               (set_heap (heap ts ++ [s]) ts) in
  wf ts' ∧ tags ts' !! tag = Some (length (heap ts)) ∧
  index ts' = <[tag := s]> (index ts) ∧ universe ts' = universe ts.
Proof.
  intros [Ht Ha Hi Hs] ts'. split; [|split; [|split]].
  - split; simpl.
    + intros tag' p. rewrite length_app. simpl.
      destruct (decide (tag = tag')) as [->|Hne].
      * rewrite lookup_insert_eq. intros [= <-]. lia.
      * rewrite lookup_insert_ne by done. intros Hp%Ht. lia.
    + rewrite length_app. simpl. lia.
    + intros tag1 tag2 p.
      destruct (decide (tag = tag1)) as [<-|Hne1];
        destruct (decide (tag = tag2)) as [<-|Hne2]; try done.
      * rewrite lookup_insert_eq, lookup_insert_ne by done.
        intros [= <-] Hp%Ht. lia.
      * rewrite lookup_insert_eq, lookup_insert_ne by done.
        intros Hp%Ht [= <-]. lia.
      * rewrite !lookup_insert_ne by done. apply Hi.
    + intros tag'. destruct (decide (tag = tag')) as [->|Hne].
      * rewrite lookup_insert_eq. intros [= Heq]. lia.
      * rewrite lookup_insert_ne by done. apply Hs.
  - simpl. by rewrite lookup_insert_eq.
  - apply map_eq. intros tag'. rewrite index_lookup. simpl.
    destruct (decide (tag = tag')) as [->|Hne].
    + rewrite !lookup_insert_eq. simpl. by rewrite deref_app_new.
    + rewrite !lookup_insert_ne, index_lookup by done.
      destruct (tags ts !! tag') as [p|] eqn:Hp; [|done]. simpl. f_equal.
      apply deref_app_l. by eapply Ht.
  - unfold universe. simpl. by apply deref_app_l.
Qed.

Lemma getOrCreate_spec tag ts :
  wf ts →
  wf (getOrCreate tag ts).2 ∧
  tags (getOrCreate tag ts).2 !! tag = Some (getOrCreate tag ts).1 ∧
  index (getOrCreate tag ts).2 = <[tag := tagSet ts tag]> (index ts) ∧
  universe (getOrCreate tag ts).2 = universe ts ∧
  config (getOrCreate tag ts).2 = config ts.
Proof.
  intros Hwf. unfold getOrCreate.
  destruct (tags ts !! tag) as [p|] eqn:Hp; simpl.
  - split; [done|]. split; [done|]. split; [|done]. symmetry.
    apply insert_id.
    rewrite (tagSet_Some _ _ p) by done. by apply index_lookup_Some.
  - rewrite (tagSet_None _ _ Hp).
    destruct (bind_fresh ts tag ∅ Hwf) as (?&?&?&?). by split_and!.
Qed.

(** Dropping a tag from the map. *)
Lemma unbind ts tag :
  wf ts →
  let ts' := set_tags (delete tag (tags ts)) ts in
  wf ts' ∧ index ts' = delete tag (index ts) ∧ universe ts' = universe ts.
Proof.
  intros [Ht Ha Hi Hs] ts'. split; [|split]; [|by apply fmap_delete|done].
  split; simpl; try done.
  - intros tag' p [_ Hp]%lookup_delete_Some. by eapply Ht.
  - intros tag1 tag2 p [_ H1]%lookup_delete_Some [_ H2]%lookup_delete_Some.
    by eapply Hi.
  - intros tag' [_ Hp]%lookup_delete_Some. by eapply Hs.
Qed.

(** The bitmap methods applied through the pointer of a tag or
    through [allObjects]. *)
Lemma Add_tag ts tag p x :
  wf ts → tags ts !! tag = Some p →
  let ts' := set_heap (roaring.Add p x (heap ts)) ts in
  wf ts' ∧ index ts' = <[tag := {[x]} ∪ tagSet ts tag]> (index ts) ∧
  universe ts' = universe ts.
Proof.
  intros Hwf Hp. rewrite (tagSet_Some ts tag p Hp). by apply write_tag.
Qed.

Lemma Remove_tag ts tag p x :
  wf ts → tags ts !! tag = Some p →
  let ts' := set_heap (roaring.Remove p x (heap ts)) ts in
  wf ts' ∧ index ts' = <[tag := tagSet ts tag ∖ {[x]}]> (index ts) ∧
  universe ts' = universe ts.
Proof.
  intros Hwf Hp. rewrite (tagSet_Some ts tag p Hp). by apply write_tag.
Qed.

Lemma Add_allObjects ts x :
  wf ts →
  let ts' := set_heap (roaring.Add (allObjects ts) x (heap ts)) ts in
  wf ts' ∧ index ts' = index ts ∧ universe ts' = {[x]} ∪ universe ts.
Proof. intros Hwf. by apply write_allObjects. Qed.

Lemma Or_allObjects ts q :
  wf ts →
  let ts' := set_heap (roaring.Or (allObjects ts) q (heap ts)) ts in
  wf ts' ∧ index ts' = index ts ∧
  universe ts' = universe ts ∪ roaring.deref (heap ts) q.
Proof. intros Hwf. by apply write_allObjects. Qed.

(** ** The mutators, seen through the index *)

Lemma AddTag_spec objectID tag ts :
  wf ts →
  wf (AddTag objectID tag ts).1 ∧
  index (AddTag objectID tag ts).1
    = <[tag := {[objectID]} ∪ tagSet ts tag]> (index ts) ∧
  universe (AddTag objectID tag ts).1 = {[objectID]} ∪ universe ts ∧
  config (AddTag objectID tag ts).1 = config ts.
Proof.
  intros Hwf. unfold AddTag.
  destruct (getOrCreate_spec tag ts Hwf) as (Hwf1 & Hp & Hidx & Huni & Hcfg).
  destruct (getOrCreate tag ts) as [bitmap ts1].
  cbn [fst snd] in Hwf1, Hp, Hidx, Huni, Hcfg |- *.
  destruct (Add_tag ts1 tag bitmap objectID Hwf1 Hp) as (Hwf2 & Hidx2 & Huni2).
  destruct (Add_allObjects _ objectID Hwf2) as (Hwf3 & Hidx3 & Huni3).
  split; [exact Hwf3|]. split; [|split; [|exact Hcfg]].
  - etrans; [exact Hidx3|]. etrans; [exact Hidx2|].
    rewrite Hidx, insert_insert_eq. do 2 f_equal.
    unfold tagSet. by rewrite Hidx, lookup_insert_eq.
  - etrans; [exact Huni3|]. f_equal. by etrans; [exact Huni2|].
Qed.

Lemma GetCardinality_zero b h :
  (roaring.GetCardinality b h =? 0)%N = bool_decide (roaring.deref h b = ∅).
Proof.
  unfold roaring.GetCardinality. symmetry.
  destruct (N.eqb_spec (N.of_nat (size (roaring.deref h b))) 0) as [Hz|Hz].
  - rewrite bool_decide_eq_true_2; [done|].
    apply leibniz_equiv, size_empty_inv. lia.
  - rewrite bool_decide_eq_false_2; [done|].
    intros Hs. apply Hz. by rewrite Hs, size_empty.
Qed.

Lemma RemoveTag_spec objectID tag ts :
  wf ts →
  wf (RemoveTag objectID tag ts).1 ∧
  index (RemoveTag objectID tag ts).1
    = match index ts !! tag with
      | None => index ts
      | Some b =>
          if bool_decide (b ∖ {[objectID]} = ∅) then delete tag (index ts)
          else <[tag := b ∖ {[objectID]}]> (index ts)
      end ∧
  universe (RemoveTag objectID tag ts).1 = universe ts ∧
  config (RemoveTag objectID tag ts).1 = config ts.
Proof.
  intros Hwf. unfold RemoveTag.
  destruct (tags ts !! tag) as [bitmap|] eqn:Hp.
  - rewrite (index_lookup_Some ts tag bitmap Hp).
    destruct (Remove_tag ts tag bitmap objectID Hwf Hp) as (Hwf1 & Hidx1 & Huni1).
    rewrite (tagSet_Some ts tag bitmap Hp) in Hidx1.
    cbv zeta. rewrite GetCardinality_zero.
    cbn [heap set_heap].
    assert (roaring.deref (roaring.Remove bitmap objectID (heap ts)) bitmap
            = roaring.deref (heap ts) bitmap ∖ {[objectID]}) as ->
      by (apply deref_insert_eq; by eapply wf_tags).
    case_bool_decide as Hempty; cbn [fst].
    + destruct (unbind _ tag Hwf1) as (Hwf2 & Hidx2 & Huni2).
      split; [exact Hwf2|]. split; [|split; [|done]].
      * etrans; [exact Hidx2|]. etrans; [by rewrite Hidx1|].
        by rewrite delete_insert_eq.
      * by etrans; [exact Huni2|].
    + split; [exact Hwf1|]. split; [exact Hidx1|]. split; [exact Huni1|done].
  - apply index_lookup_None in Hp as Hp'. rewrite Hp'. by cbn.
Qed.

Lemma BatchAddTags_loop_spec objectID tagList ts :
  wf ts →
  wf (BatchAddTags_loop objectID tagList ts) ∧
  index (BatchAddTags_loop objectID tagList ts)
    = addToTags objectID (index ts) tagList ∧
  universe (BatchAddTags_loop objectID tagList ts) = universe ts ∧
  config (BatchAddTags_loop objectID tagList ts) = config ts.
Proof.
  revert ts. induction tagList as [|tag tagList IH]; intros ts Hwf; [done|].
  cbn [BatchAddTags_loop].
  destruct (getOrCreate_spec tag ts Hwf) as (Hwf1 & Hp & Hidx & Huni & Hcfg).
  destruct (getOrCreate tag ts) as [bitmap ts1].
  cbn [fst snd] in Hwf1, Hp, Hidx, Huni, Hcfg |- *.
  destruct (Add_tag ts1 tag bitmap objectID Hwf1 Hp) as (Hwf2 & Hidx2 & Huni2).
  destruct (IH _ Hwf2) as (Hwf3 & Hidx3 & Huni3 & Hcfg3).
  split; [exact Hwf3|]. split; [|split].
  - etrans; [exact Hidx3|]. unfold addToTags at 2. cbn [foldl].
    fold (addToTags objectID). f_equal.
    etrans; [exact Hidx2|]. rewrite Hidx, insert_insert_eq. do 2 f_equal.
    unfold tagSet. by rewrite Hidx, lookup_insert_eq.
  - etrans; [exact Huni3|]. by etrans; [exact Huni2|].
  - by etrans; [exact Hcfg3|].
Qed.

Lemma BatchAddTags_spec objectID tagList ts :
  wf ts →
  wf (BatchAddTags objectID tagList ts).1 ∧
  index (BatchAddTags objectID tagList ts).1
    = addToTags objectID (index ts) tagList ∧
  universe (BatchAddTags objectID tagList ts).1 = {[objectID]} ∪ universe ts ∧
  config (BatchAddTags objectID tagList ts).1 = config ts.
Proof.
  intros Hwf. unfold BatchAddTags. cbn [fst].
  destruct (BatchAddTags_loop_spec objectID tagList ts Hwf)
    as (Hwf1 & Hidx1 & Huni1 & Hcfg1).
  destruct (Add_allObjects _ objectID Hwf1) as (Hwf2 & Hidx2 & Huni2).
  split; [exact Hwf2|]. split; [|split].
  - by etrans; [exact Hidx2|].
  - etrans; [exact Huni2|]. by f_equal.
  - exact Hcfg1.
Qed.

Lemma BatchAddObjectsToTag_loop_spec bitmap objectIDs tag ts idx all :
  wf ts → tags ts !! tag = Some bitmap →
  index ts = idx → universe ts = all →
  wf (BatchAddObjectsToTag_loop bitmap objectIDs ts) ∧
  index (BatchAddObjectsToTag_loop bitmap objectIDs ts)
    = <[tag := list_to_set objectIDs ∪ default ∅ (idx !! tag)]> idx ∧
  universe (BatchAddObjectsToTag_loop bitmap objectIDs ts)
    = list_to_set objectIDs ∪ all ∧
  config (BatchAddObjectsToTag_loop bitmap objectIDs ts) = config ts.
Proof.
  revert ts idx all.
  induction objectIDs as [|objectID objectIDs IH];
    intros ts idx all Hwf Hp Hidx Hall.
  - cbn [BatchAddObjectsToTag_loop list_to_set]. split; [done|].
    rewrite !union_empty_l_L. split; [|done]. subst idx.
    symmetry. apply insert_id.
    rewrite (index_lookup_Some ts tag bitmap Hp). done.
  - cbn [BatchAddObjectsToTag_loop].
    destruct (Add_tag ts tag bitmap objectID Hwf Hp) as (Hwf1 & Hidx1 & Huni1).
    destruct (Add_allObjects _ objectID Hwf1) as (Hwf2 & Hidx2 & Huni2).
    destruct (IH _ (<[tag := {[objectID]} ∪ default ∅ (idx !! tag)]> idx)
                ({[objectID]} ∪ all) Hwf2 Hp)
      as (Hwf3 & Hidx3 & Huni3 & Hcfg3).
    { etrans; [exact Hidx2|]. etrans; [exact Hidx1|].
      unfold tagSet. by rewrite Hidx. }
    { etrans; [exact Huni2|]. f_equal. by etrans; [exact Huni1|]. }
    split; [exact Hwf3|]. split; [|split; [|exact Hcfg3]].
    + etrans; [exact Hidx3|].
      rewrite lookup_insert_eq, insert_insert_eq. cbn [default list_to_set].
      f_equal. clear. set_solver.
    + etrans; [exact Huni3|]. cbn [list_to_set]. clear. set_solver.
Qed.

Lemma BatchAddObjectsToTag_spec objectIDs tag ts :
  wf ts →
  wf (BatchAddObjectsToTag objectIDs tag ts).1 ∧
  index (BatchAddObjectsToTag objectIDs tag ts).1
    = <[tag := list_to_set objectIDs ∪ tagSet ts tag]> (index ts) ∧
  universe (BatchAddObjectsToTag objectIDs tag ts).1
    = list_to_set objectIDs ∪ universe ts ∧
  config (BatchAddObjectsToTag objectIDs tag ts).1 = config ts.
Proof.
  intros Hwf. unfold BatchAddObjectsToTag.
  destruct (getOrCreate_spec tag ts Hwf) as (Hwf1 & Hp & Hidx & Huni & Hcfg).
  destruct (getOrCreate tag ts) as [bitmap ts1].
  cbn [fst snd] in Hwf1, Hp, Hidx, Huni, Hcfg |- *.
  destruct (BatchAddObjectsToTag_loop_spec bitmap objectIDs tag ts1 _ _
              Hwf1 Hp Hidx Huni) as (Hwf2 & Hidx2 & Huni2 & Hcfg2).
  split; [exact Hwf2|]. split; [|split].
  - by rewrite Hidx2, lookup_insert_eq, insert_insert_eq.
  - done.
  - by rewrite Hcfg2.
Qed.

(** ** Loading bitmaps *)

Section loading.
Context `{Serialization}.

Lemma loadBitmap_Some tag buf s ts :
  ReadFrom buf = Some s →
  loadBitmap tag buf ts =
    (let ts1 := set_tags (<[tag := length (heap ts)]> (tags ts))
                  (set_heap (heap ts ++ [s]) ts) in
     set_heap (roaring.Or (allObjects ts1) (length (heap ts)) (heap ts1)) ts1,
     None).
Proof.
  intros Hs. unfold loadBitmap, roaring_ReadFrom, roaring.NewBitmap.
  cbn [heap set_heap]. rewrite Hs.
  replace (<[length (heap ts) := s]> (heap ts ++ [∅])) with (heap ts ++ [s]);
    [done|].
  rewrite insert_app_r_alt by done. by rewrite Nat.sub_diag.
Qed.

Lemma loadBitmap_None tag buf ts :
  ReadFrom buf = None →
  loadBitmap tag buf ts =
    (set_heap (heap ts ++ [∅]) ts, Some "roaring: invalid serialized bitmap").
Proof.
  intros Hs. unfold loadBitmap, roaring_ReadFrom, roaring.NewBitmap.
  cbn [heap set_heap]. by rewrite Hs.
Qed.

(** A bitmap that reads back replaces the tag's entry and is folded
    into the universe. *)
Lemma loadBitmap_ok tag buf s ts :
  wf ts → ReadFrom buf = Some s →
  (loadBitmap tag buf ts).2 = None ∧
  wf (loadBitmap tag buf ts).1 ∧
  index (loadBitmap tag buf ts).1 = <[tag := s]> (index ts) ∧
  universe (loadBitmap tag buf ts).1 = universe ts ∪ s ∧
  config (loadBitmap tag buf ts).1 = config ts.
Proof.
  intros Hwf Hs. rewrite (loadBitmap_Some tag buf s ts Hs). cbv zeta.
  cbn [fst snd]. split; [done|].
  destruct (bind_fresh ts tag s Hwf) as (Hwf1 & Hp & Hidx1 & Huni1).
  destruct (Or_allObjects _ (length (heap ts)) Hwf1) as (Hwf2 & Hidx2 & Huni2).
  split; [exact Hwf2|]. split; [|split; [|done]].
  - by etrans; [exact Hidx2|].
  - etrans; [exact Huni2|]. f_equal; [done|]. cbn [heap set_tags set_heap].
    apply deref_app_new.
Qed.

(** A bitmap that does not read back leaves the index as it was. *)
Lemma loadBitmap_fail tag buf ts :
  wf ts → ReadFrom buf = None →
  is_Some (loadBitmap tag buf ts).2 ∧
  extends ts (loadBitmap tag buf ts).1.
Proof.
  intros Hwf Hs. rewrite (loadBitmap_None tag buf ts Hs). cbn [fst snd].
  split; [by eexists|]. apply extends_alloc, extends_refl.
Qed.

Lemma LoadSnapshot_loop_spec entries decoded ts idx all :
  wf ts → index ts = idx → universe ts = all →
  Forall2 (λ e d, e.1 = d.1 ∧ ReadFrom e.2 = Some d.2) entries decoded →
  (LoadSnapshot_loop entries ts).2 = None ∧
  wf (LoadSnapshot_loop entries ts).1 ∧
  index (LoadSnapshot_loop entries ts).1
    = foldl (λ idx d, <[d.1 := d.2]> idx) idx decoded ∧
  universe (LoadSnapshot_loop entries ts).1 = all ∪ ⋃ decoded.*2 ∧
  config (LoadSnapshot_loop entries ts).1 = config ts.
Proof.
  intros Hwf Hidx Hall Hdec. revert ts idx all Hwf Hidx Hall.
  induction Hdec as [|[tag buf] [tag' s] entries decoded [Htag Hs] _ IH];
    intros ts idx all Hwf Hidx Hall.
  - cbn. rewrite union_empty_r_L. done.
  - cbn [fst snd] in Htag, Hs. subst tag'. cbn [LoadSnapshot_loop].
    destruct (loadBitmap_ok tag buf s ts Hwf Hs)
      as (Herr & Hwf1 & Hidx1 & Huni1 & Hcfg1).
    destruct (loadBitmap tag buf ts) as [ts1 err]. cbn [fst snd] in *.
    subst err.
    destruct (IH ts1 (<[tag := s]> idx) (all ∪ s) Hwf1)
      as (Herr2 & Hwf2 & Hidx2 & Huni2 & Hcfg2);
      [by rewrite Hidx1, Hidx|by rewrite Huni1, Hall|].
    split; [done|]. split; [done|]. split; [done|]. split; [|congruence].
    rewrite Huni2. cbn [fmap list_fmap union_list snd foldr]. clear.
    set_solver.
Qed.

End loading.

(** ** The query engine *)

Lemma foldl_intersection_empty (sets : list (gset N)) :
  foldl (∩) ∅ sets = ∅.
Proof.
  induction sets as [|s sets IH]; [done|]. cbn. by rewrite intersection_empty_l_L.
Qed.

Lemma foldl_intersection_Exists_empty (acc : gset N) sets :
  Exists (λ s, s = ∅) sets → foldl (∩) acc sets = ∅.
Proof.
  intros Hex. revert acc. induction Hex as [s sets ->|s sets _ IH]; intros acc.
  - cbn. rewrite intersection_empty_r_L. apply foldl_intersection_empty.
  - cbn. apply IH.
Qed.

Lemma returns_NewBitmap ts :
  returns ts (set_heap (heap ts ++ [∅]) ts, (length (heap ts), None)) ∅.
Proof.
  split; [apply extends_alloc, extends_refl|]. split; [done|].
  cbn [fst snd heap set_heap]. split; [|apply deref_app_new].
  rewrite length_app. simpl. lia.
Qed.

Lemma returns_Clone ts b :
  returns ts (set_heap (heap ts ++ [roaring.deref (heap ts) b]) ts,
              (length (heap ts), None)) (roaring.deref (heap ts) b).
Proof.
  split; [apply extends_alloc, extends_refl|]. split; [done|].
  cbn [fst snd heap set_heap]. split; [|apply deref_app_new].
  rewrite length_app. simpl. lia.
Qed.

Lemma returns_extends ts0 ts r s :
  wf ts0 → extends ts0 ts → returns ts r s → returns ts0 r s.
Proof.
  intros Hwf Hext (Hext' & Herr & Hfresh & Hs).
  split; [by eapply extends_trans|]. split; [done|]. split; [|done].
  apply extends_length in Hext. lia.
Qed.

Lemma Query_returns tag ts : returns ts (Query tag ts) (tagSet ts tag).
Proof.
  unfold Query. destruct (tags ts !! tag) as [bitmap|] eqn:Hp.
  - rewrite (tagSet_Some ts tag bitmap Hp). apply returns_Clone.
  - rewrite (tagSet_None ts tag Hp). apply returns_NewBitmap.
Qed.

Lemma QueryAnd_loop_spec ts0 result rest ts acc :
  wf ts0 → extends ts0 ts →
  length (heap ts0) ≤ result < length (heap ts) →
  roaring.deref (heap ts) result = acc →
  extends ts0 (QueryAnd_loop result rest ts).1 ∧
  length (heap (QueryAnd_loop result rest ts).1) = length (heap ts) ∧
  ((QueryAnd_loop result rest ts).2 = true ∧
   Forall (λ tag, is_Some (tags ts0 !! tag)) rest ∧
   roaring.deref (heap (QueryAnd_loop result rest ts).1) result
     = foldl (∩) acc (tagSet ts0 <$> rest)
   ∨
   (QueryAnd_loop result rest ts).2 = false ∧
   Exists (λ tag, tags ts0 !! tag = None) rest).
Proof.
  intros Hwf. revert ts acc.
  induction rest as [|tag rest IH]; intros ts acc Hext Hfresh Hacc.
  - cbn. split; [done|]. split; [done|]. left. by split.
  - cbn [QueryAnd_loop]. rewrite (ext_tags _ _ Hext).
    destruct (tags ts0 !! tag) as [bitmap|] eqn:Hp.
    + pose proof (wf_tags _ Hwf _ _ Hp) as Hb.
      destruct (IH (set_heap (roaring.And result bitmap (heap ts)) ts)
                  (acc ∩ tagSet ts0 tag)) as (Hext' & Hlen & Hres).
      * apply extends_write_fresh; [done|lia].
      * cbn [heap set_heap]. unfold roaring.And. rewrite length_insert. lia.
      * cbn [heap set_heap]. unfold roaring.And.
        rewrite deref_insert_eq by lia. rewrite Hacc. f_equal.
        rewrite (tagSet_Some ts0 tag bitmap Hp).
        by apply extends_deref.
      * split; [done|]. split.
        { rewrite Hlen. cbn [heap set_heap]. unfold roaring.And.
          by rewrite length_insert. }
        destruct Hres as [(Ht & Hall & Hval)|(Hf & Hex)].
        -- left. split; [done|]. split; [|done]. constructor; [by eexists|done].
        -- right. split; [done|]. by apply Exists_cons_tl.
    + cbn [fst snd]. split; [done|]. split; [done|]. right.
      split; [done|]. by apply Exists_cons_hd.
Qed.

Lemma tagSet_missing_Exists ts tagList :
  Exists (λ tag, tags ts !! tag = None) tagList →
  Exists (λ s, s = ∅) (tagSet ts <$> tagList).
Proof.
  intros Hex. apply Exists_fmap. eapply Exists_impl; [exact Hex|].
  intros tag Hp. by apply tagSet_None.
Qed.

Lemma queryAndLocked_returns tagList ts :
  wf ts →
  returns ts (queryAndLocked tagList ts) (intersectAll (tagSet ts <$> tagList)).
Proof.
  intros Hwf. unfold queryAndLocked. destruct tagList as [|first rest].
  { apply returns_NewBitmap. }
  cbn [fmap list_fmap intersectAll].
  destruct (tags ts !! first) as [firstBitmap|] eqn:Hp.
  2:{ rewrite (tagSet_None ts first Hp), foldl_intersection_empty.
      apply returns_NewBitmap. }
  unfold roaring.Clone.
  pose proof (returns_Clone ts firstBitmap) as (Hext & _ & Hfresh & Hval).
  cbn [fst snd] in Hext, Hfresh, Hval.
  destruct (QueryAnd_loop_spec ts (length (heap ts)) rest _ _ Hwf Hext Hfresh Hval)
    as (Hext' & Hlen & Hres).
  destruct (QueryAnd_loop (length (heap ts)) rest _) as [ts' ok].
  cbn [fst snd] in Hext', Hlen, Hres.
  destruct Hres as [(-> & Hall & Hres)|(-> & Hex)].
  - split; [done|]. split; [done|]. cbn [fst snd]. split; [lia|].
    by rewrite Hres, (tagSet_Some ts first firstBitmap Hp).
  - rewrite foldl_intersection_Exists_empty
      by by apply tagSet_missing_Exists.
    eapply returns_extends; [done..|]. apply returns_NewBitmap.
Qed.

Lemma QueryAnd_queryAndLocked tagList ts :
  QueryAnd tagList ts = queryAndLocked tagList ts.
Proof. reflexivity. Qed.

Lemma QueryOr_loop_spec ts0 result tagList ts acc :
  wf ts0 → extends ts0 ts →
  length (heap ts0) ≤ result < length (heap ts) →
  roaring.deref (heap ts) result = acc →
  extends ts0 (QueryOr_loop result tagList ts) ∧
  length (heap (QueryOr_loop result tagList ts)) = length (heap ts) ∧
  roaring.deref (heap (QueryOr_loop result tagList ts)) result
    = acc ∪ ⋃ (tagSet ts0 <$> tagList).
Proof.
  intros Hwf. revert ts acc.
  induction tagList as [|tag tagList IH]; intros ts acc Hext Hfresh Hacc.
  - cbn. by rewrite union_empty_r_L.
  - cbn [QueryOr_loop]. rewrite (ext_tags _ _ Hext).
    cbn [fmap list_fmap union_list foldr].
    destruct (tags ts0 !! tag) as [bitmap|] eqn:Hp.
    + pose proof (wf_tags _ Hwf _ _ Hp) as Hb.
      destruct (IH (set_heap (roaring.Or result bitmap (heap ts)) ts)
                  (acc ∪ tagSet ts0 tag)) as (Hext' & Hlen & Hres).
      * apply extends_write_fresh; [done|lia].
      * cbn [heap set_heap]. unfold roaring.Or. rewrite length_insert. lia.
      * cbn [heap set_heap]. unfold roaring.Or.
        rewrite deref_insert_eq by lia. rewrite Hacc. f_equal.
        rewrite (tagSet_Some ts0 tag bitmap Hp).
        by apply extends_deref.
      * split; [done|]. split.
        { rewrite Hlen. cbn [heap set_heap]. unfold roaring.Or.
          by rewrite length_insert. }
        rewrite Hres. by rewrite (assoc_L (∪)).
    + destruct (IH ts acc Hext Hfresh Hacc) as (Hext' & Hlen & Hres).
      split; [done|]. split; [done|].
      rewrite Hres, (tagSet_None ts0 tag Hp). by rewrite union_empty_l_L.
Qed.

Lemma queryOrLocked_returns tagList ts :
  wf ts → returns ts (queryOrLocked tagList ts) (⋃ (tagSet ts <$> tagList)).
Proof.
  intros Hwf. unfold queryOrLocked, roaring.NewBitmap.
  pose proof (returns_NewBitmap ts) as (Hext & _ & Hfresh & Hval).
  cbn [fst snd] in Hext, Hfresh, Hval.
  destruct (QueryOr_loop_spec ts (length (heap ts)) tagList _ _
              Hwf Hext Hfresh Hval) as (Hext' & Hlen & Hres).
  split; [done|]. split; [done|]. cbn [fst snd]. split; [lia|].
  by rewrite Hres, union_empty_l_L.
Qed.

Lemma QueryOr_queryOrLocked tagList ts :
  QueryOr tagList ts = queryOrLocked tagList ts.
Proof. reflexivity. Qed.

Lemma set_heap_set_heap h1 h2 ts :
  set_heap h2 (set_heap h1 ts) = set_heap h2 ts.
Proof. reflexivity. Qed.

Lemma returns_write ts ts1 result s v :
  returns ts (ts1, (result, None)) s →
  returns ts (set_heap (<[result := v]> (heap ts1)) ts1, (result, None)) v.
Proof.
  intros (Hext & _ & Hfresh & _). cbn [fst snd] in Hext, Hfresh.
  split; [apply extends_write_fresh; [done|lia]|]. split; [done|].
  cbn [fst snd heap set_heap]. rewrite length_insert. split; [done|].
  apply deref_insert_eq. lia.
Qed.

Lemma returns_value ts r s s' : returns ts r s → s = s' → returns ts r s'.
Proof. by intros ? <-. Qed.

(** Clone a set, then overwrite the clone with a combination of the
    clone and the bitmap of a tag. *)
Lemma returns_Clone_combine (f : gset N → gset N → gset N) ts s bitmap :
  bitmap < length (heap ts) →
  returns ts
    (set_heap (<[length (heap ts) :=
                  f (roaring.deref (heap ts ++ [s]) (length (heap ts)))
                    (roaring.deref (heap ts ++ [s]) bitmap)]>
                 (heap ts ++ [s])) ts, (length (heap ts), None))
    (f s (roaring.deref (heap ts) bitmap)).
Proof.
  intros Hb. rewrite deref_app_new, deref_app_l by done.
  apply (returns_write ts (set_heap (heap ts ++ [s]) ts) _ s).
  split; [apply extends_alloc, extends_refl|]. split; [done|].
  cbn [fst snd heap set_heap]. split; [|apply deref_app_new].
  rewrite length_app. simpl. lia.
Qed.

Lemma QueryNot_returns tag all ts :
  wf ts → returns ts (QueryNot tag all ts) (all ∖ tagSet ts tag).
Proof.
  intros Hwf. unfold QueryNot, roaring.CloneOf.
  destruct (tags ts !! tag) as [bitmap|] eqn:Hp.
  - rewrite (tagSet_Some ts tag bitmap Hp).
    cbv zeta. cbn [heap set_heap]. rewrite set_heap_set_heap.
    apply (returns_Clone_combine (λ a b, a ∖ b)). by eapply wf_tags.
  - rewrite (tagSet_None ts tag Hp), difference_empty_L.
    split; [apply extends_alloc, extends_refl|]. split; [done|].
    cbn [fst snd heap set_heap]. split; [|apply deref_app_new].
    rewrite length_app. simpl. lia.
Qed.

Lemma QueryNotInSystem_returns tag ts :
  wf ts → returns ts (QueryNotInSystem tag ts) (universe ts ∖ tagSet ts tag).
Proof.
  intros Hwf. unfold QueryNotInSystem, roaring.Clone.
  rewrite deref_app_new.
  pose proof (returns_Clone ts (allObjects ts)) as (Hext & _).
  cbn [fst] in Hext.
  eapply returns_extends; [done..|].
  eapply returns_value; [apply QueryNot_returns; by eapply extends_wf|].
  by rewrite (extends_tagSet ts).
Qed.

Lemma queryNotLocked_returns tag ts :
  wf ts →
  returns ts ((queryNotLocked tag ts).1, ((queryNotLocked tag ts).2, None))
    (universe ts ∖ tagSet ts tag).
Proof.
  intros Hwf. unfold queryNotLocked, roaring.Clone.
  destruct (tags ts !! tag) as [bitmap|] eqn:Hp.
  - rewrite (tagSet_Some ts tag bitmap Hp).
    cbv zeta. cbn [heap set_heap]. rewrite set_heap_set_heap.
    apply (returns_Clone_combine (λ a b, a ∖ b)). by eapply wf_tags.
  - rewrite (tagSet_None ts tag Hp), difference_empty_L.
    apply returns_Clone.
Qed.

Lemma QueryDifference_returns tag1 tag2 ts :
  wf ts →
  returns ts (QueryDifference tag1 tag2 ts) (tagSet ts tag1 ∖ tagSet ts tag2).
Proof.
  intros Hwf. unfold QueryDifference, roaring.Clone, roaring.NewBitmap.
  destruct (tags ts !! tag1) as [bitmap1|] eqn:Hp1.
  2:{ rewrite (tagSet_None ts tag1 Hp1), difference_disjoint_L by set_solver.
      apply returns_NewBitmap. }
  rewrite (tagSet_Some ts tag1 bitmap1 Hp1).
  destruct (tags ts !! tag2) as [bitmap2|] eqn:Hp2.
  - rewrite (tagSet_Some ts tag2 bitmap2 Hp2).
    cbv zeta. cbn [heap set_heap]. rewrite set_heap_set_heap.
    apply (returns_Clone_combine (λ a b, a ∖ b)). by eapply wf_tags.
  - rewrite (tagSet_None ts tag2 Hp2), difference_empty_L.
    apply returns_Clone.
Qed.

Lemma QueryXor_returns tag1 tag2 ts :
  wf ts →
  returns ts (QueryXor tag1 tag2 ts)
    ((tagSet ts tag1 ∖ tagSet ts tag2) ∪ (tagSet ts tag2 ∖ tagSet ts tag1)).
Proof.
  intros Hwf. unfold QueryXor, roaring.Clone, roaring.NewBitmap.
  destruct (tags ts !! tag1) as [bitmap1|] eqn:Hp1;
    destruct (tags ts !! tag2) as [bitmap2|] eqn:Hp2;
    rewrite ?(tagSet_Some ts tag1 bitmap1 Hp1), ?(tagSet_Some ts tag2 bitmap2 Hp2),
      ?(tagSet_None ts tag1 Hp1), ?(tagSet_None ts tag2 Hp2).
  - cbv zeta. cbn [heap set_heap]. rewrite set_heap_set_heap.
    apply (returns_Clone_combine (λ a b, (a ∖ b) ∪ (b ∖ a))). by eapply wf_tags.
  - eapply returns_value; [apply returns_Clone|]. set_solver.
  - eapply returns_value; [apply returns_Clone|]. set_solver.
  - eapply returns_value; [apply returns_NewBitmap|]. set_solver.
Qed.

(** *** Complex queries *)

Lemma validOp_not_invalidOp op : validOp op ↔ ¬ invalidOp op.
Proof.
  unfold validOp, invalidOp.
  destruct (decide (Type_ op = "AND")) as [Ha|Ha];
    destruct (decide (Type_ op = "OR")) as [Ho|Ho];
    destruct (decide (Type_ op = "NOT")) as [Hn|Hn];
    destruct (decide (length (Tags op) = 1)) as [Hl|Hl];
    try (rewrite Ha in *); try (rewrite Ho in *); try (rewrite Hn in *);
    naive_solver.
Qed.

Lemma ComplexQuery_switch_spec op ts :
  wf ts →
  match (ComplexQuery_switch op ts).2 with
  | inl r =>
      validOp op ∧
      returns ts ((ComplexQuery_switch op ts).1, r) (partialOf ts op)
  | inr msg => invalidOp op ∧ (ComplexQuery_switch op ts).1 = ts
  end.
Proof.
  intros Hwf. unfold ComplexQuery_switch, partialOf, validOp, invalidOp.
  destruct (decide (Type_ op = "AND")) as [Ha|Ha].
  { pose proof (queryAndLocked_returns (Tags op) ts Hwf) as Hr.
    destruct (queryAndLocked (Tags op) ts) as [ts1 r]. cbn [fst snd].
    split; [by left|done]. }
  destruct (decide (Type_ op = "OR")) as [Ho|Ho].
  { pose proof (queryOrLocked_returns (Tags op) ts Hwf) as Hr.
    destruct (queryOrLocked (Tags op) ts) as [ts1 r]. cbn [fst snd].
    split; [by right; left|done]. }
  destruct (decide (Type_ op = "NOT")) as [Hn|Hn].
  - destruct (Tags op) as [|tag [|tag' tagList]] eqn:Htags; cbn [fst snd].
    + split; [|done]. left. by split.
    + pose proof (queryNotLocked_returns tag ts Hwf) as Hr.
      destruct (queryNotLocked tag ts) as [ts1 partial]. cbn [fst snd] in *.
      split; [|done]. right; right. by split.
    + split; [|done]. left. by split.
  - cbn [fst snd]. split; [|done]. by right.
Qed.

Lemma partialOf_extends ts ts' op :
  wf ts → extends ts ts' → partialOf ts' op = partialOf ts op.
Proof.
  intros Hwf Hext. unfold partialOf.
  assert (tagSet ts' <$> Tags op = tagSet ts <$> Tags op) as ->.
  { apply list_fmap_ext. intros i tag _. by apply extends_tagSet. }
  rewrite (extends_universe ts ts') by done.
  destruct (Tags op) as [|tag [|]]; try done.
  by rewrite (extends_tagSet ts ts').
Qed.

Lemma ComplexQuery_loop_spec ts0 result ops ts acc :
  wf ts0 → extends ts0 ts →
  length (heap ts0) ≤ result < length (heap ts) →
  roaring.deref (heap ts) result = acc →
  extends ts0 (ComplexQuery_loop result ops ts).1 ∧
  length (heap ts) ≤ length (heap (ComplexQuery_loop result ops ts).1) ∧
  (Forall validOp ops ∧
   (ComplexQuery_loop result ops ts).2 = (Some result, None) ∧
   roaring.deref (heap (ComplexQuery_loop result ops ts).1) result
     = foldl (∩) acc (partialOf ts0 <$> ops)
   ∨
   Exists invalidOp ops ∧
   ∃ msg, (ComplexQuery_loop result ops ts).2 = (None, Some msg)).
Proof.
  intros Hwf. revert ts acc.
  induction ops as [|op ops IH]; intros ts acc Hext Hfresh Hacc.
  - cbn. split; [done|]. split; [done|]. left. by split.
  - cbn [ComplexQuery_loop].
    pose proof (extends_wf _ _ Hwf Hext) as Hwf'.
    pose proof (ComplexQuery_switch_spec op ts Hwf') as Hsw.
    destruct (ComplexQuery_switch op ts) as [ts1 [[partial err]|msg]];
      cbn [fst snd] in Hsw.
    + destruct Hsw as (Hvalid & Hext1 & Herr & Hfresh1 & Hval).
      cbn [fst snd] in Hext1, Herr, Hfresh1, Hval. subst err.
      destruct (IH (set_heap (roaring.And result partial (heap ts1)) ts1)
                  (acc ∩ partialOf ts0 op)) as (Hext2 & Hlen & Hres).
      * apply extends_write_fresh; [by eapply extends_trans|lia].
      * cbn [heap set_heap]. unfold roaring.And. rewrite length_insert. lia.
      * cbn [heap set_heap]. unfold roaring.And.
        pose proof (extends_length _ _ Hext1).
        rewrite deref_insert_eq by lia. rewrite Hval.
        rewrite (extends_deref ts ts1) by (done || lia). rewrite Hacc.
        f_equal. by apply partialOf_extends.
      * split; [done|]. split.
        { cbn [heap set_heap] in Hlen. unfold roaring.And in Hlen |- *.
          rewrite length_insert in Hlen.
          pose proof (extends_length _ _ Hext1). lia. }
        destruct Hres as [(Hall & Hr & Hv)|(Hex & Hr)].
        -- left. split; [by constructor|]. by split.
        -- right. split; [by apply Exists_cons_tl|done].
    + destruct Hsw as [Hinv ->]. split; [done|]. split; [done|]. right.
      split; [by apply Exists_cons_hd|by eexists].
Qed.

Lemma ComplexQuery_spec ops ts :
  wf ts →
  extends ts (ComplexQuery ops ts).1 ∧
  (Forall validOp ops ∧
   (∃ result,
      (ComplexQuery ops ts).2 = (Some result, None) ∧
      length (heap ts) ≤ result < length (heap (ComplexQuery ops ts).1) ∧
      roaring.deref (heap (ComplexQuery ops ts).1) result
        = intersectAll (partialOf ts <$> ops))
   ∨
   Exists invalidOp ops ∧
   ∃ msg, (ComplexQuery ops ts).2 = (None, Some msg)).
Proof.
  intros Hwf. unfold ComplexQuery. destruct ops as [|op ops].
  { pose proof (returns_NewBitmap ts) as (Hext & _ & Hfresh & Hval).
    unfold roaring.NewBitmap. cbn [fst snd] in *. split; [done|]. left.
    split; [done|]. by eexists. }
  pose proof (ComplexQuery_switch_spec op ts Hwf) as Hsw.
  destruct (ComplexQuery_switch op ts) as [ts1 [[partial err]|msg]];
    cbn [fst snd] in Hsw.
  - destruct Hsw as (Hvalid & Hext1 & Herr & Hfresh1 & Hval).
    cbn [fst snd] in Hext1, Herr, Hfresh1, Hval. subst err.
    destruct (ComplexQuery_loop_spec ts partial ops ts1 _ Hwf Hext1 Hfresh1 Hval)
      as (Hext2 & Hlen & Hres).
    split; [done|]. destruct Hres as [(Hall & Hr & Hv)|(Hex & Hr)].
    + left. split; [by constructor|]. exists partial.
      split; [done|]. split; [lia|done].
    + right. split; [by apply Exists_cons_tl|done].
  - destruct Hsw as [Hinv ->]. cbn [fst snd]. split; [done|]. right.
    split; [by apply Exists_cons_hd|by eexists].
Qed.

(** ** Invariants of the reachable states *)

Lemma sound_tagSet ts tag : sound ts → tagSet ts tag ⊆ universe ts.
Proof.
  intros Hs. unfold tagSet. destruct (index ts !! tag) as [s|] eqn:Ht.
  - by apply (Hs tag s).
  - cbn. set_solver.
Qed.

Lemma sound_extends ts ts' : wf ts → extends ts ts' → sound ts → sound ts'.
Proof.
  intros Hwf Hext Hs. unfold sound.
  by rewrite (extends_index ts ts'), (extends_universe ts ts').
Qed.

Lemma sound_grow (idx : gmap string (gset N)) (all all' : gset N) :
  all ⊆ all' →
  map_Forall (λ (_ : string) s, s ⊆ all) idx →
  map_Forall (λ (_ : string) s, s ⊆ all') idx.
Proof.
  intros Hsub Hm. eapply map_Forall_impl; [exact Hm|].
  intros tag s Hs. cbn in *. set_solver.
Qed.

Lemma addToTags_lookup objectID idx tagList tag s :
  addToTags objectID idx tagList !! tag = Some s →
  idx !! tag = Some s ∨ s = {[objectID]} ∪ default ∅ (idx !! tag).
Proof.
  revert idx. induction tagList as [|tag' tagList IH]; intros idx; [by left|].
  cbn [addToTags foldl]. fold (addToTags objectID). intros [Hl|Hl]%IH.
  - destruct (decide (tag' = tag)) as [->|Hne].
    + rewrite lookup_insert_eq in Hl. right. congruence.
    + rewrite lookup_insert_ne in Hl by done. by left.
  - right. destruct (decide (tag' = tag)) as [->|Hne].
    + rewrite lookup_insert_eq in Hl. cbn in Hl. subst s. set_solver.
    + by rewrite lookup_insert_ne in Hl.
Qed.

Lemma AddTag_sound objectID tag ts :
  wf ts → sound ts → sound (AddTag objectID tag ts).1.
Proof.
  intros Hwf Hs. destruct (AddTag_spec objectID tag ts Hwf) as (_ & Hi & Hu & _).
  unfold sound. rewrite Hi, Hu. apply map_Forall_insert_2.
  - pose proof (sound_tagSet ts tag Hs). set_solver.
  - eapply sound_grow; [|exact Hs]. set_solver.
Qed.

Lemma RemoveTag_sound objectID tag ts :
  wf ts → sound ts → sound (RemoveTag objectID tag ts).1.
Proof.
  intros Hwf Hs.
  destruct (RemoveTag_spec objectID tag ts Hwf) as (_ & Hi & Hu & _).
  unfold sound. rewrite Hi, Hu.
  destruct (index ts !! tag) as [s|] eqn:Ht; [|done].
  case_bool_decide.
  - by apply map_Forall_delete.
  - apply map_Forall_insert_2; [|done]. pose proof (Hs tag s Ht). set_solver.
Qed.

Lemma BatchAddTags_sound objectID tagList ts :
  wf ts → sound ts → sound (BatchAddTags objectID tagList ts).1.
Proof.
  intros Hwf Hs.
  destruct (BatchAddTags_spec objectID tagList ts Hwf) as (_ & Hi & Hu & _).
  unfold sound. rewrite Hi, Hu. intros tag s [Hl| ->]%addToTags_lookup.
  - pose proof (Hs tag s Hl). set_solver.
  - pose proof (sound_tagSet ts tag Hs). unfold tagSet in *. set_solver.
Qed.

Lemma BatchAddObjectsToTag_sound objectIDs tag ts :
  wf ts → sound ts → sound (BatchAddObjectsToTag objectIDs tag ts).1.
Proof.
  intros Hwf Hs.
  destruct (BatchAddObjectsToTag_spec objectIDs tag ts Hwf) as (_ & Hi & Hu & _).
  unfold sound. rewrite Hi, Hu. apply map_Forall_insert_2.
  - pose proof (sound_tagSet ts tag Hs). set_solver.
  - eapply sound_grow; [|exact Hs]. set_solver.
Qed.

Section loading_invariants.
Context `{Serialization}.

Lemma loadBitmap_inv tag buf ts :
  wf ts → sound ts →
  wf (loadBitmap tag buf ts).1 ∧ sound (loadBitmap tag buf ts).1 ∧
  config (loadBitmap tag buf ts).1 = config ts.
Proof.
  intros Hwf Hs. destruct (ReadFrom buf) as [s|] eqn:Hr.
  - destruct (loadBitmap_ok tag buf s ts Hwf Hr) as (_ & Hwf' & Hi & Hu & Hc).
    split; [done|]. split; [|done]. unfold sound. rewrite Hi, Hu.
    apply map_Forall_insert_2; [set_solver|].
    eapply sound_grow; [|exact Hs]. set_solver.
  - destruct (loadBitmap_fail tag buf ts Hwf Hr) as (_ & Hext).
    split; [by eapply extends_wf|]. split; [by eapply sound_extends|].
    by destruct Hext.
Qed.

Lemma LoadSnapshot_loop_inv entries ts :
  wf ts → sound ts →
  wf (LoadSnapshot_loop entries ts).1 ∧ sound (LoadSnapshot_loop entries ts).1 ∧
  config (LoadSnapshot_loop entries ts).1 = config ts.
Proof.
  revert ts. induction entries as [|[tag buf] entries IH]; intros ts Hwf Hs;
    [done|].
  cbn [LoadSnapshot_loop].
  destruct (loadBitmap_inv tag buf ts Hwf Hs) as (Hwf1 & Hs1 & Hc1).
  destruct (loadBitmap tag buf ts) as [ts1 [err|]]; cbn [fst snd] in *; [done|].
  destruct (IH ts1 Hwf1 Hs1) as (?&?&?). split; [done|]. split; [done|].
  congruence.
Qed.

Lemma RecoverFromRedis_loop_inv rdb keys errs ts :
  wf ts → sound ts →
  wf (RecoverFromRedis_loop rdb keys errs ts).1 ∧
  sound (RecoverFromRedis_loop rdb keys errs ts).1.
Proof.
  revert errs ts. induction keys as [|key keys IH]; intros errs ts Hwf Hs;
    [done|].
  cbn [RecoverFromRedis_loop].
  destruct (string_from _ key) as [tag|]; [|done].
  destruct (Get rdb key) as [|msg|data].
  - by apply IH.
  - by apply IH.
  - destruct (loadBitmap_inv tag data ts Hwf Hs) as (Hwf1 & Hs1 & _).
    destruct (loadBitmap tag data ts) as [ts1 [err|]]; cbn [fst snd] in *;
      by apply IH.
Qed.

Lemma exec_inv range c ts :
  wf ts → sound ts → wf (exec range c ts) ∧ sound (exec range c ts).
Proof.
  intros Hwf Hs.
  assert (∀ r s, returns ts r s → wf r.1 ∧ sound r.1) as Hq.
  { intros r s (Hext & _). split; [by eapply extends_wf|by eapply sound_extends]. }
  destruct c; cbn [exec].
  - split; [apply AddTag_spec|apply AddTag_sound]; done.
  - split; [apply RemoveTag_spec|apply RemoveTag_sound]; done.
  - split; [apply BatchAddTags_spec|apply BatchAddTags_sound]; done.
  - split; [apply BatchAddObjectsToTag_spec|apply BatchAddObjectsToTag_sound];
      done.
  - eapply Hq, Query_returns.
  - eapply Hq. rewrite QueryAnd_queryAndLocked. by apply queryAndLocked_returns.
  - eapply Hq. rewrite QueryOr_queryOrLocked. by apply queryOrLocked_returns.
  - eapply Hq. by apply QueryNot_returns.
  - eapply Hq. by apply QueryNotInSystem_returns.
  - destruct (ComplexQuery_spec ops ts Hwf) as (Hext & _).
    split; [by eapply extends_wf|by eapply sound_extends].
  - eapply Hq. by apply QueryDifference_returns.
  - eapply Hq. by apply QueryXor_returns.
  - unfold LoadSnapshot. destruct (os !! filePath) as [jsonData|]; [|done].
    destruct (json_Unmarshal jsonData) as [data|]; [|done].
    destruct (LoadSnapshot_loop_inv (range _ data) ts Hwf Hs) as (?&?&?).
    done.
  - unfold RecoverFromRedis.
    destruct (Scan rdb _) as [scanned [err|]]; [done|].
    pose proof (RecoverFromRedis_loop_inv rdb
      (filter (λ key, key ≠ KeyPrefix (config ts) +:+ "_meta") scanned)
      [] ts Hwf Hs) as Hinv.
    destruct (RecoverFromRedis_loop rdb _ [] ts) as [ts1 [errs [msg|]]];
      [done|].
    by case_bool_decide.
  - unfold LoadTagFromRedis. destruct (Get rdb _) as [|msg|data]; [done..|].
    destruct (loadBitmap_inv tag data ts Hwf Hs) as (Hwf1 & Hs1 & _).
    by destruct (loadBitmap tag data ts) as [ts1 [err|]].
Qed.

Lemma New_wf cfg : wf (New cfg).
Proof.
  split; cbn; try done. lia.
Qed.

Lemma New_index cfg : index (New cfg) = ∅.
Proof. unfold index. cbn. apply fmap_empty. Qed.

Lemma New_universe cfg : universe (New cfg) = ∅.
Proof. done. Qed.

Lemma reachable_inv ts : reachable ts → wf ts ∧ sound ts.
Proof.
  induction 1 as [cfg|range c ts _ _ [Hwf Hs]].
  - split; [apply New_wf|]. unfold sound. rewrite New_index.
    apply map_Forall_empty.
  - by apply exec_inv.
Qed.

End loading_invariants.

(** ** Observations *)

Lemma elem_of_unionOfTags (idx : gmap string (gset N)) x :
  x ∈ unionOfTags idx ↔ ∃ tag s, idx !! tag = Some s ∧ x ∈ s.
Proof.
  unfold unionOfTags. rewrite elem_of_union_list. split.
  - intros (s & Hs & Hx). apply list_elem_of_fmap in Hs as ([tag s'] & -> & Hin).
    apply elem_of_map_to_list in Hin. by exists tag, s'.
  - intros (tag & s & Hl & Hx). exists s. split; [|done].
    apply list_elem_of_fmap. exists (tag, s). split; [done|].
    by apply elem_of_map_to_list.
Qed.

Lemma HasTag_tagSet objectID tag ts :
  HasTag objectID tag ts = bool_decide (objectID ∈ tagSet ts tag).
Proof.
  unfold HasTag. destruct (tags ts !! tag) as [bitmap|] eqn:Hp.
  - by rewrite (tagSet_Some ts tag bitmap Hp).
  - rewrite (tagSet_None ts tag Hp). symmetry. apply bool_decide_eq_false_2.
    set_solver.
Qed.

Lemma GetTagCount_tagSet tag ts :
  GetTagCount tag ts = (N.of_nat (size (tagSet ts tag)), None).
Proof.
  unfold GetTagCount. destruct (tags ts !! tag) as [bitmap|] eqn:Hp.
  - by rewrite (tagSet_Some ts tag bitmap Hp).
  - by rewrite (tagSet_None ts tag Hp), size_empty.
Qed.

Lemma go_range_NoDup range V (m : gmap string V) :
  go_range range → NoDup (range V m).*1.
Proof.
  intros Hr. rewrite (Hr V m). apply NoDup_fst_map_to_list.
Qed.

Lemma go_range_list_to_map range V (m : gmap string V) :
  go_range range → list_to_map (range V m) = m.
Proof.
  intros Hr. rewrite <-(list_to_map_to_list m) at 2.
  apply list_to_map_proper; [by apply go_range_NoDup|apply Hr].
Qed.

Lemma GetAllTags_elem_of range tag ts :
  go_range range → tag ∈ GetAllTags range ts ↔ is_Some (index ts !! tag).
Proof.
  intros Hr. unfold GetAllTags. rewrite (Hr _ (tags ts)).
  rewrite index_lookup, fmap_is_Some. split.
  - intros ([tag' p] & -> & Hin)%list_elem_of_fmap.
    apply elem_of_map_to_list in Hin. by eexists.
  - intros [p Hp]. apply list_elem_of_fmap. exists (tag, p). split; [done|].
    by apply elem_of_map_to_list.
Qed.

(** Inserting the entries of a list one after the other. *)
Lemma foldl_insert_list_to_map {V} (l : list (string * V)) (m : gmap string V) :
  NoDup l.*1 →
  foldl (λ m d, <[d.1 := d.2]> m) m l = list_to_map l ∪ m.
Proof.
  revert m. induction l as [|[k v] l IH]; intros m Hnd.
  - cbn. by rewrite (left_id_L ∅ (∪)).
  - rewrite fmap_cons in Hnd. apply NoDup_cons in Hnd as [Hk Hnd].
    cbn [foldl fst snd] in Hk |- *.
    rewrite IH by done. rewrite list_to_map_cons.
    rewrite <-insert_union_l. symmetry. apply insert_union_r.
    by apply not_elem_of_list_to_map_1.
Qed.

(** ** Snapshots *)

(** A map whose keys are valid UTF-8 comes back from JSON as it is. *)
Lemma json_keys_valid {V : Type} (m : gmap string V) :
  map_Forall (λ key _, validUTF8 key) m → keysApart m ∧ json_keys m = m.
Proof.
  intros Hvalid. split.
  - intros key1 key2 [v1 Hv1] [v2 Hv2].
    by rewrite (Hvalid key1 v1 Hv1), (Hvalid key2 v2 Hv2).
  - unfold json_keys. rewrite <-(list_to_map_to_list m) at 2. f_equal.
    rewrite <-(list_fmap_id (map_to_list m)) at 2.
    apply list_fmap_ext. intros i [key v] Hin.
    apply list_elem_of_lookup_2, elem_of_map_to_list in Hin.
    unfold prod_map. cbn. f_equal. by apply (Hvalid key v).
Qed.

Section snapshots.
Context `{Serialization}.
Variable range : ∀ V : Type, gmap string V → list (string * V).
Hypothesis range_ok : go_range range.

Lemma SaveSnapshot_loop_spec entries data ts :
  NoDup entries.*1 →
  SaveSnapshot_loop entries data ts
    = ((λ p, roaring_WriteTo p (heap ts)) <$> list_to_map entries) ∪ data.
Proof.
  revert data. induction entries as [|[tag bitmap] entries IH]; intros data Hnd.
  - cbn. by rewrite fmap_empty, (left_id_L ∅ (∪)).
  - rewrite fmap_cons in Hnd. apply NoDup_cons in Hnd as [Hk Hnd].
    cbn [SaveSnapshot_loop fst] in Hk |- *. rewrite IH by done.
    rewrite list_to_map_cons, fmap_insert, <-insert_union_l.
    symmetry. apply insert_union_r. rewrite lookup_fmap.
    by rewrite (not_elem_of_list_to_map_1 entries tag).
Qed.

(** The file written by [SaveSnapshot] holds every tag of the index with
    its serialized set. *)
Lemma SaveSnapshot_spec WriteFile filePath os ts :
  SaveSnapshot range WriteFile filePath os ts
    = WriteFile filePath (json_Marshal (WriteTo <$> index ts)) os.
Proof.
  unfold SaveSnapshot.
  rewrite SaveSnapshot_loop_spec by by apply go_range_NoDup.
  rewrite go_range_list_to_map by done.
  rewrite (right_id_L ∅ (∪)). unfold index.
  by rewrite <-map_fmap_compose.
Qed.

(** What [range] yields on a map of serialized sets reads back, entry
    by entry, to a permutation of the sets. *)
Lemma range_serialized snap :
  ∃ decoded,
    Forall2 (λ e d, e.1 = d.1 ∧ ReadFrom e.2 = Some d.2)
      (range _ (WriteTo <$> snap)) decoded ∧
    decoded ≡ₚ map_to_list snap.
Proof.
  exists ((λ e, (e.1, default ∅ (snap !! e.1))) <$> range _ (WriteTo <$> snap)).
  split.
  - apply Forall2_fmap_r, Forall_Forall2_diag, Forall_forall.
    intros [tag buf] Hin. cbn [fst snd]. split; [done|].
    rewrite (range_ok _ (WriteTo <$> snap)) in Hin.
    apply elem_of_map_to_list in Hin. rewrite lookup_fmap in Hin.
    cbn [fst snd]. destruct (snap !! tag) as [s|]; [|done]. cbn in Hin |- *.
    injection Hin as <-. apply ReadFrom_WriteTo.
  - rewrite (range_ok _ (WriteTo <$> snap)), map_to_list_fmap.
    rewrite <-list_fmap_compose.
    rewrite <-(list_fmap_id (map_to_list snap)) at 2.
    erewrite list_fmap_ext; [done|]. intros i [tag s] Hin.
    apply list_elem_of_lookup_2, elem_of_map_to_list in Hin.
    cbn. by rewrite Hin.
Qed.

(** Loading a file whose JSON text holds the serialized sets [snap]:
    every tag of [snap] now holds the set of [snap], replacing what it
    held; the other tags are as before; the universe has grown by every
    loaded set. *)
Lemma LoadSnapshot_spec filePath os ts jsonData snap :
  wf ts →
  os !! filePath = Some jsonData →
  json_Unmarshal jsonData = Some (WriteTo <$> snap) →
  (LoadSnapshot range filePath os ts).2 = None ∧
  wf (LoadSnapshot range filePath os ts).1 ∧
  index (LoadSnapshot range filePath os ts).1 = snap ∪ index ts ∧
  universe (LoadSnapshot range filePath os ts).1
    = universe ts ∪ unionOfTags snap ∧
  config (LoadSnapshot range filePath os ts).1 = config ts.
Proof.
  intros Hwf Hfile Hjson. unfold LoadSnapshot.
  rewrite Hfile, Hjson.
  destruct (range_serialized snap) as (decoded & Hdec & Hperm).
  destruct (LoadSnapshot_loop_spec _ decoded ts _ _ Hwf eq_refl eq_refl Hdec)
    as (Herr & Hwf' & Hidx & Huni & Hcfg).
  split; [done|]. split; [done|]. split; [|split; [|done]].
  - rewrite Hidx. rewrite foldl_insert_list_to_map.
    + f_equal. rewrite <-(list_to_map_to_list snap).
      apply list_to_map_proper; [|done].
      rewrite Hperm. apply NoDup_fst_map_to_list.
    + rewrite Hperm. apply NoDup_fst_map_to_list.
  - rewrite Huni. f_equal. unfold unionOfTags. apply set_eq. intros x.
    rewrite !elem_of_union_list. by setoid_rewrite Hperm.
Qed.

(** The JSON text of serialized sets whose tags are valid UTF-8 reads
    back as it was written. *)
Lemma json_Unmarshal_serialized (snap : gmap string (gset N)) :
  map_Forall (λ tag _, validUTF8 tag) snap →
  json_Unmarshal (json_Marshal (WriteTo <$> snap)) = Some (WriteTo <$> snap).
Proof.
  intros Hvalid.
  assert (map_Forall (λ tag (_ : bytes), validUTF8 tag) (WriteTo <$> snap))
    as Hv.
  { intros tag buf. rewrite lookup_fmap.
    destruct (snap !! tag) as [s|] eqn:Hs; [|done]. intros _.
    by apply (Hvalid tag s). }
  destruct (json_keys_valid _ Hv) as [Hapart Hkeys].
  by rewrite json_Unmarshal_Marshal, Hkeys.
Qed.

End snapshots.

Lemma mapOrder_ok : go_range mapOrder.
Proof. by intros V m. Qed.

Lemma foldl_exec_reachable calls ts :
  reachable ts → reachable (foldl (λ ts c, exec mapOrder c ts) ts calls).
Proof.
  revert ts. induction calls as [|c calls IH]; intros ts Hr; [done|].
  cbn [foldl]. apply IH. constructor; [apply mapOrder_ok|done].
Qed.

Lemma sample_reachable : reachable sample.
Proof. apply foldl_exec_reachable. constructor. Qed.

Lemma sample_wf : wf sample.
Proof. apply reachable_inv, sample_reachable. Qed.

Example sample_index :
  index sample
  = list_to_map [("vip", {[1%N]}); ("male", {[1%N]});
                 ("female", {[2%N]}); ("active", {[2%N]})]
  ∧ universe sample = {[1%N; 2%N]}.
Proof. vm_compute. split; reflexivity. Qed.

(** ** The claims *)

Lemma Forall_validOp_iff ops : Forall validOp ops ↔ ¬ Exists invalidOp ops.
Proof.
  induction ops as [|op ops IH].
  - split; [intros _ Hex; inversion Hex|constructor].
  - rewrite Forall_cons, Exists_cons, IH, validOp_not_invalidOp. tauto.
Qed.

(** C1. For a list of at least two ops, each AND, OR or single-tag NOT,
    [ComplexQuery] returns without error a bitmap holding the partial of
    the first op intersected with the partial of each following op,
    whatever the types of the ops; the type of an op only selects how
    its own tags are combined ([partialOf]: AND intersects, OR unites,
    NOT takes the universe minus the tag). *)
Theorem C1_ComplexQuery_intersects_partials ops ts :
  wf ts → 2 ≤ length ops → Forall validOp ops →
  ∃ result,
    (ComplexQuery ops ts).2 = (Some result, None) ∧
    roaring.deref (heap (ComplexQuery ops ts).1) result
      = intersectAll (partialOf ts <$> ops).
Proof.
  intros Hwf _ Hvalid.
  destruct (ComplexQuery_spec ops ts Hwf) as (_ & [(_ & Hres)|(Hex & _)]).
  - destruct Hres as (result & Hr & _ & Hv). by exists result.
  - by apply Forall_validOp_iff in Hvalid.
Qed.

Lemma C1_witness :
  ∃ result,
    (ComplexQuery scenario sample).2 = (Some result, None) ∧
    roaring.deref (heap (ComplexQuery scenario sample).1) result
      = intersectAll (partialOf sample <$> scenario).
Proof.
  apply C1_ComplexQuery_intersects_partials.
  - apply sample_wf.
  - simpl. lia.
  - repeat constructor; left; reflexivity.
Defined.

(** The scenario of the specification: the two partials are {1} and {2},
    and the result is their intersection, the empty set. *)
Example ComplexQuery_scenario :
  partialOf sample <$> scenario = [{[1%N]}; {[2%N]}] ∧
  ∃ result,
    (ComplexQuery scenario sample).2 = (Some result, None) ∧
    roaring.deref (heap (ComplexQuery scenario sample).1) result = ∅.
Proof. split; [by vm_compute|]. eexists. by vm_compute. Qed.

(** An OR op is intersected with its siblings like any other: on the
    sample, vip is {1} and (female OR active) is {2}; the result is
    empty, not {1, 2}. *)
Example ComplexQuery_or_is_intersected :
  ∃ result,
    (ComplexQuery [ {| Type_ := "AND"; Tags := ["vip"] |};
                    {| Type_ := "OR"; Tags := ["female"; "active"] |} ]
       sample).2 = (Some result, None) ∧
    roaring.deref
      (heap (ComplexQuery [ {| Type_ := "AND"; Tags := ["vip"] |};
                            {| Type_ := "OR"; Tags := ["female"; "active"] |} ]
               sample).1) result = ∅.
Proof. eexists. by vm_compute. Qed.

(** C5. [QueryAnd] returns no error and leaves the index as it was; on
    the empty list it returns the empty set; when some named tag, at any
    position, is absent it returns the empty set; when all named tags
    exist it returns their sets intersected in order from the first. *)
Theorem C5_QueryAnd tagList ts :
  wf ts →
  (QueryAnd tagList ts).2.2 = None ∧
  extends ts (QueryAnd tagList ts).1 ∧
  (tagList = [] → resultSet (QueryAnd tagList ts) = ∅) ∧
  ((∃ tag, tag ∈ tagList ∧ index ts !! tag = None) →
   resultSet (QueryAnd tagList ts) = ∅) ∧
  (∀ sets, Forall2 (λ tag s, index ts !! tag = Some s) tagList sets →
   resultSet (QueryAnd tagList ts) = intersectAll sets).
Proof.
  intros Hwf. rewrite QueryAnd_queryAndLocked.
  destruct (queryAndLocked_returns tagList ts Hwf) as (Hext & Herr & _ & Hval).
  split; [done|]. split; [done|]. unfold resultSet. rewrite Hval.
  split; [by intros ->|]. split.
  - intros (tag & Hin & Hnone). destruct tagList as [|first rest].
    { by apply elem_of_nil in Hin. }
    cbn [fmap list_fmap intersectAll].
    apply elem_of_cons in Hin as [->|Hin].
    + unfold tagSet at 1. rewrite Hnone. apply foldl_intersection_empty.
    + apply foldl_intersection_Exists_empty, Exists_fmap, Exists_exists.
      exists tag. split; [done|]. unfold compose, tagSet. by rewrite Hnone.
  - intros sets Hsets. f_equal. apply list_eq. intros i.
    rewrite list_lookup_fmap.
    destruct (tagList !! i) as [tag|] eqn:Htag.
    + destruct (Forall2_lookup_l _ _ _ _ _ Hsets Htag) as (s & -> & Hs).
      cbn. unfold tagSet. by rewrite Hs.
    + cbn. symmetry. apply lookup_ge_None.
      apply lookup_ge_None in Htag.
      by rewrite <-(Forall2_length _ _ _ Hsets).
Qed.

Lemma C5_witness :
  resultSet (QueryAnd ["vip"; "ghost"] sample) = ∅ ∧
  resultSet (QueryAnd ["vip"; "male"] sample) = intersectAll [{[1%N]}; {[1%N]}].
Proof.
  split.
  - destruct (C5_QueryAnd ["vip"; "ghost"] sample sample_wf)
      as (_ & _ & _ & Hmissing & _).
    apply Hmissing. exists "ghost". split; [|by vm_compute].
    apply elem_of_cons. right. apply elem_of_cons. by left.
  - destruct (C5_QueryAnd ["vip"; "male"] sample sample_wf)
      as (_ & _ & _ & _ & Hall).
    apply Hall. repeat constructor; by vm_compute.
Defined.

(** The AND short-circuit of the specification: "vip" holds object 1,
    "ghost" was never created, and the result is empty. *)
Example QueryAnd_ghost :
  tagSet sample "vip" = {[1%N]} ∧ index sample !! "ghost" = None ∧
  resultSet (QueryAnd ["vip"; "ghost"] sample) = ∅ ∧
  resultSet (QueryAnd ["vip"; "male"] sample) = {[1%N]}.
Proof. by vm_compute. Qed.

(** C6. [QueryOr] returns no error and the union of the sets of those
    named tags that exist; absent tags add nothing.  So one existing
    tag together with one that was never created gives the set of the
    existing tag, and the empty list gives the empty set. *)
Theorem C6_QueryOr tagList ts :
  wf ts →
  (QueryOr tagList ts).2.2 = None ∧
  extends ts (QueryOr tagList ts).1 ∧
  resultSet (QueryOr tagList ts) = ⋃ omap (λ tag, index ts !! tag) tagList ∧
  (∀ vip ghost s,
     tagList = [vip; ghost] →
     index ts !! vip = Some s → index ts !! ghost = None →
     resultSet (QueryOr tagList ts) = s) ∧
  (tagList = [] → resultSet (QueryOr tagList ts) = ∅).
Proof.
  intros Hwf. rewrite QueryOr_queryOrLocked.
  destruct (queryOrLocked_returns tagList ts Hwf) as (Hext & Herr & _ & Hval).
  split; [done|]. split; [done|]. unfold resultSet. rewrite Hval.
  split; [|split].
  - clear. induction tagList as [|tag tagList IH]; [done|].
    cbn [fmap list_fmap omap list_omap union_list foldr].
    unfold tagSet at 1. fold (omap (λ tag, index ts !! tag) tagList).
    destruct (index ts !! tag) as [s|]; cbn [default union_list foldr].
    + by rewrite IH.
    + by rewrite IH, (left_id_L ∅ (∪)).
  - intros vip ghost s -> Hvip Hghost. cbn. unfold tagSet.
    rewrite Hvip, Hghost. cbn. clear. set_solver.
  - by intros ->.
Qed.

Lemma C6_witness :
  (QueryOr ["vip"; "ghost"] sample).2.2 = None ∧
  resultSet (QueryOr ["vip"; "ghost"] sample) = {[1%N]}.
Proof.
  destruct (C6_QueryOr ["vip"; "ghost"] sample sample_wf)
    as (Herr & _ & _ & Hghost & _).
  split; [exact Herr|].
  apply (Hghost "vip" "ghost"); [reflexivity|by vm_compute..].
Defined.

Example QueryOr_ghost :
  resultSet (QueryOr ["vip"; "ghost"] sample) = {[1%N]} ∧
  resultSet (QueryOr ["male"; "female"] sample) = {[1%N; 2%N]}.
Proof. by vm_compute. Qed.

(** C9. [ComplexQuery] returns an error, with every bitmap, the tag map
    and [allObjects] as they were, exactly when some op of the list is a
    NOT with other than one tag or has a type that is none of AND, OR,
    NOT; on every other list it returns a bitmap and no error. *)
Theorem C9_ComplexQuery_error_iff ops ts :
  wf ts →
  ((∃ msg, (ComplexQuery ops ts).2 = (None, Some msg)) ∧
   extends ts (ComplexQuery ops ts).1 ∧
   index (ComplexQuery ops ts).1 = index ts ∧
   universe (ComplexQuery ops ts).1 = universe ts
   ↔ Exists invalidOp ops) ∧
  (¬ Exists invalidOp ops →
   ∃ result, (ComplexQuery ops ts).2 = (Some result, None)).
Proof.
  intros Hwf. destruct (ComplexQuery_spec ops ts Hwf) as (Hext & Hres).
  split.
  - split.
    + intros ((msg & Hmsg) & _).
      destruct Hres as [(_ & result & Hr & _)|(Hex & _)]; [congruence|done].
    + intros Hex. destruct Hres as [(Hall & _)|(_ & Hmsg)].
      { by apply Forall_validOp_iff in Hall. }
      split; [done|]. split; [done|].
      split; [by apply extends_index|by apply extends_universe].
  - intros Hnex. destruct Hres as [(_ & result & Hr & _)|(Hex & _)]; [|done].
    by exists result.
Qed.

Lemma C9_witness :
  ((∃ msg, (ComplexQuery malformed sample).2 = (None, Some msg)) ∧
   extends sample (ComplexQuery malformed sample).1 ∧
   index (ComplexQuery malformed sample).1 = index sample ∧
   universe (ComplexQuery malformed sample).1 = universe sample) ∧
  ∃ result, (ComplexQuery scenario sample).2 = (Some result, None).
Proof.
  split.
  - apply (C9_ComplexQuery_error_iff malformed sample sample_wf).
    apply Exists_cons_tl, Exists_cons_hd. left. split; [reflexivity|].
    simpl. lia.
  - apply (C9_ComplexQuery_error_iff scenario sample sample_wf).
    intros Hex. repeat (apply Exists_cons in Hex as [Hex|Hex]).
    + destruct Hex as [[Hnot _]|(Hand & _)]; [discriminate Hnot|by apply Hand].
    + destruct Hex as [[Hnot _]|(Hand & _)]; [discriminate Hnot|by apply Hand].
    + by apply Exists_nil in Hex.
Defined.

Example ComplexQuery_malformed :
  (ComplexQuery malformed sample).2
    = (None, Some "NOT operation requires exactly one tag") ∧
  (ComplexQuery [ {| Type_ := "XOR"; Tags := ["vip"] |} ] sample).2
    = (None, Some "unknown operation: XOR").
Proof. by vm_compute. Qed.

(** C10. On the empty list of ops [ComplexQuery] returns, with no error,
    a newly allocated bitmap that holds the empty set; the index is as
    it was. *)
Theorem C10_ComplexQuery_empty ts :
  ∃ result,
    (ComplexQuery [] ts).2 = (Some result, None) ∧
    length (heap ts) ≤ result ∧
    roaring.deref (heap (ComplexQuery [] ts).1) result = ∅ ∧
    extends ts (ComplexQuery [] ts).1.
Proof.
  destruct (returns_NewBitmap ts) as (Hext & _ & Hfresh & Hval).
  exists (length (heap ts)). cbn [ComplexQuery roaring.NewBitmap fst snd] in *.
  split; [done|]. split; [done|]. by split.
Qed.

(** On the sample, whose universe is {1, 2}, the result is empty. *)
Example ComplexQuery_empty_sample :
  universe sample = {[1%N; 2%N]} ∧
  ∃ result,
    (ComplexQuery [] sample).2 = (Some result, None) ∧
    roaring.deref (heap (ComplexQuery [] sample).1) result = ∅.
Proof. split; [by vm_compute|]. eexists. by vm_compute. Qed.

(** C3, as amended.  Loading a snapshot file whose content is the
    serialized sets [snap] ([json.Unmarshal] reads the map [snap] of
    serialized bitmaps from it) returns no error; every tag named in
    the snapshot then holds the set of the snapshot, in place of what it
    held; the tags the snapshot does not name are unchanged; and the
    universe has grown by every loaded set. *)
Theorem C3_LoadSnapshot_replaces `{Serialization} range filePath os ts
    jsonData snap :
  go_range range → wf ts →
  os !! filePath = Some jsonData →
  json_Unmarshal jsonData = Some (WriteTo <$> snap) →
  (LoadSnapshot range filePath os ts).2 = None ∧
  (∀ tag s, snap !! tag = Some s →
     index (LoadSnapshot range filePath os ts).1 !! tag = Some s) ∧
  (∀ tag, snap !! tag = None →
     index (LoadSnapshot range filePath os ts).1 !! tag = index ts !! tag) ∧
  universe (LoadSnapshot range filePath os ts).1
    = universe ts ∪ unionOfTags snap.
Proof.
  intros Hrange Hwf Hfile Hjson.
  destruct (LoadSnapshot_spec range Hrange filePath os ts jsonData snap Hwf
              Hfile Hjson) as (Herr & _ & Hidx & Huni & _).
  split; [done|]. rewrite Hidx. split; [|split; [|done]].
  - intros tag s Hs. by apply lookup_union_Some_l.
  - intros tag Hs. by apply lookup_union_r.
Qed.

(** The same for the file that [json.Marshal] writes from serialized
    sets whose tag names are valid UTF-8. *)
Corollary LoadSnapshot_marshalled `{Serialization} range filePath os ts snap :
  go_range range → wf ts →
  map_Forall (λ tag _, validUTF8 tag) snap →
  os !! filePath = Some (json_Marshal (WriteTo <$> snap)) →
  (LoadSnapshot range filePath os ts).2 = None ∧
  index (LoadSnapshot range filePath os ts).1 = snap ∪ index ts ∧
  universe (LoadSnapshot range filePath os ts).1
    = universe ts ∪ unionOfTags snap.
Proof.
  intros Hrange Hwf Hvalid Hfile.
  by destruct (LoadSnapshot_spec range Hrange filePath os ts _ snap Hwf Hfile
                 (json_Unmarshal_serialized snap Hvalid))
    as (Herr & _ & Hidx & Huni & _).
Qed.

Lemma before_wf : wf before.
Proof. apply reachable_inv, foldl_exec_reachable. constructor. Qed.

Lemma C3_witness :
  (LoadSnapshot mapOrder "snapshot.json" disk before).2 = None ∧
  index (LoadSnapshot mapOrder "snapshot.json" disk before).1 !! "vip"
    = Some {[2%N]} ∧
  index (LoadSnapshot mapOrder "snapshot.json" disk before).1 !! "male"
    = index before !! "male" ∧
  universe (LoadSnapshot mapOrder "snapshot.json" disk before).1
    = universe before ∪ unionOfTags snapshot.
Proof.
  destruct (C3_LoadSnapshot_replaces mapOrder "snapshot.json" disk before
              (json_Marshal (WriteTo <$> snapshot)) snapshot mapOrder_ok
              before_wf eq_refl)
    as (Herr & Hnamed & Hother & Huni); [vm_compute; reflexivity|].
  split; [exact Herr|]. split; [|split; [|exact Huni]].
  - apply Hnamed. by vm_compute.
  - apply Hother. by vm_compute.
Defined.

(** C3, as stated, fails: "vip" held {1}, the snapshot holds {2} for it,
    and after the load "vip" holds {2}, not the union {1, 2}. *)
Lemma C3_counterexample :
  let after := (LoadSnapshot mapOrder "snapshot.json" disk before).1 in
  index before !! "vip" = Some {[1%N]} ∧
  snapshot !! "vip" = Some {[2%N]} ∧
  index after !! "vip" = Some {[2%N]} ∧
  index after !! "vip" ≠ Some ({[1%N]} ∪ {[2%N]}) ∧
  index after !! "male" = Some {[3%N]} ∧
  universe after = {[1%N; 2%N; 3%N]}.
Proof.
  cbv zeta. split; [by vm_compute|]. split; [by vm_compute|].
  split; [by vm_compute|]. split; [vm_compute; discriminate|].
  split; by vm_compute.
Qed.

(** C4: the code creates a tag with an empty bitmap.
    [BatchAddObjectsToTag] with an empty list of objects on a new system
    leaves the tag "vip" in the index with the empty set: [GetAllTags]
    lists it and [GetTagCount] gives 0. *)
Theorem C4_empty_tag_reachable :
  let ts :=
    foldl (λ ts c, exec mapOrder c ts) (New DefaultConfig)
      [call_BatchAddObjectsToTag [] "vip"] in
  reachable ts ∧
  index ts !! "vip" = Some ∅ ∧
  GetAllTags mapOrder ts = ["vip"] ∧
  GetTagCount "vip" ts = (0%N, None).
Proof.
  cbv zeta. split; [apply foldl_exec_reachable; constructor|].
  split; [by vm_compute|]. split; by vm_compute.
Qed.

(** With the deletion of [RemoveTag], removing the last object of a tag
    takes the tag out of the index: [GetAllTags] no longer lists it and
    [GetTagCount] gives 0 and no error. *)
Lemma RemoveTag_last_object range objectID tag ts :
  go_range range → wf ts → tagSet ts tag ⊆ {[objectID]} →
  (tag ∉ GetAllTags range (RemoveTag objectID tag ts).1) ∧
  GetTagCount tag (RemoveTag objectID tag ts).1 = (0%N, None).
Proof.
  intros Hrange Hwf Hsub.
  destruct (RemoveTag_spec objectID tag ts Hwf) as (_ & Hidx & _).
  assert (index (RemoveTag objectID tag ts).1 !! tag = None) as Hnone.
  { rewrite Hidx. unfold tagSet in Hsub.
    destruct (index ts !! tag) as [s|] eqn:Hs; [|done]. cbn in Hsub.
    rewrite bool_decide_eq_true_2 by set_solver. apply lookup_delete_eq. }
  split.
  - rewrite (GetAllTags_elem_of range) by done. rewrite Hnone.
    by intros [? ?].
  - rewrite GetTagCount_tagSet. unfold tagSet. rewrite Hnone. cbn [default].
    by rewrite size_empty.
Qed.

(** [AddTag], [BatchAddTags], [RemoveTag], and [BatchAddObjectsToTag]
    with at least one object, keep every tag of the index non-empty. *)
Lemma mutators_keep_tags_nonempty ts :
  wf ts → noEmptyTag ts →
  (∀ objectID tag, noEmptyTag (AddTag objectID tag ts).1) ∧
  (∀ objectID tag, noEmptyTag (RemoveTag objectID tag ts).1) ∧
  (∀ objectID tagList, noEmptyTag (BatchAddTags objectID tagList ts).1) ∧
  (∀ objectIDs tag,
     objectIDs ≠ [] → noEmptyTag (BatchAddObjectsToTag objectIDs tag ts).1).
Proof.
  intros Hwf Hne. unfold noEmptyTag in *. split_and!.
  - intros objectID tag.
    destruct (AddTag_spec objectID tag ts Hwf) as (_ & -> & _).
    apply map_Forall_insert_2; [set_solver|done].
  - intros objectID tag.
    destruct (RemoveTag_spec objectID tag ts Hwf) as (_ & -> & _).
    destruct (index ts !! tag) as [s|]; [|done]. case_bool_decide.
    + by apply map_Forall_delete.
    + by apply map_Forall_insert_2.
  - intros objectID tagList.
    destruct (BatchAddTags_spec objectID tagList ts Hwf) as (_ & -> & _).
    intros tag s [Hl| ->]%addToTags_lookup; [by apply (Hne tag)|set_solver].
  - intros objectIDs tag Hids.
    destruct (BatchAddObjectsToTag_spec objectIDs tag ts Hwf) as (_ & -> & _).
    apply map_Forall_insert_2; [|done].
    destruct objectIDs as [|objectID objectIDs]; [done|].
    cbn [list_to_set]. set_solver.
Qed.

(** C7, as amended.  For a reachable index whose tag names are all
    valid UTF-8: when [SaveSnapshot] returns no error, loading the file
    into a new, empty system returns no error, and [HasTag] then answers
    on the new system as on the original, for every object and tag. *)
Theorem C7_snapshot_round_trip `{Serialization} range1 range2 WriteFile
    filePath os cfg ts :
  go_range range1 → go_range range2 → go_WriteFile WriteFile →
  reachable ts →
  map_Forall (λ tag _, validUTF8 tag) (index ts) →
  (SaveSnapshot range1 WriteFile filePath os ts).2 = None →
  (LoadSnapshot range2 filePath
     (SaveSnapshot range1 WriteFile filePath os ts).1 (New cfg)).2 = None ∧
  ∀ objectID tag,
    HasTag objectID tag
      (LoadSnapshot range2 filePath
         (SaveSnapshot range1 WriteFile filePath os ts).1 (New cfg)).1
    = HasTag objectID tag ts.
Proof.
  intros Hr1 Hr2 Hw [Hwf _]%reachable_inv Hvalid.
  rewrite (SaveSnapshot_spec range1 Hr1). intros Hsaved.
  destruct (LoadSnapshot_spec range2 Hr2 filePath _ (New cfg) _ (index ts)
              (New_wf cfg) (Hw _ _ _ Hsaved)
              (json_Unmarshal_serialized (index ts) Hvalid))
    as (Herr & _ & Hidx & _).
  split; [done|]. intros objectID tag. rewrite !HasTag_tagSet.
  unfold tagSet. by rewrite Hidx, New_index, (right_id_L ∅ (∪)).
Qed.

Lemma writable_ok `{Serialization} : go_WriteFile writable.
Proof. intros name data os _. apply lookup_insert_eq. Qed.

Lemma C7_witness :
  (LoadSnapshot mapOrder "snapshot.json"
     (SaveSnapshot mapOrder writable "snapshot.json" ∅ sample).1
     (New DefaultConfig)).2 = None ∧
  ∀ objectID tag,
    HasTag objectID tag
      (LoadSnapshot mapOrder "snapshot.json"
         (SaveSnapshot mapOrder writable "snapshot.json" ∅ sample).1
         (New DefaultConfig)).1
    = HasTag objectID tag sample.
Proof.
  apply C7_snapshot_round_trip.
  - apply mapOrder_ok.
  - apply mapOrder_ok.
  - apply writable_ok.
  - apply sample_reachable.
  - apply (bool_decide_unpack _). vm_compute. exact I.
  - reflexivity.
Defined.

Example snapshot_round_trip_sample :
  let restored :=
    (LoadSnapshot mapOrder "snapshot.json"
       (SaveSnapshot mapOrder writable "snapshot.json" ∅ sample).1
       (New DefaultConfig)).1 in
  index restored = index sample ∧
  HasTag 1 "vip" restored = true ∧ HasTag 2 "vip" restored = false.
Proof. by vm_compute. Qed.

(** When the write fails [SaveSnapshot] returns the error of
    [os.WriteFile]. *)
Example SaveSnapshot_readOnly :
  (SaveSnapshot mapOrder readOnly "snapshot.json" ∅ sample).2
    = Some "open: permission denied".
Proof. reflexivity. Qed.

(** A tag name that is not valid UTF-8 does not survive the round trip,
    whatever the serialization: the file names the tag U+FFFD, and that
    is the tag the new system has. *)
Lemma snapshot_coerces_tag `{Serialization} range1 range2 WriteFile
    filePath os cfg :
  go_range range1 → go_range range2 → go_WriteFile WriteFile →
  (SaveSnapshot range1 WriteFile filePath os
     (AddTag 1 tag_0xFF (New cfg)).1).2 = None →
  index (LoadSnapshot range2 filePath
           (SaveSnapshot range1 WriteFile filePath os
              (AddTag 1 tag_0xFF (New cfg)).1).1 (New cfg)).1
    = {[ RuneError := {[1%N]} ]}.
Proof.
  intros Hr1 Hr2 Hw. rewrite (SaveSnapshot_spec range1 Hr1). intros Hsaved.
  destruct (AddTag_spec 1 tag_0xFF (New cfg) (New_wf cfg)) as (_ & Hidx & _).
  assert (index (AddTag 1 tag_0xFF (New cfg)).1 = {[ tag_0xFF := {[1%N]} ]})
    as Hidx'.
  { rewrite Hidx. unfold tagSet. rewrite New_index, lookup_empty. cbn.
    by rewrite (right_id_L ∅ (∪)), insert_empty. }
  clear Hidx. rewrite Hidx' in *. rewrite map_fmap_singleton in *.
  destruct (LoadSnapshot_spec range2 Hr2 filePath _ (New cfg) _
              {[ RuneError := {[1%N]} ]} (New_wf cfg) (Hw _ _ _ Hsaved))
    as (_ & _ & Hload & _).
  - rewrite json_Unmarshal_Marshal.
    + unfold json_keys. by rewrite map_to_list_singleton, map_fmap_singleton.
    + intros key1 key2 [? [<- _]%lookup_singleton_Some]
        [? [<- _]%lookup_singleton_Some]. done.
  - by rewrite Hload, New_index, (right_id_L ∅ (∪)).
Qed.

(** C7, as stated, fails: object 1 has the tag 0xFF; the snapshot is
    saved and loaded without error; in the new system object 1 does not
    have the tag, which has become the tag U+FFFD. *)
Lemma C7_counterexample :
  let saved := SaveSnapshot mapOrder writable "snapshot.json" ∅ binary_sample in
  let restored :=
    LoadSnapshot mapOrder "snapshot.json" saved.1 (New DefaultConfig) in
  reachable binary_sample ∧ saved.2 = None ∧ restored.2 = None ∧
  HasTag 1 tag_0xFF binary_sample = true ∧
  HasTag 1 tag_0xFF restored.1 = false ∧
  index restored.1 = {[ RuneError := {[1%N]} ]}.
Proof.
  cbv zeta. split; [apply foldl_exec_reachable; constructor|].
  split; [reflexivity|]. split; [vm_compute; reflexivity|].
  split; [vm_compute; reflexivity|]. split; vm_compute; reflexivity.
Qed.

Lemma Add_present b x (h : list (gset N)) :
  b < length h → x ∈ roaring.deref h b → roaring.Add b x h = h.
Proof.
  intros Hb Hx. unfold roaring.Add. apply list_insert_id.
  unfold roaring.deref in *. destruct (h !! b) as [s|] eqn:Hs.
  - cbn in *. f_equal. symmetry. apply subseteq_union_1_L. set_solver.
  - apply lookup_ge_None in Hs. lia.
Qed.

Lemma set_heap_id ts : set_heap (heap ts) ts = ts.
Proof. by destruct ts. Qed.

(** Adding a pair that is already there changes nothing at all. *)
Lemma AddTag_present objectID tag ts :
  wf ts → objectID ∈ tagSet ts tag → objectID ∈ universe ts →
  (AddTag objectID tag ts).1 = ts.
Proof.
  intros Hwf Htag Hall. unfold AddTag, getOrCreate.
  destruct (tags ts !! tag) as [bitmap|] eqn:Hp.
  - rewrite (tagSet_Some ts tag bitmap Hp) in Htag. cbn [fst snd].
    rewrite (Add_present bitmap) by (by eapply wf_tags || done).
    rewrite set_heap_id.
    rewrite (Add_present (allObjects ts)) by (by apply wf_allObjects || done).
    apply set_heap_id.
  - rewrite (tagSet_None ts tag Hp) in Htag. set_solver.
Qed.

(** C8. Calling [AddTag] twice with the same object and tag leaves the
    system exactly as calling it once, and so the cardinality of the
    tag; adding a pair that is already present leaves the cardinality as
    it was. *)
Theorem C8_AddTag_idempotent objectID tag ts :
  wf ts →
  (AddTag objectID tag (AddTag objectID tag ts).1).1
    = (AddTag objectID tag ts).1 ∧
  GetTagCount tag (AddTag objectID tag (AddTag objectID tag ts).1).1
    = GetTagCount tag (AddTag objectID tag ts).1 ∧
  (HasTag objectID tag ts = true →
   GetTagCount tag (AddTag objectID tag ts).1 = GetTagCount tag ts).
Proof.
  intros Hwf.
  destruct (AddTag_spec objectID tag ts Hwf) as (Hwf1 & Hidx & Huni & _).
  assert ((AddTag objectID tag (AddTag objectID tag ts).1).1
          = (AddTag objectID tag ts).1) as Htwice.
  { apply AddTag_present; [done| |].
    - unfold tagSet. rewrite Hidx, lookup_insert_eq. cbn. set_solver.
    - rewrite Huni. set_solver. }
  split; [done|]. split; [by rewrite Htwice|].
  rewrite HasTag_tagSet, bool_decide_eq_true. intros Hin.
  rewrite !GetTagCount_tagSet. do 3 f_equal.
  unfold tagSet at 1. rewrite Hidx, lookup_insert_eq. cbn.
  apply subseteq_union_1_L. set_solver.
Qed.

Lemma C8_witness :
  (AddTag 1 "vip" (AddTag 1 "vip" sample).1).1 = (AddTag 1 "vip" sample).1 ∧
  GetTagCount "vip" (AddTag 1 "vip" (AddTag 1 "vip" sample).1).1
    = GetTagCount "vip" (AddTag 1 "vip" sample).1 ∧
  GetTagCount "vip" (AddTag 1 "vip" sample).1 = GetTagCount "vip" sample.
Proof.
  destruct (C8_AddTag_idempotent 1 "vip" sample sample_wf)
    as (Hstate & Hcount & Hpresent).
  split; [exact Hstate|]. split; [exact Hcount|].
  apply Hpresent. by vm_compute.
Defined.

Example AddTag_twice :
  GetTagCount "new" (AddTag 7 "new" (New DefaultConfig)).1 = (1%N, None) ∧
  GetTagCount "new"
    (AddTag 7 "new" (AddTag 7 "new" (New DefaultConfig)).1).1 = (1%N, None).
Proof. by vm_compute. Qed.

(** ** Further properties of the query engine *)

Lemma elem_of_foldl_intersection (x : N) (acc : gset N) sets :
  x ∈ foldl (∩) acc sets ↔ x ∈ acc ∧ ∀ s, s ∈ sets → x ∈ s.
Proof.
  revert acc. induction sets as [|s sets IH]; intros acc; cbn [foldl].
  - split; [intros Hx; split; [done|]; by intros s ?%elem_of_nil|by intros [? _]].
  - rewrite IH, elem_of_intersection. split.
    + intros [[Hacc Hs] Hall]. split; [done|].
      intros s' [->|Hin]%elem_of_cons; [done|by apply Hall].
    + intros [Hacc Hall]. split; [split; [done|]|].
      * apply Hall, elem_of_cons. by left.
      * intros s' Hin. apply Hall, elem_of_cons. by right.
Qed.

Lemma elem_of_intersectAll (x : N) sets :
  x ∈ intersectAll sets ↔ sets ≠ [] ∧ ∀ s, s ∈ sets → x ∈ s.
Proof.
  destruct sets as [|s sets]; cbn [intersectAll].
  - split; [by intros ?%elem_of_empty|by intros [? _]].
  - rewrite elem_of_foldl_intersection. split.
    + intros [Hs Hall]. split; [done|].
      intros s' [->|Hin]%elem_of_cons; [done|by apply Hall].
    + intros [_ Hall]. split.
      * apply Hall, elem_of_cons. by left.
      * intros s' Hin. apply Hall, elem_of_cons. by right.
Qed.

Lemma resultSet_QueryAnd tagList ts :
  wf ts → resultSet (QueryAnd tagList ts) = intersectAll (tagSet ts <$> tagList).
Proof.
  intros Hwf. rewrite QueryAnd_queryAndLocked.
  by destruct (queryAndLocked_returns tagList ts Hwf) as (_ & _ & _ & ?).
Qed.

Lemma resultSet_QueryOr tagList ts :
  wf ts → resultSet (QueryOr tagList ts) = ⋃ (tagSet ts <$> tagList).
Proof.
  intros Hwf. rewrite QueryOr_queryOrLocked.
  by destruct (queryOrLocked_returns tagList ts Hwf) as (_ & _ & _ & ?).
Qed.

(** X1. [Query] returns, with no error, a copy of the tag's set (the
    empty set for a tag that does not exist): whatever the caller later
    writes into the returned bitmap, the index and the universe stay as
    they were. *)
Theorem X1_Query_returns_a_copy tag ts :
  wf ts →
  (Query tag ts).2.2 = None ∧
  resultSet (Query tag ts) = tagSet ts tag ∧
  (index ts !! tag = None → resultSet (Query tag ts) = ∅) ∧
  ∀ s,
    index (set_heap (<[(Query tag ts).2.1 := s]> (heap (Query tag ts).1))
             (Query tag ts).1) = index ts ∧
    universe (set_heap (<[(Query tag ts).2.1 := s]> (heap (Query tag ts).1))
                (Query tag ts).1) = universe ts.
Proof.
  intros Hwf. destruct (Query_returns tag ts) as (Hext & Herr & Hfresh & Hval).
  split; [done|]. split; [done|]. split.
  - intros Hnone. unfold resultSet. rewrite Hval. unfold tagSet.
    by rewrite Hnone.
  - intros s.
    assert (extends ts
              (set_heap (<[(Query tag ts).2.1 := s]> (heap (Query tag ts).1))
                 (Query tag ts).1)) as Hext'
      by (apply extends_write_fresh; [done|lia]).
    split; [by apply extends_index|by apply extends_universe].
Qed.

Lemma X1_witness :
  resultSet (Query "vip" sample) = tagSet sample "vip" ∧
  resultSet (Query "ghost" sample) = ∅ ∧
  index (set_heap (<[(Query "vip" sample).2.1 := {[9%N]}]>
                     (heap (Query "vip" sample).1)) (Query "vip" sample).1)
    = index sample.
Proof.
  split; [|split].
  - by destruct (X1_Query_returns_a_copy "vip" sample sample_wf)
      as (_ & Hval & _).
  - destruct (X1_Query_returns_a_copy "ghost" sample sample_wf)
      as (_ & _ & Hnone & _).
    apply Hnone. by vm_compute.
  - destruct (X1_Query_returns_a_copy "vip" sample sample_wf)
      as (_ & _ & _ & Hwrite).
    apply Hwrite.
Defined.

(** X2. [QueryNot] returns, with no error, the caller's universe minus
    the tag's set, and a copy of the whole universe when the tag does
    not exist; the index is left as it was. *)
Theorem X2_QueryNot tag all ts :
  wf ts →
  (QueryNot tag all ts).2.2 = None ∧
  resultSet (QueryNot tag all ts) = all ∖ tagSet ts tag ∧
  (index ts !! tag = None → resultSet (QueryNot tag all ts) = all) ∧
  extends ts (QueryNot tag all ts).1.
Proof.
  intros Hwf. destruct (QueryNot_returns tag all ts Hwf)
    as (Hext & Herr & _ & Hval).
  split; [done|]. split; [done|]. split; [|done].
  intros Hnone. unfold resultSet. rewrite Hval. unfold tagSet.
  rewrite Hnone. cbn. apply difference_empty_L.
Qed.

Lemma X2_witness :
  resultSet (QueryNot "vip" {[1%N; 2%N; 3%N; 4%N]} sample)
    = {[1%N; 2%N; 3%N; 4%N]} ∖ tagSet sample "vip" ∧
  resultSet (QueryNot "ghost" {[1%N; 2%N; 3%N; 4%N]} sample)
    = {[1%N; 2%N; 3%N; 4%N]}.
Proof.
  split.
  - by destruct (X2_QueryNot "vip" {[1%N; 2%N; 3%N; 4%N]} sample sample_wf)
      as (_ & Hval & _).
  - destruct (X2_QueryNot "ghost" {[1%N; 2%N; 3%N; 4%N]} sample sample_wf)
      as (_ & _ & Hnone & _).
    apply Hnone. by vm_compute.
Defined.

(** X3. At a reachable state [QueryNotInSystem] and the tag split the
    universe: the result is disjoint from the tag's set and together
    they make up the set held by [allObjects]. *)
Theorem X3_QueryNotInSystem_complement `{Serialization} tag ts :
  reachable ts →
  (QueryNotInSystem tag ts).2.2 = None ∧
  resultSet (QueryNotInSystem tag ts) ∩ tagSet ts tag = ∅ ∧
  resultSet (QueryNotInSystem tag ts) ∪ tagSet ts tag = universe ts.
Proof.
  intros [Hwf Hs]%reachable_inv.
  destruct (QueryNotInSystem_returns tag ts Hwf) as (_ & Herr & _ & Hval).
  pose proof (sound_tagSet ts tag Hs) as Hsub.
  split; [done|]. unfold resultSet. rewrite Hval. split.
  - apply set_eq. intros x. rewrite elem_of_intersection, elem_of_difference.
    split; [by intros [[_ ?] ?]|by intros ?%elem_of_empty].
  - apply set_eq. intros x. rewrite elem_of_union, elem_of_difference.
    split; [intros [[? _]|?]; [done|by apply Hsub]|].
    intros Hx. destruct (decide (x ∈ tagSet ts tag)); [by right|by left].
Qed.

Lemma X3_witness :
  (QueryNotInSystem "vip" sample).2.2 = None ∧
  resultSet (QueryNotInSystem "vip" sample) ∩ tagSet sample "vip" = ∅ ∧
  resultSet (QueryNotInSystem "vip" sample) ∪ tagSet sample "vip"
    = universe sample.
Proof. apply X3_QueryNotInSystem_complement, sample_reachable. Defined.

(** X4. [QueryDifference] returns the objects of the first tag that are
    not in the second: nothing when the first tag does not exist, the
    whole first tag when the second does not exist, and nothing for a
    tag against itself. *)
Theorem X4_QueryDifference tag1 tag2 ts :
  wf ts →
  (QueryDifference tag1 tag2 ts).2.2 = None ∧
  resultSet (QueryDifference tag1 tag2 ts) = tagSet ts tag1 ∖ tagSet ts tag2 ∧
  (index ts !! tag1 = None → resultSet (QueryDifference tag1 tag2 ts) = ∅) ∧
  (index ts !! tag2 = None →
   resultSet (QueryDifference tag1 tag2 ts) = tagSet ts tag1) ∧
  resultSet (QueryDifference tag1 tag1 ts) = ∅ ∧
  extends ts (QueryDifference tag1 tag2 ts).1.
Proof.
  intros Hwf.
  destruct (QueryDifference_returns tag1 tag2 ts Hwf) as (Hext & Herr & _ & Hval).
  destruct (QueryDifference_returns tag1 tag1 ts Hwf) as (_ & _ & _ & Hval').
  unfold resultSet. rewrite Hval, Hval'.
  split; [done|]. split; [done|]. split; [|split; [|split; [|done]]].
  - intros Hnone. unfold tagSet at 1. rewrite Hnone. cbn. set_solver.
  - intros Hnone. unfold tagSet at 2. rewrite Hnone. cbn.
    apply difference_empty_L.
  - set_solver.
Qed.

Lemma X4_witness :
  resultSet (QueryDifference "vip" "male" sample)
    = tagSet sample "vip" ∖ tagSet sample "male" ∧
  resultSet (QueryDifference "ghost" "vip" sample) = ∅ ∧
  resultSet (QueryDifference "vip" "ghost" sample) = tagSet sample "vip".
Proof.
  split; [|split].
  - by destruct (X4_QueryDifference "vip" "male" sample sample_wf)
      as (_ & Hval & _).
  - destruct (X4_QueryDifference "ghost" "vip" sample sample_wf)
      as (_ & _ & Hnone & _).
    apply Hnone. by vm_compute.
  - destruct (X4_QueryDifference "vip" "ghost" sample sample_wf)
      as (_ & _ & _ & Hnone & _).
    apply Hnone. by vm_compute.
Defined.

(** X5. [QueryXor] returns the objects in exactly one of the two tags.
    It does not depend on the order of the two tags, and it is what
    [QueryOr] of the two returns minus what [QueryAnd] of the two
    returns, also when one or both tags do not exist. *)
Theorem X5_QueryXor tag1 tag2 ts :
  wf ts →
  (QueryXor tag1 tag2 ts).2.2 = None ∧
  (∀ x, x ∈ resultSet (QueryXor tag1 tag2 ts) ↔
        (x ∈ tagSet ts tag1 ∧ x ∉ tagSet ts tag2) ∨
        (x ∈ tagSet ts tag2 ∧ x ∉ tagSet ts tag1)) ∧
  resultSet (QueryXor tag1 tag2 ts) = resultSet (QueryXor tag2 tag1 ts) ∧
  resultSet (QueryXor tag1 tag2 ts)
    = resultSet (QueryOr [tag1; tag2] ts)
      ∖ resultSet (QueryAnd [tag1; tag2] ts) ∧
  extends ts (QueryXor tag1 tag2 ts).1.
Proof.
  intros Hwf.
  destruct (QueryXor_returns tag1 tag2 ts Hwf) as (Hext & Herr & _ & Hval).
  destruct (QueryXor_returns tag2 tag1 ts Hwf) as (_ & _ & _ & Hval').
  rewrite resultSet_QueryAnd, resultSet_QueryOr by done.
  unfold resultSet. rewrite Hval, Hval'. cbn.
  split; [done|]. split; [|split; [|split; [|done]]].
  - intros x. set_solver.
  - set_solver.
  - set_solver.
Qed.

Lemma X5_witness :
  resultSet (QueryXor "vip" "male" sample)
    = resultSet (QueryXor "male" "vip" sample) ∧
  resultSet (QueryXor "vip" "ghost" sample)
    = resultSet (QueryOr ["vip"; "ghost"] sample)
      ∖ resultSet (QueryAnd ["vip"; "ghost"] sample).
Proof.
  split.
  - by destruct (X5_QueryXor "vip" "male" sample sample_wf)
      as (_ & _ & Hsym & _).
  - by destruct (X5_QueryXor "vip" "ghost" sample sample_wf)
      as (_ & _ & _ & Hor & _).
Defined.

(** X6. What [QueryAnd] returns depends only on which tags are named:
    two lists that name the same tags, in any order and with any
    repetitions, give the same set; and every object of the result has
    every named tag. *)
Theorem X6_QueryAnd_order tagList tagList' ts :
  wf ts → (∀ tag, tag ∈ tagList ↔ tag ∈ tagList') →
  resultSet (QueryAnd tagList ts) = resultSet (QueryAnd tagList' ts) ∧
  ∀ x tag, x ∈ resultSet (QueryAnd tagList ts) → tag ∈ tagList →
           HasTag x tag ts = true.
Proof.
  intros Hwf Hsame. rewrite !resultSet_QueryAnd by done. split.
  - apply set_eq. intros x. rewrite !elem_of_intersectAll.
    assert (∀ l l' : list string, (∀ tag, tag ∈ l → tag ∈ l') →
            (tagSet ts <$> l' ≠ [] ∧ ∀ s, s ∈ tagSet ts <$> l' → x ∈ s) →
            l ≠ [] →
            (tagSet ts <$> l ≠ [] ∧ ∀ s, s ∈ tagSet ts <$> l → x ∈ s)) as Hdir.
    { intros l l' Hsub [_ Hall] Hne. split; [by destruct l|].
      intros s (tag & -> & Hin)%list_elem_of_fmap. apply Hall.
      apply list_elem_of_fmap. exists tag. split; [done|by apply Hsub]. }
    split; intros Hx.
    + apply (Hdir tagList' tagList); [by intros ? ?%Hsame|done|].
      destruct Hx as [Hne _]. destruct tagList as [|tag l]; [done|].
      intros ->. assert (tag ∈ @nil string) as ?%elem_of_nil; [|done].
      apply Hsame, elem_of_cons. by left.
    + apply (Hdir tagList tagList'); [by intros ? ?%Hsame|done|].
      destruct Hx as [Hne _]. destruct tagList' as [|tag l]; [done|].
      intros ->. assert (tag ∈ @nil string) as ?%elem_of_nil; [|done].
      apply Hsame, elem_of_cons. by left.
  - intros x tag [_ Hall]%elem_of_intersectAll Hin.
    rewrite HasTag_tagSet. apply bool_decide_eq_true_2, Hall.
    apply list_elem_of_fmap. by exists tag.
Qed.

Lemma X6_witness :
  resultSet (QueryAnd ["vip"; "male"] sample)
    = resultSet (QueryAnd ["male"; "vip"; "male"] sample).
Proof.
  refine (proj1 (X6_QueryAnd_order ["vip"; "male"] ["male"; "vip"; "male"]
                    sample sample_wf _)).
  intros tag. rewrite !elem_of_cons, !elem_of_nil. tauto.
Defined.

(** X7. What [QueryOr] returns depends only on which tags are named, not
    on their order or repetitions; an object is in the result exactly
    when it has one of the named tags. *)
Theorem X7_QueryOr_order tagList tagList' ts :
  wf ts → (∀ tag, tag ∈ tagList ↔ tag ∈ tagList') →
  resultSet (QueryOr tagList ts) = resultSet (QueryOr tagList' ts) ∧
  ∀ x, x ∈ resultSet (QueryOr tagList ts) ↔
       ∃ tag, tag ∈ tagList ∧ HasTag x tag ts = true.
Proof.
  intros Hwf Hsame. rewrite !resultSet_QueryOr by done.
  assert (∀ l x, x ∈ ⋃ (tagSet ts <$> l) ↔
                 ∃ tag, tag ∈ l ∧ HasTag x tag ts = true) as Hchar.
  { intros l x. rewrite elem_of_union_list. split.
    - intros (s & (tag & -> & Hin)%list_elem_of_fmap & Hx). exists tag.
      split; [done|]. rewrite HasTag_tagSet. by apply bool_decide_eq_true_2.
    - intros (tag & Hin & Hx). rewrite HasTag_tagSet in Hx.
      apply bool_decide_eq_true_1 in Hx. exists (tagSet ts tag).
      split; [|done]. apply list_elem_of_fmap. by exists tag. }
  split; [|apply Hchar].
  apply set_eq. intros x. rewrite !Hchar. by setoid_rewrite Hsame.
Qed.

Lemma X7_witness :
  resultSet (QueryOr ["vip"; "female"] sample)
    = resultSet (QueryOr ["female"; "vip"; "vip"] sample).
Proof.
  refine (proj1 (X7_QueryOr_order ["vip"; "female"] ["female"; "vip"; "vip"]
                    sample sample_wf _)).
  intros tag. rewrite !elem_of_cons, !elem_of_nil. tauto.
Defined.

(** X8. For the same list of tags, what [QueryAnd] returns is contained
    in what [QueryOr] returns; and on a list of one tag [QueryAnd],
    [QueryOr] and [Query] return the same set. *)
Theorem X8_QueryAnd_within_QueryOr tagList tag ts :
  wf ts →
  resultSet (QueryAnd tagList ts) ⊆ resultSet (QueryOr tagList ts) ∧
  resultSet (QueryAnd [tag] ts) = resultSet (Query tag ts) ∧
  resultSet (QueryOr [tag] ts) = resultSet (Query tag ts).
Proof.
  intros Hwf. rewrite !resultSet_QueryAnd, !resultSet_QueryOr by done.
  destruct (Query_returns tag ts) as (_ & _ & _ & Hval).
  unfold resultSet at 1 2. rewrite Hval. split; [|split].
  - intros x [Hne Hall]%elem_of_intersectAll.
    destruct tagList as [|first rest]; [done|].
    apply elem_of_union_list. exists (tagSet ts first).
    split; [apply elem_of_cons; by left|]. apply Hall, elem_of_cons. by left.
  - done.
  - cbn. apply (right_id_L ∅ (∪)).
Qed.

Lemma X8_witness :
  resultSet (QueryAnd ["vip"; "male"] sample)
    ⊆ resultSet (QueryOr ["vip"; "male"] sample) ∧
  resultSet (QueryAnd ["vip"] sample) = resultSet (Query "vip" sample) ∧
  resultSet (QueryOr ["vip"] sample) = resultSet (Query "vip" sample).
Proof. apply X8_QueryAnd_within_QueryOr, sample_wf. Defined.

(** ** Further properties of the mutators *)

Lemma tagSet_insert ts ts' tag tag' s :
  index ts' = <[tag := s]> (index ts) →
  tagSet ts' tag' = if decide (tag = tag') then s else tagSet ts tag'.
Proof.
  intros Hidx. unfold tagSet. rewrite Hidx. case_decide as Heq.
  - subst. by rewrite lookup_insert_eq.
  - by rewrite lookup_insert_ne.
Qed.

(** X9. [AddTag] never fails; afterwards the object has the tag and is
    in the universe, and for every other pair of object and tag [HasTag]
    answers as before. *)
Theorem X9_AddTag_then_HasTag objectID tag ts :
  wf ts →
  (AddTag objectID tag ts).2 = None ∧
  HasTag objectID tag (AddTag objectID tag ts).1 = true ∧
  objectID ∈ universe (AddTag objectID tag ts).1 ∧
  ∀ objectID' tag', (objectID', tag') ≠ (objectID, tag) →
    HasTag objectID' tag' (AddTag objectID tag ts).1
    = HasTag objectID' tag' ts.
Proof.
  intros Hwf. destruct (AddTag_spec objectID tag ts Hwf) as (_ & Hidx & Huni & _).
  split; [by unfold AddTag; destruct (getOrCreate tag ts)|].
  split; [|split].
  - rewrite HasTag_tagSet, (tagSet_insert ts _ tag tag _ Hidx).
    rewrite decide_True by done. apply bool_decide_eq_true_2. set_solver.
  - rewrite Huni. set_solver.
  - intros objectID' tag' Hne.
    rewrite !HasTag_tagSet, (tagSet_insert ts _ tag tag' _ Hidx).
    case_decide as Heq; [|done]. subst tag'.
    apply bool_decide_ext. rewrite elem_of_union, elem_of_singleton.
    split; [intros [->|?]; [done|done]|by right].
Qed.

Lemma X9_witness :
  HasTag 3 "vip" (AddTag 3 "vip" sample).1 = true ∧
  HasTag 1 "vip" (AddTag 3 "vip" sample).1 = HasTag 1 "vip" sample ∧
  HasTag 3 "male" (AddTag 3 "vip" sample).1 = HasTag 3 "male" sample.
Proof.
  destruct (X9_AddTag_then_HasTag 3 "vip" sample sample_wf)
    as (_ & Hset & _ & Hother).
  split; [exact Hset|]. split; apply Hother; discriminate.
Defined.

(** X10. [RemoveTag] never fails and never changes the universe;
    afterwards the object does not have the tag, and for every other
    pair of object and tag [HasTag] answers as before.  On a tag that
    does not exist it changes nothing at all. *)
Theorem X10_RemoveTag_then_HasTag objectID tag ts :
  wf ts →
  (RemoveTag objectID tag ts).2 = None ∧
  HasTag objectID tag (RemoveTag objectID tag ts).1 = false ∧
  universe (RemoveTag objectID tag ts).1 = universe ts ∧
  (∀ objectID' tag', (objectID', tag') ≠ (objectID, tag) →
     HasTag objectID' tag' (RemoveTag objectID tag ts).1
     = HasTag objectID' tag' ts) ∧
  (index ts !! tag = None → (RemoveTag objectID tag ts).1 = ts).
Proof.
  intros Hwf.
  destruct (RemoveTag_spec objectID tag ts Hwf) as (_ & Hidx & Huni & _).
  assert (∀ objectID' tag',
            objectID' ∈ tagSet (RemoveTag objectID tag ts).1 tag' ↔
            objectID' ∈ tagSet ts tag' ∧ (objectID', tag') ≠ (objectID, tag))
    as Hchar.
  { intros objectID' tag'. unfold tagSet. rewrite Hidx.
    destruct (index ts !! tag) as [s|] eqn:Hs.
    - destruct (decide (tag' = tag)) as [->|Hne].
      + rewrite Hs. cbn. case_bool_decide as Hempty.
        * rewrite lookup_delete_eq. cbn. split; [by intros ?%elem_of_empty|].
          intros [Hin Hneq]. assert (objectID' ∈ s ∖ {[objectID]}) as Hx.
          { apply elem_of_difference. split; [done|].
            rewrite elem_of_singleton. congruence. }
          rewrite Hempty in Hx. by apply elem_of_empty in Hx.
        * rewrite lookup_insert_eq. cbn.
          rewrite elem_of_difference, elem_of_singleton.
          split; [intros [? ?]; split; [done|congruence]|].
          intros [? Hneq]. split; [done|]. intros ->. by apply Hneq.
      + assert (default ∅ ((if bool_decide (s ∖ {[objectID]} = ∅)
                            then delete tag (index ts)
                            else <[tag := s ∖ {[objectID]}]> (index ts)) !! tag')
                = default ∅ (index ts !! tag')) as ->.
        { case_bool_decide;
            [by rewrite lookup_delete_ne|by rewrite lookup_insert_ne]. }
        split; [intros ?; split; [done|congruence]|by intros [? _]].
    - split; [|by intros [? _]]. intros Hin. split; [done|].
      intros [= -> ->]. rewrite Hs in Hin. by apply elem_of_empty in Hin. }
  split; [|split; [|split; [done|split]]].
  - unfold RemoveTag. destruct (tags ts !! tag); [|done].
    by destruct (roaring.GetCardinality _ _ =? 0)%N.
  - rewrite HasTag_tagSet. apply bool_decide_eq_false_2.
    rewrite Hchar. by intros [_ ?].
  - intros objectID' tag' Hne. rewrite !HasTag_tagSet.
    apply bool_decide_ext. rewrite Hchar. by split; [intros [? _]|].
  - intros Hnone%index_lookup_None. unfold RemoveTag. by rewrite Hnone.
Qed.

Lemma X10_witness :
  HasTag 1 "vip" (RemoveTag 1 "vip" sample).1 = false ∧
  HasTag 1 "male" (RemoveTag 1 "vip" sample).1 = HasTag 1 "male" sample ∧
  universe (RemoveTag 1 "vip" sample).1 = universe sample ∧
  (RemoveTag 1 "ghost" sample).1 = sample.
Proof.
  destruct (X10_RemoveTag_then_HasTag 1 "vip" sample sample_wf)
    as (_ & Hgone & Huni & Hother & _).
  destruct (X10_RemoveTag_then_HasTag 1 "ghost" sample sample_wf)
    as (_ & _ & _ & _ & Habsent).
  split; [exact Hgone|]. split; [apply Hother; discriminate|].
  split; [exact Huni|]. apply Habsent. by vm_compute.
Defined.

(** X11. Adding a pair that was not there and removing it again gives
    back the index as it was, except that the object stays in the
    universe.  (The tag must not be one that exists with an empty
    bitmap: the removal deletes such a tag.) *)
Theorem X11_AddTag_RemoveTag objectID tag ts :
  wf ts → HasTag objectID tag ts = false → index ts !! tag ≠ Some ∅ →
  index (RemoveTag objectID tag (AddTag objectID tag ts).1).1 = index ts ∧
  universe (RemoveTag objectID tag (AddTag objectID tag ts).1).1
    = {[objectID]} ∪ universe ts.
Proof.
  intros Hwf Hhas Hne.
  destruct (AddTag_spec objectID tag ts Hwf) as (Hwf1 & Hidx1 & Huni1 & _).
  destruct (RemoveTag_spec objectID tag _ Hwf1) as (_ & Hidx2 & Huni2 & _).
  rewrite HasTag_tagSet in Hhas. apply bool_decide_eq_false_1 in Hhas.
  split; [|by rewrite Huni2, Huni1].
  rewrite Hidx2, Hidx1, lookup_insert_eq.
  assert (({[objectID]} ∪ tagSet ts tag) ∖ {[objectID]} = tagSet ts tag) as ->
    by set_solver.
  unfold tagSet in *. destruct (index ts !! tag) as [s|] eqn:Hs; cbn in *.
  - rewrite bool_decide_eq_false_2 by congruence.
    rewrite insert_insert_eq. by apply insert_id.
  - rewrite bool_decide_eq_true_2 by done.
    rewrite delete_insert_eq. by apply delete_id.
Qed.

Lemma X11_witness :
  index (RemoveTag 3 "vip" (AddTag 3 "vip" sample).1).1 = index sample ∧
  universe (RemoveTag 3 "vip" (AddTag 3 "vip" sample).1).1
    = {[3%N]} ∪ universe sample.
Proof.
  apply (X11_AddTag_RemoveTag 3 "vip" sample sample_wf).
  - by vm_compute.
  - vm_compute. discriminate.
Defined.

Lemma Remove_absent b x (h : list (gset N)) :
  b < length h → x ∉ roaring.deref h b → roaring.Remove b x h = h.
Proof.
  intros Hb Hx. unfold roaring.Remove. apply list_insert_id.
  unfold roaring.deref in *. destruct (h !! b) as [s|] eqn:Hs.
  - cbn in *. f_equal. set_solver.
  - apply lookup_ge_None in Hs. lia.
Qed.

(** X12. [RemoveTag] is idempotent on the whole state, and removing a
    pair that is not there changes nothing at all, unless the tag
    exists with an empty bitmap. *)
Theorem X12_RemoveTag_idempotent objectID tag ts :
  wf ts →
  (RemoveTag objectID tag (RemoveTag objectID tag ts).1).1
    = (RemoveTag objectID tag ts).1 ∧
  (HasTag objectID tag ts = false → index ts !! tag ≠ Some ∅ →
   (RemoveTag objectID tag ts).1 = ts).
Proof.
  intros Hwf.
  assert (∀ ts, wf ts → HasTag objectID tag ts = false →
            index ts !! tag ≠ Some ∅ → (RemoveTag objectID tag ts).1 = ts)
    as Habsent.
  { clear ts Hwf. intros ts Hwf Hhas Hne. unfold RemoveTag.
    destruct (tags ts !! tag) as [bitmap|] eqn:Hp; [|done].
    rewrite HasTag_tagSet, (tagSet_Some ts tag bitmap Hp) in Hhas.
    apply bool_decide_eq_false_1 in Hhas.
    rewrite (index_lookup_Some ts tag bitmap Hp) in Hne.
    cbv zeta. rewrite (Remove_absent bitmap) by (by eapply wf_tags || done).
    rewrite set_heap_id, GetCardinality_zero.
    by rewrite bool_decide_eq_false_2 by congruence. }
  split; [|by apply Habsent].
  destruct (RemoveTag_spec objectID tag ts Hwf) as (Hwf1 & Hidx & _).
  assert (HasTag objectID tag (RemoveTag objectID tag ts).1 = false) as Hgone.
  { rewrite HasTag_tagSet. apply bool_decide_eq_false_2. unfold tagSet.
    rewrite Hidx. destruct (index ts !! tag) as [s|] eqn:Hs.
    - case_bool_decide.
      + rewrite lookup_delete_eq. cbn. by intros ?%elem_of_empty.
      + rewrite lookup_insert_eq. cbn. set_solver.
    - rewrite Hs. cbn. by intros ?%elem_of_empty. }
  destruct (decide (index (RemoveTag objectID tag ts).1 !! tag = Some ∅))
    as [Hempty|Hne]; [|by apply Habsent].
  exfalso. rewrite Hidx in Hempty.
  destruct (index ts !! tag) as [s|] eqn:Hs.
  - case_bool_decide as Hd.
    + by rewrite lookup_delete_eq in Hempty.
    + rewrite lookup_insert_eq in Hempty. congruence.
  - congruence.
Qed.

Lemma X12_witness :
  (RemoveTag 1 "vip" (RemoveTag 1 "vip" sample).1).1
    = (RemoveTag 1 "vip" sample).1 ∧
  (RemoveTag 2 "vip" sample).1 = sample.
Proof.
  destruct (X12_RemoveTag_idempotent 1 "vip" sample sample_wf) as (Hidem & _).
  destruct (X12_RemoveTag_idempotent 2 "vip" sample sample_wf) as (_ & Habsent).
  split; [exact Hidem|]. apply Habsent; [by vm_compute|].
  vm_compute. discriminate.
Defined.

(** The edge of X11 and X12: on a tag that exists with an empty bitmap,
    removing an object that is not there deletes the tag. *)
Example RemoveTag_empty_tag :
  let ts := (BatchAddObjectsToTag [] "vip" (New DefaultConfig)).1 in
  index ts !! "vip" = Some ∅ ∧
  index (RemoveTag 1 "vip" ts).1 !! "vip" = None.
Proof. by vm_compute. Qed.

Lemma addToTags_cons objectID idx tag tagList :
  addToTags objectID idx (tag :: tagList)
  = addToTags objectID (<[tag := {[objectID]} ∪ default ∅ (idx !! tag)]> idx)
      tagList.
Proof. reflexivity. Qed.

Lemma addToTags_elem objectID idx tagList tag :
  tag ∈ tagList →
  objectID ∈ default ∅ (addToTags objectID idx tagList !! tag).
Proof.
  revert idx. induction tagList as [|tag' tagList IH]; intros idx Hin;
    [by apply elem_of_nil in Hin|].
  rewrite addToTags_cons.
  destruct (decide (tag ∈ tagList)) as [Hin'|Hnin]; [by apply IH|].
  apply elem_of_cons in Hin as [->|Hin]; [|done].
  assert (∀ l idx', tag' ∉ l →
            addToTags objectID idx' l !! tag' = idx' !! tag') as Hskip.
  { clear. intros l. induction l as [|t l IH]; intros idx' Hnin; [done|].
    rewrite addToTags_cons. apply not_elem_of_cons in Hnin as [Hne Hnin].
    rewrite IH by done. by rewrite lookup_insert_ne. }
  rewrite Hskip by done. rewrite lookup_insert_eq. cbn. set_solver.
Qed.

Lemma foldl_AddTag_spec objectID tagList ts :
  wf ts →
  wf (foldl (λ ts tag, (AddTag objectID tag ts).1) ts tagList) ∧
  index (foldl (λ ts tag, (AddTag objectID tag ts).1) ts tagList)
    = addToTags objectID (index ts) tagList ∧
  universe (foldl (λ ts tag, (AddTag objectID tag ts).1) ts tagList)
    = match tagList with
      | [] => universe ts
      | _ => {[objectID]} ∪ universe ts
      end.
Proof.
  revert ts. induction tagList as [|tag tagList IH]; intros ts Hwf; [done|].
  cbn [foldl].
  destruct (AddTag_spec objectID tag ts Hwf) as (Hwf1 & Hidx1 & Huni1 & _).
  destruct (IH _ Hwf1) as (Hwf2 & Hidx2 & Huni2).
  split; [done|]. split.
  - rewrite Hidx2, Hidx1. done.
  - rewrite Huni2, Huni1. destruct tagList; [done|]. set_solver.
Qed.

(** X13. [BatchAddTags] with at least one tag leaves the index and the
    universe as the calls of [AddTag] for each tag in turn would, and
    the object then has every listed tag.  With no tag at all it still
    adds the object to the universe, and leaves the index as it was. *)
Theorem X13_BatchAddTags_as_AddTag objectID tagList ts :
  wf ts →
  (BatchAddTags objectID tagList ts).2 = None ∧
  (tagList ≠ [] →
   index (BatchAddTags objectID tagList ts).1
     = index (foldl (λ ts tag, (AddTag objectID tag ts).1) ts tagList) ∧
   universe (BatchAddTags objectID tagList ts).1
     = universe (foldl (λ ts tag, (AddTag objectID tag ts).1) ts tagList)) ∧
  (∀ tag, tag ∈ tagList →
     HasTag objectID tag (BatchAddTags objectID tagList ts).1 = true) ∧
  index (BatchAddTags objectID [] ts).1 = index ts ∧
  universe (BatchAddTags objectID [] ts).1 = {[objectID]} ∪ universe ts.
Proof.
  intros Hwf.
  destruct (BatchAddTags_spec objectID tagList ts Hwf) as (_ & Hidx & Huni & _).
  destruct (BatchAddTags_spec objectID [] ts Hwf) as (_ & Hidx0 & Huni0 & _).
  destruct (foldl_AddTag_spec objectID tagList ts Hwf) as (_ & Hidx' & Huni').
  split; [done|]. split; [|split; [|by split]].
  - intros Hne. rewrite Hidx, Hidx', Huni, Huni'. by destruct tagList.
  - intros tag Hin. rewrite HasTag_tagSet. apply bool_decide_eq_true_2.
    unfold tagSet. rewrite Hidx. by apply addToTags_elem.
Qed.

Lemma X13_witness :
  index (BatchAddTags 5 ["vip"; "new"] sample).1
    = index (foldl (λ ts tag, (AddTag 5 tag ts).1) sample ["vip"; "new"]) ∧
  HasTag 5 "new" (BatchAddTags 5 ["vip"; "new"] sample).1 = true.
Proof.
  destruct (X13_BatchAddTags_as_AddTag 5 ["vip"; "new"] sample sample_wf)
    as (_ & Hsame & Hhas & _).
  split; [by apply Hsame|]. apply Hhas.
  apply elem_of_cons. right. apply elem_of_cons. by left.
Defined.

Lemma foldl_AddTag_objects_spec objectIDs tag ts :
  wf ts →
  wf (foldl (λ ts objectID, (AddTag objectID tag ts).1) ts objectIDs) ∧
  index (foldl (λ ts objectID, (AddTag objectID tag ts).1) ts objectIDs)
    = match objectIDs with
      | [] => index ts
      | _ => <[tag := list_to_set objectIDs ∪ tagSet ts tag]> (index ts)
      end ∧
  universe (foldl (λ ts objectID, (AddTag objectID tag ts).1) ts objectIDs)
    = list_to_set objectIDs ∪ universe ts.
Proof.
  revert ts. induction objectIDs as [|objectID objectIDs IH]; intros ts Hwf.
  - cbn. split; [done|]. split; [done|]. by rewrite (left_id_L ∅ (∪)).
  - cbn [foldl].
    destruct (AddTag_spec objectID tag ts Hwf) as (Hwf1 & Hidx1 & Huni1 & _).
    destruct (IH _ Hwf1) as (Hwf2 & Hidx2 & Huni2).
    split; [done|]. split.
    + rewrite Hidx2. destruct objectIDs as [|objectID' objectIDs].
      * rewrite Hidx1. cbn. by rewrite (right_id_L ∅ (∪)).
      * unfold tagSet at 1. rewrite Hidx1, lookup_insert_eq, insert_insert_eq.
        cbn [default list_to_set]. f_equal. set_solver.
    + rewrite Huni2, Huni1. cbn [list_to_set]. set_solver.
Qed.

(** X14. [BatchAddObjectsToTag] with at least one object leaves the
    index and the universe as the calls of [AddTag] for each object in
    turn would; the tag then counts the distinct objects among the
    listed ones and those it held, so on a tag that did not exist, with
    objects listed once each, the count is the length of the list. *)
Theorem X14_BatchAddObjectsToTag_as_AddTag objectIDs tag ts :
  wf ts →
  (BatchAddObjectsToTag objectIDs tag ts).2 = None ∧
  (objectIDs ≠ [] →
   index (BatchAddObjectsToTag objectIDs tag ts).1
     = index (foldl (λ ts objectID, (AddTag objectID tag ts).1) ts objectIDs) ∧
   universe (BatchAddObjectsToTag objectIDs tag ts).1
     = universe
         (foldl (λ ts objectID, (AddTag objectID tag ts).1) ts objectIDs)) ∧
  GetTagCount tag (BatchAddObjectsToTag objectIDs tag ts).1
    = (N.of_nat (size (list_to_set objectIDs ∪ tagSet ts tag)), None) ∧
  (index ts !! tag = None → NoDup objectIDs →
   GetTagCount tag (BatchAddObjectsToTag objectIDs tag ts).1
     = (N.of_nat (length objectIDs), None)).
Proof.
  intros Hwf.
  destruct (BatchAddObjectsToTag_spec objectIDs tag ts Hwf)
    as (_ & Hidx & Huni & _).
  destruct (foldl_AddTag_objects_spec objectIDs tag ts Hwf)
    as (_ & Hidx' & Huni').
  assert (GetTagCount tag (BatchAddObjectsToTag objectIDs tag ts).1
          = (N.of_nat (size (list_to_set objectIDs ∪ tagSet ts tag)), None))
    as Hcount.
  { rewrite GetTagCount_tagSet. unfold tagSet at 1.
    by rewrite Hidx, lookup_insert_eq. }
  split; [by unfold BatchAddObjectsToTag; destruct (getOrCreate tag ts)|].
  split; [|split; [done|]].
  - intros Hne. rewrite Hidx, Hidx', Huni, Huni'. by destruct objectIDs.
  - intros Hnone Hnd. rewrite Hcount. unfold tagSet. rewrite Hnone. cbn.
    rewrite (right_id_L ∅ (∪)). by rewrite size_list_to_set.
Qed.

Lemma X14_witness :
  GetTagCount "vip"
    (BatchAddObjectsToTag [1; 2; 3; 4; 5]%N "vip" (New DefaultConfig)).1
  = (5%N, None).
Proof.
  destruct (X14_BatchAddObjectsToTag_as_AddTag [1; 2; 3; 4; 5]%N "vip"
              (New DefaultConfig) (New_wf DefaultConfig))
    as (_ & _ & _ & Hnew).
  apply Hnew; [by vm_compute|].
  apply (bool_decide_unpack (NoDup [1; 2; 3; 4; 5]%N)). by vm_compute.
Defined.

(** ** Tags of an object and statistics *)

Lemma GetObjectTags_loop_filter objectID entries acc ts :
  GetObjectTags_loop objectID entries acc ts
  = acc ++ (filter (λ e, roaring.Contains e.2 objectID (heap ts) = true)
              entries).*1.
Proof.
  revert acc. induction entries as [|[tag bitmap] entries IH]; intros acc.
  - cbn. by rewrite (right_id_L [] (++)).
  - cbn [GetObjectTags_loop]. rewrite filter_cons. cbn [snd].
    destruct (roaring.Contains bitmap objectID (heap ts)) eqn:Hc.
    + rewrite decide_True by done. rewrite IH, fmap_cons. cbn [fst].
      by rewrite <-(assoc_L (++)).
    + rewrite decide_False by done. apply IH.
Qed.

(** X15. [GetObjectTags] returns no error and lists, each once, exactly
    the tags that [HasTag] reports for the object, in the order in which
    [GetAllTags] lists them. *)
Theorem X15_GetObjectTags range objectID ts :
  go_range range →
  (GetObjectTags range objectID ts).2 = None ∧
  (∀ tag, tag ∈ (GetObjectTags range objectID ts).1 ↔
          HasTag objectID tag ts = true) ∧
  NoDup (GetObjectTags range objectID ts).1 ∧
  (GetObjectTags range objectID ts).1 `sublist_of` GetAllTags range ts.
Proof.
  intros Hrange. unfold GetObjectTags. cbn [fst snd].
  rewrite GetObjectTags_loop_filter. cbn [app].
  assert ((filter (λ e, roaring.Contains e.2 objectID (heap ts) = true)
             (range _ (tags ts))).*1 `sublist_of` GetAllTags range ts) as Hsub
    by (unfold GetAllTags; apply fmap_sublist, sublist_filter).
  split; [done|]. split; [|split; [|done]].
  - intros tag. unfold HasTag. split.
    + intros ([tag' bitmap] & -> & [Hc Hin]%list_elem_of_filter)%list_elem_of_fmap.
      rewrite (Hrange _ (tags ts)) in Hin. apply elem_of_map_to_list in Hin.
      cbn [fst snd] in *. by rewrite Hin.
    + destruct (tags ts !! tag) as [bitmap|] eqn:Hp; [|done]. intros Hc.
      apply list_elem_of_fmap. exists (tag, bitmap). split; [done|].
      apply list_elem_of_filter. split; [done|].
      rewrite (Hrange _ (tags ts)). by apply elem_of_map_to_list.
  - refine (sublist_NoDup _ _ _ Hsub). by apply go_range_NoDup.
Qed.

Lemma X15_witness :
  (∀ tag, tag ∈ (GetObjectTags mapOrder 1 sample).1 ↔
          HasTag 1 tag sample = true) ∧
  NoDup (GetObjectTags mapOrder 1 sample).1.
Proof.
  destruct (X15_GetObjectTags mapOrder 1 sample mapOrder_ok)
    as (_ & Hiff & Hnd & _).
  by split.
Defined.

Example GetObjectTags_sample :
  GetObjectTags mapOrder 1 sample = (["male"; "vip"], None) ∧
  GetObjectTags mapOrder 7 sample = ([], None).
Proof. by vm_compute. Qed.

Section statistics.
Variable GetSizeInBytes : nat → N.

Lemma GetStats_loop_spec entries stats maxCardinality ts :
  LargestTagSize stats = maxCardinality →
  (TotalObjects stats < 2 ^ 64)%N →
  TotalTags (GetStats_loop GetSizeInBytes entries stats maxCardinality ts)
    = TotalTags stats ∧
  UniqueObjects (GetStats_loop GetSizeInBytes entries stats maxCardinality ts)
    = UniqueObjects stats ∧
  TotalObjects (GetStats_loop GetSizeInBytes entries stats maxCardinality ts)
    = ((TotalObjects stats +
        N.of_nat (sum_list_with (λ e, size (roaring.deref (heap ts) e.2))
                    entries)) mod 2 ^ 64)%N ∧
  LargestTagSize (GetStats_loop GetSizeInBytes entries stats maxCardinality ts)
    = N.max maxCardinality
        (N.of_nat (max_list_with (λ e, size (roaring.deref (heap ts) e.2))
                     entries)) ∧
  (LargestTag (GetStats_loop GetSizeInBytes entries stats maxCardinality ts)
     = LargestTag stats ∧
   LargestTagSize (GetStats_loop GetSizeInBytes entries stats maxCardinality ts)
     = maxCardinality
   ∨
   ∃ tag bitmap,
     (tag, bitmap) ∈ entries ∧
     LargestTag (GetStats_loop GetSizeInBytes entries stats maxCardinality ts)
       = tag ∧
     N.of_nat (size (roaring.deref (heap ts) bitmap))
       = LargestTagSize
           (GetStats_loop GetSizeInBytes entries stats maxCardinality ts) ∧
     (maxCardinality
      < LargestTagSize
          (GetStats_loop GetSizeInBytes entries stats maxCardinality ts))%N).
Proof.
  revert stats maxCardinality.
  induction entries as [|[tag bitmap] entries IH]; intros stats maxC Hmax Hlt.
  - cbn. rewrite N.add_0_r, N.mod_small by done. rewrite N.max_l by lia.
    split_and!; try done. by left.
  - cbn [GetStats_loop sum_list_with max_list_with snd].
    unfold roaring.GetCardinality.
    set (c := size (roaring.deref (heap ts) bitmap)).
    assert (uint64_add (TotalObjects stats) (N.of_nat c) < 2 ^ 64)%N as Hlt'
      by (apply N.mod_upper_bound; lia).
    assert (∀ rest : nat,
      ((uint64_add (TotalObjects stats) (N.of_nat c) + N.of_nat rest)
         mod 2 ^ 64
       = (TotalObjects stats + N.of_nat (c + rest)) mod 2 ^ 64)%N) as Hsum.
    { intros rest. unfold uint64_add.
      rewrite N.Div0.add_mod_idemp_l. f_equal. lia. }
    destruct (N.ltb_spec maxC (N.of_nat c)) as [Hgt|Hle].
    + edestruct (IH {| TotalTags := TotalTags stats;
                       TotalObjects := uint64_add (TotalObjects stats)
                                         (N.of_nat c);
                       UniqueObjects := UniqueObjects stats;
                       MemoryUsage := uint64_add (MemoryUsage stats)
                                        (GetSizeInBytes bitmap);
                       LargestTag := tag;
                       LargestTagSize := N.of_nat c |} (N.of_nat c))
        as (Htt & Huo & Hto & Hls & Hlt2); [done|done|].
      cbn [TotalTags UniqueObjects TotalObjects MemoryUsage LargestTag
           LargestTagSize] in *.
      split; [done|]. split; [done|]. split; [by rewrite Hto, Hsum|].
      split; [rewrite Hls; lia|]. right.
      destruct Hlt2
        as [[Htag Hsize]|(tag' & bitmap' & Hin & Htag & Hsize & Hup)].
      * exists tag, bitmap. split; [apply elem_of_cons; by left|].
        split; [done|]. split; [done|lia].
      * exists tag', bitmap'. split; [apply elem_of_cons; by right|].
        split; [done|]. split; [done|lia].
    + edestruct (IH {| TotalTags := TotalTags stats;
                       TotalObjects := uint64_add (TotalObjects stats)
                                         (N.of_nat c);
                       UniqueObjects := UniqueObjects stats;
                       MemoryUsage := uint64_add (MemoryUsage stats)
                                        (GetSizeInBytes bitmap);
                       LargestTag := LargestTag stats;
                       LargestTagSize := LargestTagSize stats |} maxC)
        as (Htt & Huo & Hto & Hls & Hlt2); [done|done|].
      cbn [TotalTags UniqueObjects TotalObjects MemoryUsage LargestTag
           LargestTagSize] in *.
      split; [done|]. split; [done|]. split; [by rewrite Hto, Hsum|].
      split; [rewrite Hls; lia|].
      destruct Hlt2
        as [[Htag Hsize]|(tag' & bitmap' & Hin & Htag & Hsize & Hup)].
      * by left.
      * right. exists tag', bitmap'.
        split; [apply elem_of_cons; by right|]. by split.
Qed.

Lemma sum_list_with_index ts (entries : list (string * nat)) :
  sum_list_with (λ e, size (roaring.deref (heap ts) e.2)) entries
  = sum_list_with (λ e : string * gset N, size e.2)
      (prod_map id (roaring.deref (heap ts)) <$> entries).
Proof. induction entries as [|[tag b] entries IH]; [done|]. cbn. by rewrite IH. Qed.

Lemma max_list_with_index ts (entries : list (string * nat)) :
  max_list_with (λ e, size (roaring.deref (heap ts) e.2)) entries
  = max_list_with (λ e : string * gset N, size e.2)
      (prod_map id (roaring.deref (heap ts)) <$> entries).
Proof. induction entries as [|[tag b] entries IH]; [done|]. cbn. by rewrite IH. Qed.

Lemma max_list_with_ge {A} (f : A → nat) l x :
  x ∈ l → f x ≤ max_list_with f l.
Proof.
  induction l as [|y l IH]; [by intros ?%elem_of_nil|].
  intros [->|Hin]%elem_of_cons; cbn; [lia|]. specialize (IH Hin). lia.
Qed.

Lemma max_list_with_le {A} (f : A → nat) l n :
  (∀ x, x ∈ l → f x ≤ n) → max_list_with f l ≤ n.
Proof.
  induction l as [|y l IH]; intros Hall; cbn; [lia|].
  assert (f y ≤ n) by (apply Hall, elem_of_cons; by left).
  assert (max_list_with f l ≤ n)
    by (apply IH; intros x Hin; apply Hall, elem_of_cons; by right).
  lia.
Qed.

(** The aggregates of [GetStats] over the index, whatever the order in
    which the tags are visited. *)
Lemma GetStats_spec range ts :
  go_range range →
  TotalTags (GetStats range GetSizeInBytes ts) = Z.of_nat (size (index ts)) ∧
  UniqueObjects (GetStats range GetSizeInBytes ts)
    = N.of_nat (size (universe ts)) ∧
  TotalObjects (GetStats range GetSizeInBytes ts)
    = (N.of_nat (sum_list_with (λ e : string * gset N, size e.2)
                   (map_to_list (index ts))) mod 2 ^ 64)%N ∧
  LargestTagSize (GetStats range GetSizeInBytes ts)
    = N.of_nat (max_list_with (λ e : string * gset N, size e.2)
                  (map_to_list (index ts))) ∧
  (LargestTag (GetStats range GetSizeInBytes ts) = "" ∧
   LargestTagSize (GetStats range GetSizeInBytes ts) = 0%N
   ∨
   ∃ s, index ts !! LargestTag (GetStats range GetSizeInBytes ts) = Some s ∧
        N.of_nat (size s) = LargestTagSize (GetStats range GetSizeInBytes ts) ∧
        LargestTagSize (GetStats range GetSizeInBytes ts) ≠ 0%N).
Proof.
  intros Hrange. unfold GetStats.
  destruct (GetStats_loop_spec (range _ (tags ts))
    {| TotalTags := Z.of_nat (size (tags ts));
       TotalObjects := 0;
       UniqueObjects := roaring.GetCardinality (allObjects ts) (heap ts);
       MemoryUsage := 0;
       LargestTag := "";
       LargestTagSize := 0 |} 0%N ts eq_refl)
    as (Htt & Huo & Hto & Hls & Hlt); [done|].
  cbn [TotalTags UniqueObjects TotalObjects MemoryUsage LargestTag
       LargestTagSize] in *.
  assert (prod_map id (roaring.deref (heap ts)) <$> range _ (tags ts)
          ≡ₚ map_to_list (index ts)) as Hperm.
  { unfold index. rewrite map_to_list_fmap. by rewrite (Hrange _ (tags ts)). }
  rewrite sum_list_with_index, Hperm in Hto.
  rewrite max_list_with_index, Hperm, N.max_r in Hls by lia.
  split; [by rewrite Htt; unfold index; rewrite map_size_fmap|].
  split; [done|]. split; [by rewrite Hto|]. split; [done|].
  destruct Hlt as [[Htag Hsize]|(tag & bitmap & Hin & Htag & Hsize & Hup)].
  - by left.
  - right. exists (roaring.deref (heap ts) bitmap).
    rewrite (Hrange _ (tags ts)) in Hin. apply elem_of_map_to_list in Hin.
    rewrite Htag. split; [by apply index_lookup_Some|]. split; [done|lia].
Qed.

End statistics.

(** X16. [GetStats] reports the number of tags, the cardinality of
    [allObjects], the sum of the cardinalities of the tags (as a
    [uint64]), and as [LargestTagSize] the greatest cardinality of a
    tag: no tag is larger, [LargestTag] is a tag of that cardinality,
    and when every tag is empty (or there is none) [LargestTag] is the
    empty string and the size 0.  None of this depends on the order in
    which the tags are visited. *)
Theorem X16_GetStats range GetSizeInBytes ts :
  go_range range →
  TotalTags (GetStats range GetSizeInBytes ts) = Z.of_nat (size (index ts)) ∧
  UniqueObjects (GetStats range GetSizeInBytes ts)
    = N.of_nat (size (universe ts)) ∧
  TotalObjects (GetStats range GetSizeInBytes ts)
    = (N.of_nat (sum_list_with (λ e : string * gset N, size e.2)
                   (map_to_list (index ts))) mod 2 ^ 64)%N ∧
  (∀ tag s, index ts !! tag = Some s →
     (N.of_nat (size s) ≤ LargestTagSize (GetStats range GetSizeInBytes ts))%N) ∧
  (LargestTagSize (GetStats range GetSizeInBytes ts) ≠ 0%N →
   ∃ s, index ts !! LargestTag (GetStats range GetSizeInBytes ts) = Some s ∧
        N.of_nat (size s)
        = LargestTagSize (GetStats range GetSizeInBytes ts)) ∧
  (LargestTagSize (GetStats range GetSizeInBytes ts) = 0%N →
   LargestTag (GetStats range GetSizeInBytes ts) = "").
Proof.
  intros Hrange.
  destruct (GetStats_spec GetSizeInBytes range ts Hrange)
    as (Htt & Huo & Hto & Hls & Hlt).
  split; [done|]. split; [done|]. split; [done|]. split; [|split].
  - intros tag s Hs. rewrite Hls.
    pose proof (max_list_with_ge (λ e : string * gset N, size e.2)
                  (map_to_list (index ts)) (tag, s)) as Hge.
    cbn [snd] in Hge. specialize (Hge (proj2 (elem_of_map_to_list _ _ _) Hs)).
    lia.
  - intros Hne. destruct Hlt as [[_ Hz]|(s & Hs & Hsize & _)]; [done|].
    by exists s.
  - intros Hz. by destruct Hlt as [[Htag _]|(s & _ & _ & Hne)].
Qed.

Lemma X16_witness :
  TotalTags (GetStats mapOrder (λ _, 8%N) sample) = Z.of_nat (size (index sample)) ∧
  ∃ s, index sample !! LargestTag (GetStats mapOrder (λ _, 8%N) sample) = Some s ∧
       N.of_nat (size s) = LargestTagSize (GetStats mapOrder (λ _, 8%N) sample).
Proof.
  destruct (X16_GetStats mapOrder (λ _, 8%N) sample mapOrder_ok)
    as (Htt & _ & _ & _ & Hlargest & _).
  split; [exact Htt|]. apply Hlargest. by vm_compute.
Defined.

(** The statistics of the test [TestTagSystem_GetStats]: vip holds
    three objects and male two. *)
Example GetStats_test :
  let ts :=
    foldl (λ ts c, exec mapOrder c ts) (New DefaultConfig)
      [call_AddTag 1 "vip"; call_AddTag 2 "vip"; call_AddTag 3 "vip";
       call_AddTag 1 "male"; call_AddTag 2 "male"] in
  let stats := GetStats mapOrder (λ _, 8%N) ts in
  TotalTags stats = 2%Z ∧ UniqueObjects stats = 3%N ∧
  TotalObjects stats = 5%N ∧
  LargestTag stats = "vip" ∧ LargestTagSize stats = 3%N.
Proof. by vm_compute. Qed.

(** X17. At a reachable state the largest tag that [GetStats] reports
    is no larger than its count of unique objects. *)
Theorem X17_GetStats_largest_within_unique `{Serialization} range
    GetSizeInBytes ts :
  go_range range → reachable ts →
  (LargestTagSize (GetStats range GetSizeInBytes ts)
   ≤ UniqueObjects (GetStats range GetSizeInBytes ts))%N.
Proof.
  intros Hrange [_ Hs]%reachable_inv.
  destruct (GetStats_spec GetSizeInBytes range ts Hrange)
    as (_ & -> & _ & -> & _).
  enough (max_list_with (λ e : string * gset N, size e.2)
            (map_to_list (index ts)) ≤ size (universe ts)) by lia.
  apply max_list_with_le. intros [tag s] Hin.
  apply elem_of_map_to_list in Hin. cbn. apply subseteq_size.
  by apply (Hs tag s).
Qed.

Lemma X17_witness :
  (LargestTagSize (GetStats mapOrder (λ _, 8%N) sample)
   ≤ UniqueObjects (GetStats mapOrder (λ _, 8%N) sample))%N.
Proof.
  apply X17_GetStats_largest_within_unique;
    [apply mapOrder_ok|apply sample_reachable].
Defined.

(** ** What the calls never do *)

Lemma keeps_refl ts : keeps ts ts.
Proof. by split. Qed.

Lemma keeps_trans ts1 ts2 ts3 : keeps ts1 ts2 → keeps ts2 ts3 → keeps ts1 ts3.
Proof. intros [H1 H2] [H3 H4]. split; [by etrans|]. intros tag ?. by apply H4, H2. Qed.

Lemma keeps_extends ts ts' : wf ts → extends ts ts' → keeps ts ts'.
Proof.
  intros Hwf Hext. unfold keeps.
  by rewrite (extends_index ts ts'), (extends_universe ts ts').
Qed.

Lemma keeps_insert ts ts' tag s :
  index ts' = <[tag := s]> (index ts) → universe ts ⊆ universe ts' →
  keeps ts ts'.
Proof.
  intros Hidx Huni. split; [done|]. intros tag' Hsome. rewrite Hidx.
  apply lookup_insert_is_Some.
  destruct (decide (tag = tag')); [by left|by right].
Qed.

Lemma addToTags_is_Some objectID idx tagList tag :
  is_Some (idx !! tag) → is_Some (addToTags objectID idx tagList !! tag).
Proof.
  revert idx. induction tagList as [|tag' tagList IH]; intros idx Hsome;
    [done|].
  rewrite addToTags_cons. apply IH, lookup_insert_is_Some.
  destruct (decide (tag' = tag)); [by left|by right].
Qed.

Section loading_keeps.
Context `{Serialization}.

Lemma loadBitmap_keeps tag buf ts :
  wf ts → wf (loadBitmap tag buf ts).1 ∧ keeps ts (loadBitmap tag buf ts).1.
Proof.
  intros Hwf. destruct (ReadFrom buf) as [s|] eqn:Hr.
  - destruct (loadBitmap_ok tag buf s ts Hwf Hr) as (_ & Hwf' & Hi & Hu & _).
    split; [done|]. apply (keeps_insert _ _ tag s Hi). rewrite Hu. set_solver.
  - destruct (loadBitmap_fail tag buf ts Hwf Hr) as (_ & Hext).
    split; [by eapply extends_wf|by apply keeps_extends].
Qed.

Lemma LoadSnapshot_loop_keeps entries ts :
  wf ts →
  wf (LoadSnapshot_loop entries ts).1 ∧ keeps ts (LoadSnapshot_loop entries ts).1.
Proof.
  revert ts. induction entries as [|[tag buf] entries IH]; intros ts Hwf.
  { split; [done|apply keeps_refl]. }
  cbn [LoadSnapshot_loop].
  destruct (loadBitmap_keeps tag buf ts Hwf) as (Hwf1 & Hk1).
  destruct (loadBitmap tag buf ts) as [ts1 [err|]]; cbn [fst snd] in *; [done|].
  destruct (IH ts1 Hwf1) as (Hwf2 & Hk2). split; [done|].
  by eapply keeps_trans.
Qed.

Lemma RecoverFromRedis_loop_keeps rdb keys errs ts :
  wf ts →
  wf (RecoverFromRedis_loop rdb keys errs ts).1 ∧
  keeps ts (RecoverFromRedis_loop rdb keys errs ts).1.
Proof.
  revert errs ts. induction keys as [|key keys IH]; intros errs ts Hwf.
  { split; [done|apply keeps_refl]. }
  cbn [RecoverFromRedis_loop].
  destruct (string_from _ key) as [tag|]; [|split; [done|apply keeps_refl]].
  destruct (Get rdb key) as [|msg|data].
  - by apply IH.
  - by apply IH.
  - destruct (loadBitmap_keeps tag data ts Hwf) as (Hwf1 & Hk1).
    destruct (loadBitmap tag data ts) as [ts1 [err|]]; cbn [fst snd] in *.
    + destruct (IH (errs ++ ["tag " +:+ tag +:+ ": " +:+ err]) ts1 Hwf1)
        as (Hwf2 & Hk2).
      split; [done|]. by eapply keeps_trans.
    + destruct (IH errs ts1 Hwf1) as (Hwf2 & Hk2).
      split; [done|]. by eapply keeps_trans.
Qed.

Lemma exec_universe_grows range c ts :
  wf ts → universe ts ⊆ universe (exec range c ts).
Proof.
  intros Hwf.
  assert (∀ r s, returns ts r s → universe ts ⊆ universe r.1) as Hq.
  { intros r s (Hext & _). by rewrite (extends_universe ts r.1). }
  destruct c; cbn [exec].
  - destruct (AddTag_spec objectID tag ts Hwf) as (_ & _ & -> & _). set_solver.
  - by destruct (RemoveTag_spec objectID tag ts Hwf) as (_ & _ & -> & _).
  - destruct (BatchAddTags_spec objectID tagList ts Hwf) as (_ & _ & -> & _).
    set_solver.
  - destruct (BatchAddObjectsToTag_spec objectIDs tag ts Hwf)
      as (_ & _ & -> & _).
    set_solver.
  - eapply Hq, Query_returns.
  - eapply Hq. rewrite QueryAnd_queryAndLocked. by apply queryAndLocked_returns.
  - eapply Hq. rewrite QueryOr_queryOrLocked. by apply queryOrLocked_returns.
  - eapply Hq. by apply QueryNot_returns.
  - eapply Hq. by apply QueryNotInSystem_returns.
  - destruct (ComplexQuery_spec ops ts Hwf) as (Hext & _).
    by rewrite (extends_universe ts _ Hwf Hext).
  - eapply Hq. by apply QueryDifference_returns.
  - eapply Hq. by apply QueryXor_returns.
  - unfold LoadSnapshot. destruct (os !! filePath) as [jsonData|]; [|done].
    destruct (json_Unmarshal jsonData) as [data|]; [|done].
    by destruct (LoadSnapshot_loop_keeps (range _ data) ts Hwf) as (_ & ? & _).
  - unfold RecoverFromRedis.
    destruct (Scan rdb _) as [scanned [err|]]; [done|].
    pose proof (RecoverFromRedis_loop_keeps rdb
      (filter (λ key, key ≠ KeyPrefix (config ts) +:+ "_meta") scanned)
      [] ts Hwf) as (_ & Hk & _).
    destruct (RecoverFromRedis_loop rdb _ [] ts) as [ts1 [errs [msg|]]];
      [done|].
    by case_bool_decide.
  - unfold LoadTagFromRedis. destruct (Get rdb _) as [|msg|data]; [done..|].
    destruct (loadBitmap_keeps tag data ts Hwf) as (_ & Hk & _).
    by destruct (loadBitmap tag data ts) as [ts1 [err|]].
Qed.

Lemma exec_keeps_tags range c ts tag :
  wf ts → (∀ objectID tag', c ≠ call_RemoveTag objectID tag') →
  is_Some (index ts !! tag) → is_Some (index (exec range c ts) !! tag).
Proof.
  intros Hwf Hc.
  assert (∀ r s, returns ts r s → keeps ts r.1) as Hq.
  { intros r s (Hext & _). by apply keeps_extends. }
  enough (keeps ts (exec range c ts)) as [_ Hk] by apply Hk.
  destruct c; cbn [exec].
  - destruct (AddTag_spec objectID tag0 ts Hwf) as (_ & Hi & Hu & _).
    apply (keeps_insert _ _ _ _ Hi). rewrite Hu. set_solver.
  - by destruct (Hc objectID tag0).
  - destruct (BatchAddTags_spec objectID tagList ts Hwf) as (_ & Hi & Hu & _).
    split; [rewrite Hu; set_solver|]. intros tag' Hsome. rewrite Hi.
    by apply addToTags_is_Some.
  - destruct (BatchAddObjectsToTag_spec objectIDs tag0 ts Hwf)
      as (_ & Hi & Hu & _).
    apply (keeps_insert _ _ _ _ Hi). rewrite Hu. set_solver.
  - eapply Hq, Query_returns.
  - eapply Hq. rewrite QueryAnd_queryAndLocked. by apply queryAndLocked_returns.
  - eapply Hq. rewrite QueryOr_queryOrLocked. by apply queryOrLocked_returns.
  - eapply Hq. by apply QueryNot_returns.
  - eapply Hq. by apply QueryNotInSystem_returns.
  - destruct (ComplexQuery_spec ops ts Hwf) as (Hext & _).
    by apply keeps_extends.
  - eapply Hq. by apply QueryDifference_returns.
  - eapply Hq. by apply QueryXor_returns.
  - unfold LoadSnapshot.
    destruct (os !! filePath) as [jsonData|]; [|apply keeps_refl].
    destruct (json_Unmarshal jsonData) as [data|]; [|apply keeps_refl].
    by destruct (LoadSnapshot_loop_keeps (range _ data) ts Hwf) as (_ & ?).
  - unfold RecoverFromRedis.
    destruct (Scan rdb _) as [scanned [err|]]; [apply keeps_refl|].
    pose proof (RecoverFromRedis_loop_keeps rdb
      (filter (λ key, key ≠ KeyPrefix (config ts) +:+ "_meta") scanned)
      [] ts Hwf) as (_ & Hk).
    destruct (RecoverFromRedis_loop rdb _ [] ts) as [ts1 [errs [msg|]]];
      [done|].
    by case_bool_decide.
  - unfold LoadTagFromRedis.
    destruct (Get rdb _) as [|msg|data]; [apply keeps_refl..|].
    destruct (loadBitmap_keeps tag0 data ts Hwf) as (_ & Hk).
    by destruct (loadBitmap tag0 data ts) as [ts1 [err|]].
Qed.

End loading_keeps.

(** C2, as amended.  At every reachable state the universe held by
    [allObjects] contains the union of every tag's bitmap.  It is only
    ever grown: after any public call it contains what it held before,
    and [RemoveTag] leaves it as it was, so an object whose tag is
    removed stays in it. *)
Theorem C2_allObjects_contains_tags `{Serialization} ts :
  reachable ts →
  unionOfTags (index ts) ⊆ universe ts ∧
  (∀ range c, universe ts ⊆ universe (exec range c ts)) ∧
  (∀ objectID tag,
     universe (RemoveTag objectID tag ts).1 = universe ts ∧
     (HasTag objectID tag ts = true →
      objectID ∈ universe (RemoveTag objectID tag ts).1)).
Proof.
  intros [Hwf Hs]%reachable_inv. split; [|split].
  - intros x (tag & s & Hl & Hx)%elem_of_unionOfTags. by apply (Hs tag s Hl).
  - intros range c. by apply exec_universe_grows.
  - intros objectID tag.
    destruct (RemoveTag_spec objectID tag ts Hwf) as (_ & _ & Huni & _).
    split; [done|]. rewrite Huni, HasTag_tagSet.
    intros Hhas%bool_decide_eq_true_1. by apply (sound_tagSet ts tag).
Qed.

Lemma C2_witness :
  unionOfTags (index sample) ⊆ universe sample ∧
  universe sample
    ⊆ universe (exec mapOrder (call_RemoveTag 1 "vip") sample) ∧
  1%N ∈ universe (RemoveTag 1 "vip" sample).1.
Proof.
  destruct (C2_allObjects_contains_tags sample sample_reachable)
    as (Hsub & Hgrow & Hrem).
  split; [exact Hsub|]. split; [apply Hgrow|].
  apply (Hrem 1%N "vip"). by vm_compute.
Defined.

(** C2, as stated, fails: after [AddTag(1, "vip")] and
    [RemoveTag(1, "vip")] no tag is left, yet [allObjects] still holds
    object 1. *)
Lemma C2_counterexample :
  let ts :=
    foldl (λ ts c, exec mapOrder c ts) (New DefaultConfig)
      [call_AddTag 1 "vip"; call_RemoveTag 1 "vip"] in
  reachable ts ∧
  index ts = ∅ ∧ unionOfTags (index ts) = ∅ ∧ universe ts = {[1%N]} ∧
  universe ts ≠ unionOfTags (index ts).
Proof.
  cbv zeta. split; [apply foldl_exec_reachable; constructor|].
  split; [by vm_compute|]. split; [by vm_compute|]. split; [by vm_compute|].
  vm_compute. discriminate.
Qed.

(** X18. No public call ever takes an object out of [allObjects]: the
    universe after a call contains the universe before it, and along
    any sequence of calls from [New] an object that has been given a tag
    stays in the universe for good. *)
Theorem X18_universe_only_grows `{Serialization} range c ts calls objectID
    tag :
  go_range range → reachable ts →
  universe ts ⊆ universe (exec range c ts) ∧
  (HasTag objectID tag ts = true →
   objectID ∈ universe (foldl (λ ts c, exec range c ts) ts calls)).
Proof.
  intros Hrange Hreach. split.
  - apply exec_universe_grows. by apply reachable_inv.
  - intros Hhas. rewrite HasTag_tagSet in Hhas.
    apply bool_decide_eq_true_1 in Hhas.
    assert (objectID ∈ universe ts) as Hin
      by (by apply (sound_tagSet ts tag); [apply reachable_inv|]).
    clear Hhas. revert ts Hreach Hin.
    induction calls as [|c' calls IH]; intros ts Hreach Hin; [done|].
    cbn [foldl]. apply IH; [by constructor|].
    apply (exec_universe_grows range c' ts); [by apply reachable_inv|done].
Qed.

Lemma X18_witness :
  universe sample ⊆ universe (exec mapOrder (call_RemoveTag 1 "vip") sample) ∧
  1%N ∈ universe
          (foldl (λ ts c, exec mapOrder c ts) sample
             [call_RemoveTag 1 "vip"; call_RemoveTag 1 "male"]).
Proof.
  destruct (X18_universe_only_grows mapOrder (call_RemoveTag 1 "vip") sample
              [call_RemoveTag 1 "vip"; call_RemoveTag 1 "male"] 1 "vip"
              mapOrder_ok sample_reachable) as (Hgrow & Hstay).
  split; [exact Hgrow|]. apply Hstay. by vm_compute.
Defined.

(** X19. A query never changes the index: after any of the query
    methods the tag map, [allObjects] and every bitmap the system held
    are as before, so the index and the universe are the same. *)
Theorem X19_queries_leave_the_index `{Serialization} range c ts :
  wf ts → is_query c →
  extends ts (exec range c ts) ∧
  index (exec range c ts) = index ts ∧
  universe (exec range c ts) = universe ts.
Proof.
  intros Hwf Hq.
  enough (extends ts (exec range c ts)) as Hext
    by (split; [done|]; split; [by apply extends_index|by apply extends_universe]).
  assert (∀ r s, returns ts r s → extends ts r.1) as Hr by (by intros r s (? & _)).
  destruct c; cbn [exec]; try done.
  - eapply Hr, Query_returns.
  - eapply Hr. rewrite QueryAnd_queryAndLocked. by apply queryAndLocked_returns.
  - eapply Hr. rewrite QueryOr_queryOrLocked. by apply queryOrLocked_returns.
  - eapply Hr. by apply QueryNot_returns.
  - eapply Hr. by apply QueryNotInSystem_returns.
  - by destruct (ComplexQuery_spec ops ts Hwf) as (Hext & _).
  - eapply Hr. by apply QueryDifference_returns.
  - eapply Hr. by apply QueryXor_returns.
Qed.

Lemma X19_witness :
  index (exec mapOrder (call_QueryXor "vip" "male") sample) = index sample ∧
  universe (exec mapOrder (call_QueryXor "vip" "male") sample)
    = universe sample.
Proof.
  destruct (X19_queries_leave_the_index mapOrder (call_QueryXor "vip" "male")
              sample sample_wf I) as (_ & Hidx & Huni).
  by split.
Defined.

(** X20. In every reachable state each tag has a bitmap of its own: the
    pointers of the tag map and [allObjects] are allocated, no two tags
    point to the same bitmap, and no tag points to the bitmap of
    [allObjects]. *)
Theorem X20_reachable_no_sharing `{Serialization} ts :
  reachable ts →
  (∀ tag p, tags ts !! tag = Some p → p < length (heap ts)) ∧
  allObjects ts < length (heap ts) ∧
  (∀ tag1 tag2 p,
     tags ts !! tag1 = Some p → tags ts !! tag2 = Some p → tag1 = tag2) ∧
  (∀ tag, tags ts !! tag ≠ Some (allObjects ts)).
Proof. by intros [[] _]%reachable_inv. Qed.

Lemma X20_witness :
  allObjects sample < length (heap sample) ∧
  (∀ tag1 tag2 p,
     tags sample !! tag1 = Some p → tags sample !! tag2 = Some p →
     tag1 = tag2).
Proof.
  destruct (X20_reachable_no_sharing sample sample_reachable)
    as (_ & Hall & Hinj & _).
  by split.
Defined.

(** X21. Only [RemoveTag] takes a tag out of the index: after any other
    public call every tag that existed still exists. *)
Theorem X21_only_RemoveTag_deletes_tags `{Serialization} range c ts tag :
  wf ts → (∀ objectID tag', c ≠ call_RemoveTag objectID tag') →
  is_Some (index ts !! tag) → is_Some (index (exec range c ts) !! tag).
Proof. apply exec_keeps_tags. Qed.

Lemma X21_witness :
  is_Some (index (exec mapOrder
                    (call_LoadSnapshot "snapshot.json" disk) sample) !! "male").
Proof.
  apply (X21_only_RemoveTag_deletes_tags mapOrder
           (call_LoadSnapshot "snapshot.json" disk) sample "male" sample_wf).
  - intros objectID tag'. discriminate.
  - eexists. by vm_compute.
Defined.

(** ** Further properties of the snapshots *)

Section snapshot_errors.
Context `{Serialization}.

Lemma loadBitmap_error tag buf ts :
  (loadBitmap tag buf ts).2 = None ↔ is_Some (ReadFrom buf).
Proof.
  destruct (ReadFrom buf) as [s|] eqn:Hr.
  - rewrite (loadBitmap_Some tag buf s ts Hr). cbn. split; [by eexists|done].
  - rewrite (loadBitmap_None tag buf ts Hr). cbn.
    split; [done|by intros [? ?]].
Qed.

Lemma LoadSnapshot_loop_error entries ts :
  (LoadSnapshot_loop entries ts).2 = None ↔
  Forall (λ e, is_Some (ReadFrom e.2)) entries.
Proof.
  revert ts. induction entries as [|[tag buf] entries IH]; intros ts.
  - cbn. split; [constructor|done].
  - cbn [LoadSnapshot_loop]. rewrite Forall_cons. cbn [snd].
    rewrite <-(loadBitmap_error tag buf ts).
    destruct (loadBitmap tag buf ts) as [ts1 [err|]]; cbn [fst snd].
    + split; [done|by intros [? _]].
    + rewrite IH. split; [by split|by intros [_ ?]].
Qed.

Lemma LoadSnapshot_loop_app pre post ts :
  (LoadSnapshot_loop pre ts).2 = None →
  LoadSnapshot_loop (pre ++ post) ts
  = LoadSnapshot_loop post (LoadSnapshot_loop pre ts).1.
Proof.
  revert ts. induction pre as [|[tag buf] pre IH]; intros ts Herr; [done|].
  cbn [app LoadSnapshot_loop] in *.
  destruct (loadBitmap tag buf ts) as [ts1 [err|]]; [done|]. by apply IH.
Qed.

End snapshot_errors.

(** X22. [LoadSnapshot] returns no error exactly when the file exists,
    is JSON, and every bitmap in it reads back.  When the file is
    missing or is not JSON the system is left exactly as it was. *)
Theorem X22_LoadSnapshot_errors `{Serialization} range filePath os ts :
  go_range range →
  ((LoadSnapshot range filePath os ts).2 = None ↔
   ∃ jsonData data,
     os !! filePath = Some jsonData ∧ json_Unmarshal jsonData = Some data ∧
     ∀ tag buf, data !! tag = Some buf → is_Some (ReadFrom buf)) ∧
  (os !! filePath = None → (LoadSnapshot range filePath os ts).1 = ts) ∧
  (∀ jsonData, os !! filePath = Some jsonData →
     json_Unmarshal jsonData = None →
     (LoadSnapshot range filePath os ts).1 = ts).
Proof.
  intros Hrange. unfold LoadSnapshot. split; [|split].
  - destruct (os !! filePath) as [jsonData|].
    2:{ split; [done|]. by intros (? & ? & ? & _). }
    destruct (json_Unmarshal jsonData) as [data|] eqn:Hjson.
    2:{ split; [done|]. intros (? & ? & [= <-] & ? & _). congruence. }
    rewrite LoadSnapshot_loop_error, Forall_forall. split.
    + intros Hall. exists jsonData, data. split; [done|]. split; [done|].
      intros tag buf Hin. apply (Hall (tag, buf)).
      rewrite (Hrange _ data). by apply elem_of_map_to_list.
    + intros (? & data' & [= <-] & Hd & Hall) [tag buf] Hin.
      rewrite Hjson in Hd. injection Hd as <-.
      rewrite (Hrange _ data) in Hin. apply elem_of_map_to_list in Hin.
      by apply (Hall tag buf).
  - by intros ->.
  - by intros jsonData -> ->.
Qed.

Lemma X22_witness :
  (LoadSnapshot mapOrder "snapshot.json" disk sample).2 = None ∧
  (LoadSnapshot mapOrder "missing.json" disk sample).1 = sample ∧
  (LoadSnapshot mapOrder "snapshot.json" corrupt_disk sample).2 ≠ None.
Proof.
  destruct (X22_LoadSnapshot_errors mapOrder "snapshot.json" disk sample
              mapOrder_ok) as (Hiff & _).
  destruct (X22_LoadSnapshot_errors mapOrder "missing.json" disk sample
              mapOrder_ok) as (_ & Hmissing & _).
  destruct (X22_LoadSnapshot_errors mapOrder "snapshot.json" corrupt_disk
              sample mapOrder_ok) as (Hiff' & _).
  split; [|split].
  - apply Hiff.
    exists (json_Marshal (WriteTo <$> snapshot)), {[ "vip" := WriteTo {[2%N]} ]}.
    split; [reflexivity|]. split; [vm_compute; reflexivity|].
    intros tag buf [_ <-]%lookup_singleton_Some. by eexists.
  - apply Hmissing. vm_compute; reflexivity.
  - intros Hnone. apply Hiff' in Hnone as (jsonData & data & Hf & Hd & Hall).
    injection Hf as <-. vm_compute in Hd. injection Hd as <-.
    destruct (Hall "bad" None) as [s Hs];
      [vm_compute; reflexivity|discriminate Hs].
Defined.

(** X23. [LoadSnapshot] does not undo what it has loaded: when the
    bitmap of an entry does not read back, the call returns an error and
    the index is what loading the entries visited before that one gives;
    the entries after it are not loaded. *)
Theorem X23_LoadSnapshot_stops_at_first_error `{Serialization}
    (range : ∀ V : Type, gmap string V → list (string * V)) filePath
    os ts jsonData data pre tag buf post :
  wf ts →
  os !! filePath = Some jsonData → json_Unmarshal jsonData = Some data →
  range _ data = pre ++ (tag, buf) :: post →
  Forall (λ e, is_Some (ReadFrom e.2)) pre → ReadFrom buf = None →
  (LoadSnapshot range filePath os ts).2 ≠ None ∧
  index (LoadSnapshot range filePath os ts).1
    = index (LoadSnapshot_loop pre ts).1 ∧
  universe (LoadSnapshot range filePath os ts).1
    = universe (LoadSnapshot_loop pre ts).1.
Proof.
  intros Hwf Hfile Hjson Hrange Hpre Hbad. unfold LoadSnapshot.
  rewrite Hfile, Hjson, Hrange.
  rewrite LoadSnapshot_loop_app by by apply LoadSnapshot_loop_error.
  cbn [LoadSnapshot_loop].
  destruct (LoadSnapshot_loop_keeps pre ts Hwf) as (Hwf1 & _).
  destruct (loadBitmap_fail tag buf _ Hwf1 Hbad) as ([err Herr] & Hext).
  destruct (loadBitmap tag buf (LoadSnapshot_loop pre ts).1) as [ts1 e].
  cbn [fst snd] in *. subst e. cbn [fst snd]. split; [done|].
  split; [by apply extends_index|by apply extends_universe].
Qed.

Lemma X23_witness :
  (LoadSnapshot mapOrder "snapshot.json" corrupt_disk sample).2 ≠ None ∧
  index (LoadSnapshot mapOrder "snapshot.json" corrupt_disk sample).1
    = index (LoadSnapshot_loop [("male", WriteTo {[7%N]})] sample).1.
Proof.
  destruct (X23_LoadSnapshot_stops_at_first_error mapOrder "snapshot.json"
              corrupt_disk sample
              (json_Marshal ({[ "male" := WriteTo {[7%N]}; "bad" := None ]}))
              {[ "male" := WriteTo {[7%N]}; "bad" := None ]}
              [("male", WriteTo {[7%N]})] "bad" None [] sample_wf)
    as (Herr & Hidx & _).
  - vm_compute; reflexivity.
  - vm_compute; reflexivity.
  - vm_compute; reflexivity.
  - repeat constructor. by eexists.
  - reflexivity.
  - by split.
Defined.

(** The state after the failed load of X23: "male" has been replaced by
    {7}, which is also in the universe now. *)
Example LoadSnapshot_partial :
  let after := (LoadSnapshot mapOrder "snapshot.json" corrupt_disk sample).1 in
  index sample !! "male" = Some {[1%N]} ∧
  index after !! "male" = Some {[7%N]} ∧ index after !! "bad" = None ∧
  universe after = {[1%N; 2%N; 7%N]}.
Proof. by vm_compute. Qed.



(** ** Replication to Redis *)

Lemma string_from_app prefix tag :
  string_from (String.length prefix) (prefix +:+ tag) = Some tag.
Proof. induction prefix as [|a prefix IH]; [by destruct tag|done]. Qed.


Lemma prefix_app prefix key :
  String.prefix prefix key = true ↔ ∃ suffix, key = prefix +:+ suffix.
Proof.
  revert key. induction prefix as [|a prefix IH]; intros key.
  - split; [by exists key|by destruct key].
  - destruct key as [|b key]; cbn.
    + split; [done|by intros [? ?]].
    + destruct (Ascii.ascii_dec a b) as [->|Hne].
      * rewrite IH. split; [intros [suffix ->]; by exists suffix|].
        intros [suffix [= ->]]. by exists suffix.
      * split; [done|]. intros [suffix [= ? ?]]. done.
Qed.

Section replication_facts.
Context `{Serialization}.
Variable range : ∀ V : Type, gmap string V → list (string * V).
Hypothesis range_ok : go_range range.
Variable setErr : string → error.

Lemma loadBitmap_config tag buf ts :
  config (loadBitmap tag buf ts).1 = config ts.
Proof.
  destruct (ReadFrom buf) as [s|] eqn:Hr.
  - by rewrite (loadBitmap_Some tag buf s ts Hr).
  - by rewrite (loadBitmap_None tag buf ts Hr).
Qed.

(** The key of each tag whose [Set] succeeds holds the serialized set
    of the tag; every other key holds what it held. *)
Lemma SaveToRedis_loop_spec entries errs store ts :
  NoDup entries.*1 →
  (∀ tag bitmap,
     (tag, bitmap) ∈ entries →
     setErr (KeyPrefix (config ts) +:+ tag) = None →
     (SaveToRedis_loop setErr entries errs store ts).1
       !! (KeyPrefix (config ts) +:+ tag)
     = Some (roaring_WriteTo bitmap (heap ts))) ∧
  (∀ key,
     (∀ tag, tag ∈ entries.*1 → key = KeyPrefix (config ts) +:+ tag →
             setErr key ≠ None) →
     (SaveToRedis_loop setErr entries errs store ts).1 !! key = store !! key) ∧
  ((SaveToRedis_loop setErr entries errs store ts).2 = [] ↔
   errs = [] ∧
   ∀ tag, tag ∈ entries.*1 → setErr (KeyPrefix (config ts) +:+ tag) = None).
Proof.
  revert errs store.
  induction entries as [|[tag bitmap] entries IH]; intros errs store Hnd.
  { cbn. split; [by intros ? ? ?%elem_of_nil|]. split; [done|].
    split; [intros ->; split; [done|by intros ? ?%elem_of_nil]|by intros [? _]]. }
  rewrite fmap_cons in Hnd. apply NoDup_cons in Hnd as [Hnin Hnd].
  cbn [fst] in Hnin. cbn [SaveToRedis_loop].
  unfold saveTagToRedis, redis_Set.
  destruct (setErr (KeyPrefix (config ts) +:+ tag)) as [err|] eqn:Hset.
  - destruct (IH (errs ++ ["tag " +:+ tag +:+ ": " +:+ err]) store Hnd)
      as (Hok & Hother & Herrs).
    split; [|split].
    + intros tag' bitmap' [[= -> ->]|Hin]%elem_of_cons Hnone; [congruence|].
      by apply Hok.
    + intros key Hkey. apply Hother. intros tag' Hin. apply Hkey.
      rewrite fmap_cons. apply elem_of_cons. by right.
    + rewrite Herrs. split; [by intros [[? ?]%app_eq_nil _]|].
      intros [_ Hall]. exfalso.
      rewrite Hall in Hset; [done|]. rewrite fmap_cons. apply elem_of_cons.
      by left.
  - destruct (IH errs
                (<[KeyPrefix (config ts) +:+ tag :=
                     roaring_WriteTo bitmap (heap ts)]> store) Hnd)
      as (Hok & Hother & Herrs).
    split; [|split].
    + intros tag' bitmap' [[= -> ->]|Hin]%elem_of_cons Hnone; [|by apply Hok].
      rewrite Hother; [by rewrite lookup_insert_eq|].
      intros tag' Hin Heq. apply (inj _) in Heq. by subst.
    + intros key Hkey. rewrite Hother.
      * apply lookup_insert_ne. intros <-.
        apply (Hkey tag); [|done|done]. rewrite fmap_cons.
        apply elem_of_cons. by left.
      * intros tag' Hin. apply Hkey. rewrite fmap_cons. apply elem_of_cons.
        by right.
    + rewrite Herrs. split; intros [-> Hall]; (split; [done|]).
      * intros tag' [->|Hin]%elem_of_cons; [done|by apply Hall].
      * intros tag' Hin. apply Hall. rewrite fmap_cons. apply elem_of_cons.
        by right.
Qed.

Lemma SaveToRedis_spec store ts :
  (∀ tag s,
     index ts !! tag = Some s →
     setErr (KeyPrefix (config ts) +:+ tag) = None →
     (SaveToRedis range setErr store ts).1 !! (KeyPrefix (config ts) +:+ tag)
     = Some (WriteTo s)) ∧
  (∀ key,
     (∀ tag, is_Some (index ts !! tag) →
             key = KeyPrefix (config ts) +:+ tag → setErr key ≠ None) →
     (SaveToRedis range setErr store ts).1 !! key = store !! key) ∧
  ((SaveToRedis range setErr store ts).2 = None ↔
   ∀ tag, is_Some (index ts !! tag) →
          setErr (KeyPrefix (config ts) +:+ tag) = None).
Proof.
  unfold SaveToRedis.
  destruct (SaveToRedis_loop_spec (range _ (tags ts)) [] store ts)
    as (Hok & Hother & Herrs); [by apply go_range_NoDup|].
  destruct (SaveToRedis_loop setErr (range _ (tags ts)) [] store ts)
    as [store' errs]. cbn [fst snd] in *. cbv beta iota.
  assert (∀ tag, tag ∈ (range _ (tags ts)).*1 ↔ is_Some (index ts !! tag))
    as Hdom by (intros tag; by apply (GetAllTags_elem_of range tag ts)).
  assert (∀ (b : bool) (e e' : error),
            (if b then (store', e) else (store', e')).1 = store') as Hfst
    by (by intros []).
  rewrite !Hfst.
  split; [|split].
  - intros tag s Hs Hset. rewrite index_lookup in Hs.
    destruct (tags ts !! tag) as [bitmap|] eqn:Hp; [|done].
    injection Hs as <-. apply (Hok tag bitmap); [|done].
    rewrite (range_ok _ (tags ts)). by apply elem_of_map_to_list.
  - intros key Hkey. apply Hother. intros tag Hin. by apply Hkey, Hdom.
  - assert (errs = [] ↔ ∀ tag, is_Some (index ts !! tag) →
              setErr (KeyPrefix (config ts) +:+ tag) = None) as <-.
    { rewrite Herrs. split; [intros [_ Hall] tag ?; by apply Hall, Hdom|].
      intros Hall. split; [done|]. intros tag ?. by apply Hall, Hdom. }
    case_bool_decide as Hlen; cbn [snd].
    + split; [done|]. intros ->. cbn in Hlen. lia.
    + split; [|done]. intros _. destruct errs; [done|]. cbn in Hlen. lia.
Qed.

Lemma serve_answers prefix store : answers store prefix (serve range prefix store).
Proof.
  split; [|done]. eexists. split; [done|]. intros key.
  rewrite list_elem_of_filter, prefix_app.
  rewrite (range_ok _ store). split.
  - intros [Hp ([key' value] & -> & Hin%elem_of_map_to_list)%list_elem_of_fmap].
    split; [by eexists|done].
  - intros [[value Hv] Hp]. split; [done|]. apply list_elem_of_fmap.
    exists (key, value). split; [done|]. by apply elem_of_map_to_list.
Qed.

End replication_facts.

Section recovery_facts.
Context `{Serialization}.

Lemma RecoverFromRedis_loop_config rdb keys errs ts :
  config (RecoverFromRedis_loop rdb keys errs ts).1 = config ts.
Proof.
  revert errs ts. induction keys as [|key keys IH]; intros errs ts; [done|].
  cbn [RecoverFromRedis_loop].
  destruct (string_from _ key) as [tag|]; [|done].
  destruct (Get rdb key) as [|msg|data]; [done..|].
  pose proof (loadBitmap_config tag data ts) as Hc.
  destruct (loadBitmap tag data ts) as [ts1 [err|]]; cbn [fst] in Hc;
    by rewrite IH.
Qed.




(** When every key is in range and reads back to the set that [m] gives
    for its tag, recovery neither panics nor reports a new error, sets
    exactly the tags of the keys, and adds the recovered sets to the
    universe. *)
Lemma RecoverFromRedis_loop_exact rdb keys errs ts (m : gmap string (gset N)) :
  wf ts →
  (∀ key, key ∈ keys →
     ∃ tag s,
       string_from (String.length (KeyPrefix (config ts))) key = Some tag ∧
       recovered rdb key = Some s ∧ m !! tag = Some s) →
  (RecoverFromRedis_loop rdb keys errs ts).2 = (errs, None) ∧
  (∀ tag,
     index (RecoverFromRedis_loop rdb keys errs ts).1 !! tag
     = if decide (Some tag ∈
                    string_from (String.length (KeyPrefix (config ts)))
                      <$> keys)
       then m !! tag else index ts !! tag) ∧
  (∀ x, x ∈ universe (RecoverFromRedis_loop rdb keys errs ts).1 ↔
        x ∈ universe ts ∨
        ∃ key s, key ∈ keys ∧ recovered rdb key = Some s ∧ x ∈ s).
Proof.
  revert errs ts. induction keys as [|key keys IH]; intros errs ts Hwf Hall.
  { cbn. split; [done|]. split; [done|]. intros x.
    split; [by left|]. intros [?|(? & ? & ?%elem_of_nil & _)]; done. }
  cbn [RecoverFromRedis_loop].
  destruct (Hall key) as (tag0 & s & Htag & Hrec & Hm);
    [apply elem_of_cons; by left|].
  rewrite Htag.
  assert (recovered rdb key = Some s) as Hrec' by done.
  unfold recovered in Hrec. destruct (Get rdb key) as [|msg|data]; [done..|].
  destruct (loadBitmap_ok tag0 data s ts Hwf Hrec)
    as (Herr & Hwf1 & Hidx & Huni & Hcfg).
  destruct (loadBitmap tag0 data ts) as [ts1 err]. cbn [fst snd] in *.
  subst err.
  destruct (IH errs ts1 Hwf1) as (Herrs & Hidx' & Huni').
  { intros key' Hin. rewrite Hcfg. apply Hall, elem_of_cons. by right. }
  rewrite Hcfg in Hidx'.
  split; [done|]. split.
  - intros tag. rewrite Hidx', fmap_cons, Htag.
    destruct (decide (Some tag ∈
                        string_from (String.length (KeyPrefix (config ts)))
                          <$> keys))
      as [Hin|Hnin].
    + rewrite decide_True; [done|]. apply elem_of_cons. by right.
    + rewrite Hidx.
      destruct (decide (tag = tag0)) as [->|Hne].
      * rewrite decide_True by (apply elem_of_cons; by left).
        by rewrite lookup_insert_eq.
      * rewrite decide_False by (intros [[= ?]|?]%elem_of_cons; done).
        by rewrite lookup_insert_ne.
  - intros x. rewrite Huni', Huni, elem_of_union. split.
    + intros [[?|Hx]|(key' & s' & Hin & Hr & Hx)].
      * by left.
      * right. exists key, s. split; [apply elem_of_cons; by left|done].
      * right. exists key', s'. split; [apply elem_of_cons; by right|done].
    + intros [?|(key' & s' & [->|Hin]%elem_of_cons & Hr & Hx)].
      * left. by left.
      * left. right. congruence.
      * right. by exists key', s'.
Qed.

End recovery_facts.

(** X25. Replicating an index to Redis and recovering it into a new
    system gives the same index, hence the same [HasTag], provided that
    every [Set] succeeds, that the store held no key under the prefix
    before, and that no tag is named "_meta" (recovery skips that key). *)
Theorem X25_Redis_round_trip `{Serialization} range setErr store rdb cfg ts :
  go_range range → wf ts →
  (∀ tag, is_Some (index ts !! tag) →
          setErr (KeyPrefix (config ts) +:+ tag) = None) →
  (∀ suffix, store !! (KeyPrefix (config ts) +:+ suffix) = None) →
  index ts !! "_meta" = None →
  KeyPrefix cfg = KeyPrefix (config ts) →
  answers (SaveToRedis range setErr store ts).1 (KeyPrefix (config ts)) rdb →
  (SaveToRedis range setErr store ts).2 = None ∧
  (RecoverFromRedis rdb (New cfg)).2 = returned None ∧
  index (RecoverFromRedis rdb (New cfg)).1 = index ts ∧
  universe (RecoverFromRedis rdb (New cfg)).1 = unionOfTags (index ts) ∧
  ∀ objectID tag,
    HasTag objectID tag (RecoverFromRedis rdb (New cfg)).1
    = HasTag objectID tag ts.
Proof.
  intros Hrange Hwf Hset Hfresh Hmeta Hcfg [(keys & Hscan & Hkeys) Hget].
  destruct (SaveToRedis_spec range Hrange setErr store ts)
    as (Hok & Hother & Herr).
  set (prefix := KeyPrefix (config ts)) in *.
  set (store' := (SaveToRedis range setErr store ts).1) in *.
  assert (∀ key, key ∈ keys →
            ∃ tag s, key = prefix +:+ tag ∧ index ts !! tag = Some s ∧
                     recovered rdb key = Some s) as Hgood.
  { intros key [[value Hv] [suffix ->]]%Hkeys.
    destruct (index ts !! suffix) as [s|] eqn:Hs.
    - exists suffix, s. split; [done|]. split; [done|].
      unfold recovered. rewrite Hget, (Hok suffix s Hs) by (by apply Hset).
      apply ReadFrom_WriteTo.
    - rewrite Hother, Hfresh in Hv; [done|].
      intros tag [s' Hs'] Heq%(inj _). congruence. }
  assert ((RecoverFromRedis rdb (New cfg)).2 = returned None ∧
          (∀ tag, index (RecoverFromRedis rdb (New cfg)).1 !! tag
                  = index ts !! tag) ∧
          (∀ x, x ∈ universe (RecoverFromRedis rdb (New cfg)).1 ↔
                x ∈ unionOfTags (index ts))) as (Hrerr & Hridx & Hruni).
  { unfold RecoverFromRedis. cbn [config New roaring.NewBitmap].
    rewrite Hcfg. fold prefix. rewrite Hscan.
    set (filtered := filter (λ key, key ≠ prefix +:+ "_meta") keys).
    assert (∀ key, key ∈ filtered ↔ key ∈ keys) as Hfiltered.
    { intros key. unfold filtered. rewrite list_elem_of_filter.
      split; [by intros [_ ?]|]. intros Hin. split; [|done].
      destruct (Hgood key Hin) as (tag & s & -> & Hs & _).
      intros Heq%(inj _). congruence. }
    destruct (RecoverFromRedis_loop_exact rdb filtered []
                {| heap := [∅]; tags := ∅; allObjects := 0; config := cfg |}
                (index ts) (New_wf cfg)) as (Herrs & Hidx & Huni).
    { intros key Hin%Hfiltered.
      destruct (Hgood key Hin) as (tag & s & -> & Hs & Hrec).
      exists tag, s. split; [|done]. cbn [config]. rewrite Hcfg. fold prefix.
      apply string_from_app. }
    cbn [config] in Hidx. rewrite Hcfg in Hidx. fold prefix in Hidx.
    destruct (RecoverFromRedis_loop rdb filtered [] _) as [ts' [errs panic]].
    cbn [fst snd] in *. injection Herrs as -> ->. cbn. split; [done|]. split.
    - intros tag. rewrite Hidx. case_decide as Hin; [done|].
      change (index (New cfg) !! tag = index ts !! tag).
      rewrite New_index, lookup_empty.
      destruct (index ts !! tag) as [s|] eqn:Hs; [|done].
      exfalso. apply Hin. apply list_elem_of_fmap. exists (prefix +:+ tag).
      split; [by rewrite string_from_app|].
      apply Hfiltered, Hkeys. split; [|by eexists].
      rewrite (Hok tag s Hs); [by eexists|]. by apply Hset.
    - intros x. rewrite Huni, elem_of_unionOfTags. split.
      + intros [Hx|(key & s & Hin%Hfiltered & Hrec & Hx)].
        { change (x ∈ universe (New cfg)) in Hx. rewrite New_universe in Hx.
          by apply elem_of_empty in Hx. }
        destruct (Hgood key Hin) as (tag & s' & -> & Hs & Hrec').
        exists tag, s. split; [congruence|done].
      + intros (tag & s & Hs & Hx). right. exists (prefix +:+ tag), s.
        assert (prefix +:+ tag ∈ keys) as Hin.
        { apply Hkeys. split; [|by eexists].
          rewrite (Hok tag s Hs); [by eexists|]. by apply Hset. }
        split; [by apply Hfiltered|]. split; [|done].
        destruct (Hgood _ Hin) as (tag' & s' & Heq%(inj _) & Hs' & Hrec).
        congruence. }
  split; [by apply Herr|]. split; [done|].
  assert (index (RecoverFromRedis rdb (New cfg)).1 = index ts) as Hidx
    by (by apply map_eq).
  split; [done|]. split; [by apply set_eq|].
  intros objectID tag. rewrite !HasTag_tagSet. unfold tagSet. by rewrite Hidx.
Qed.

Lemma X25_witness :
  index (RecoverFromRedis
           (serve mapOrder "tags:"
              (SaveToRedis mapOrder (λ _, None) ∅ sample).1)
           (New DefaultConfig)).1 = index sample.
Proof.
  destruct (X25_Redis_round_trip mapOrder (λ _, None) ∅
              (serve mapOrder "tags:"
                 (SaveToRedis mapOrder (λ _, None) ∅ sample).1)
              DefaultConfig sample mapOrder_ok sample_wf)
    as (_ & _ & Hidx & _); try done.
  apply (serve_answers mapOrder mapOrder_ok).
Defined.

(** The proviso of X25 on "_meta": a tag of that name is written by
    [SaveToRedis] and skipped by [RecoverFromRedis]. *)
Example RecoverFromRedis_skips_meta :
  let ts := (AddTag 1 "_meta" (AddTag 1 "vip" (New DefaultConfig)).1).1 in
  let store := (SaveToRedis mapOrder (λ _, None) ∅ ts).1 in
  let back :=
    (RecoverFromRedis (serve mapOrder "tags:" store) (New DefaultConfig)) in
  is_Some (store !! "tags:_meta") ∧ back.2 = returned None ∧
  index back.1 !! "vip" = Some {[1%N]} ∧ index back.1 !! "_meta" = None.
Proof. cbv zeta. split; [eexists; by vm_compute|]. by vm_compute. Qed.



(** With the key prefix "a*b:" a scan for "a*b:*" can find the key
    "ab", which is shorter than the prefix: [RecoverFromRedis] panics
    at that key, after it has loaded the key before it. *)
Example RecoverFromRedis_panics :
  let r := RecoverFromRedis glob_server (New glob_config) in
  r.2 = panicked "runtime error: slice bounds out of range" ∧
  index r.1 = {[ "vip" := {[5%N]} ]}.
Proof. cbv zeta. split; vm_compute; reflexivity. Qed.

(** X27. [SaveToRedis] reports an error exactly when the [Set] of some
    tag fails; all the same, the key of every tag whose [Set] succeeds
    then holds the serialized bitmap of the tag, and no key other than
    those of the tags is written. *)
Theorem X27_SaveToRedis `{Serialization} range setErr store ts :
  go_range range →
  ((SaveToRedis range setErr store ts).2 = None ↔
   ∀ tag, is_Some (index ts !! tag) →
          setErr (KeyPrefix (config ts) +:+ tag) = None) ∧
  (∀ tag s,
     index ts !! tag = Some s →
     setErr (KeyPrefix (config ts) +:+ tag) = None →
     (SaveToRedis range setErr store ts).1 !! (KeyPrefix (config ts) +:+ tag)
     = Some (WriteTo s)) ∧
  (∀ key,
     (∀ tag, is_Some (index ts !! tag) → key ≠ KeyPrefix (config ts) +:+ tag) →
     (SaveToRedis range setErr store ts).1 !! key = store !! key).
Proof.
  intros Hrange.
  destruct (SaveToRedis_spec range Hrange setErr store ts)
    as (Hok & Hother & Herr).
  split; [done|]. split; [done|].
  intros key Hkey. apply Hother. intros tag Hsome Heq. by destruct (Hkey tag).
Qed.

Lemma X27_witness :
  let failVip := λ key : string,
    if decide (key = "tags:vip") then Some "connection reset" else None in
  (SaveToRedis mapOrder failVip ∅ sample).2 ≠ None ∧
  (SaveToRedis mapOrder failVip ∅ sample).1 !! "tags:male"
    = Some (WriteTo {[1%N]}).
Proof.
  cbv zeta.
  destruct (X27_SaveToRedis mapOrder
              (λ key : string,
                 if decide (key = "tags:vip") then Some "connection reset"
                 else None) ∅ sample mapOrder_ok) as (Herr & Hok & _).
  split.
  - intros Hnone. specialize (proj1 Herr Hnone "vip"). cbn.
    intros Hvip. discriminate Hvip. eexists. by vm_compute.
  - apply (Hok "male" {[1%N]}); by vm_compute.
Defined.

(** X28. A tag written with [SaveTagToRedis] and read with
    [LoadTagFromRedis] into a system with the same key prefix arrives
    with the same set: it replaces what the tag held there and is added
    to the universe.  [SaveTagToRedis] of a tag that does not exist
    writes nothing and returns an error; [LoadTagFromRedis] of a key
    the store does not hold changes nothing and returns an error. *)
Theorem X28_single_tag_round_trip `{Serialization} setErr store rdb tag ts ts2 :
  wf ts2 → KeyPrefix (config ts2) = KeyPrefix (config ts) →
  answers (SaveTagToRedis setErr tag store ts).1 (KeyPrefix (config ts)) rdb →
  (∀ s, index ts !! tag = Some s →
        setErr (KeyPrefix (config ts) +:+ tag) = None →
        (SaveTagToRedis setErr tag store ts).2 = None ∧
        (LoadTagFromRedis tag rdb ts2).2 = None ∧
        index (LoadTagFromRedis tag rdb ts2).1 = <[tag := s]> (index ts2) ∧
        universe (LoadTagFromRedis tag rdb ts2).1 = universe ts2 ∪ s) ∧
  (index ts !! tag = None →
   (SaveTagToRedis setErr tag store ts).1 = store ∧
   (SaveTagToRedis setErr tag store ts).2 ≠ None) ∧
  ((SaveTagToRedis setErr tag store ts).1
     !! (KeyPrefix (config ts) +:+ tag) = None →
   (LoadTagFromRedis tag rdb ts2).1 = ts2 ∧
   (LoadTagFromRedis tag rdb ts2).2 ≠ None).
Proof.
  intros Hwf2 Hcfg [_ Hget]. split; [|split].
  - intros s Hs Hset. rewrite index_lookup in Hs.
    unfold SaveTagToRedis, saveTagToRedis, redis_Set in *.
    destruct (tags ts !! tag) as [bitmap|] eqn:Hp; [|done].
    injection Hs as <-. rewrite Hset in *. cbn [fst snd] in *.
    split; [done|]. unfold LoadTagFromRedis. rewrite Hcfg, Hget.
    rewrite lookup_insert_eq.
    destruct (loadBitmap_ok tag (roaring_WriteTo bitmap (heap ts))
                (roaring.deref (heap ts) bitmap) ts2 Hwf2)
      as (Herr & _ & Hidx & Huni & _); [apply ReadFrom_WriteTo|].
    destruct (loadBitmap tag _ ts2) as [ts' err]. cbn [fst snd] in *.
    by subst err.
  - intros Hnone%index_lookup_None. unfold SaveTagToRedis. by rewrite Hnone.
  - intros Hnone. unfold LoadTagFromRedis. by rewrite Hcfg, Hget, Hnone.
Qed.

Lemma X28_witness :
  index (LoadTagFromRedis "vip"
           (serve mapOrder "tags:"
              (SaveTagToRedis (λ _, None) "vip" ∅ sample).1) before).1
    = <["vip" := {[1%N]}]> (index before) ∧
  (SaveTagToRedis (λ _, None) "ghost" ∅ sample).2 ≠ None.
Proof.
  destruct (X28_single_tag_round_trip (λ _, None) ∅
              (serve mapOrder "tags:"
                 (SaveTagToRedis (λ _, None) "vip" ∅ sample).1)
              "vip" sample before before_wf eq_refl
              (serve_answers mapOrder mapOrder_ok _ _)) as (Hok & _).
  destruct (X28_single_tag_round_trip (λ _, None) ∅
              (serve mapOrder "tags:"
                 (SaveTagToRedis (λ _, None) "ghost" ∅ sample).1)
              "ghost" sample before before_wf eq_refl
              (serve_answers mapOrder mapOrder_ok _ _)) as (_ & Habsent & _).
  split.
  - by destruct (Hok {[1%N]}) as (_ & _ & Hidx & _); [by vm_compute..|].
  - apply Habsent. by vm_compute.
Defined.

Lemma complexSet_spec ops ts :
  wf ts → Forall validOp ops →
  (ComplexQuery ops ts).2.2 = None ∧
  complexSet (ComplexQuery ops ts) = intersectAll (partialOf ts <$> ops).
Proof.
  intros Hwf Hvalid.
  destruct (ComplexQuery_spec ops ts Hwf)
    as (_ & [(_ & result & Hr & _ & Hv)|(Hex & _)]).
  - unfold complexSet. by rewrite Hr.
  - by apply Forall_validOp_iff in Hvalid.
Qed.

(** X29. A complex query of one op returns what the query of that kind
    returns: one AND op gives the result of [QueryAnd] on its tags, one
    OR op that of [QueryOr], and one NOT op that of [QueryNotInSystem]
    on its tag. *)
Theorem X29_ComplexQuery_single_op tagList tag ts :
  wf ts →
  complexSet (ComplexQuery [ {| Type_ := "AND"; Tags := tagList |} ] ts)
    = resultSet (QueryAnd tagList ts) ∧
  complexSet (ComplexQuery [ {| Type_ := "OR"; Tags := tagList |} ] ts)
    = resultSet (QueryOr tagList ts) ∧
  complexSet (ComplexQuery [ {| Type_ := "NOT"; Tags := [tag] |} ] ts)
    = resultSet (QueryNotInSystem tag ts).
Proof.
  intros Hwf. rewrite resultSet_QueryAnd, resultSet_QueryOr by done.
  destruct (QueryNotInSystem_returns tag ts Hwf) as (_ & _ & _ & Hnot).
  unfold resultSet. rewrite Hnot. split; [|split].
  - by destruct (complexSet_spec [ {| Type_ := "AND"; Tags := tagList |} ] ts
                   Hwf) as (_ & ->); [repeat constructor; by left|].
  - by destruct (complexSet_spec [ {| Type_ := "OR"; Tags := tagList |} ] ts
                   Hwf) as (_ & ->); [repeat constructor; right; by left|].
  - by destruct (complexSet_spec [ {| Type_ := "NOT"; Tags := [tag] |} ] ts
                   Hwf) as (_ & ->); [repeat constructor; right; right|].
Qed.

Lemma X29_witness :
  complexSet (ComplexQuery [ {| Type_ := "NOT"; Tags := ["vip"] |} ] sample)
    = resultSet (QueryNotInSystem "vip" sample).
Proof.
  by destruct (X29_ComplexQuery_single_op [] "vip" sample sample_wf)
    as (_ & _ & Hnot).
Defined.

(** X30. For ops that are all valid, the result of [ComplexQuery] does
    not depend on the order of the ops, and every further op can only
    narrow it: the result for a list extended by one op is contained in
    the result for the list. *)
Theorem X30_ComplexQuery_order_and_narrowing ops ops' op ts :
  wf ts → Forall validOp ops → ops ≡ₚ ops' →
  (ComplexQuery ops' ts).2.2 = None ∧
  complexSet (ComplexQuery ops ts) = complexSet (ComplexQuery ops' ts) ∧
  (validOp op → ops ≠ [] →
   complexSet (ComplexQuery (ops ++ [op]) ts)
     ⊆ complexSet (ComplexQuery ops ts)).
Proof.
  intros Hwf Hvalid Hperm.
  assert (Forall validOp ops') as Hvalid' by (by rewrite <-Hperm).
  destruct (complexSet_spec ops ts Hwf Hvalid) as (_ & ->).
  destruct (complexSet_spec ops' ts Hwf Hvalid') as (Herr & ->).
  split; [done|]. split.
  - apply set_eq. intros x. rewrite !elem_of_intersectAll.
    assert (partialOf ts <$> ops ≡ₚ partialOf ts <$> ops') as Hp
      by (by rewrite Hperm).
    split; intros [Hne Hall]; split.
    + intros Hnil. rewrite Hnil in Hp. by apply Permutation_nil_r in Hp.
    + intros s Hin. apply Hall. by rewrite Hp.
    + intros Hnil. rewrite Hnil in Hp. by apply Permutation_nil_l in Hp.
    + intros s Hin. apply Hall. by rewrite <-Hp.
  - intros Hop Hne.
    destruct (complexSet_spec (ops ++ [op]) ts Hwf) as (_ & ->).
    { apply Forall_app. split; [done|by apply Forall_singleton]. }
    intros x [_ Hall]%elem_of_intersectAll. apply elem_of_intersectAll.
    split; [by destruct ops|]. intros s Hin. apply Hall.
    rewrite fmap_app. apply elem_of_app. by left.
Qed.

Lemma X30_witness :
  complexSet (ComplexQuery scenario sample)
    = complexSet (ComplexQuery (reverse scenario) sample).
Proof.
  destruct (X30_ComplexQuery_order_and_narrowing scenario (reverse scenario)
              {| Type_ := "AND"; Tags := [] |} sample sample_wf)
    as (_ & Hsame & _).
  - repeat constructor; by left.
  - by rewrite reverse_Permutation.
  - exact Hsame.
Defined.
